(** * WIGO token metrics collector: the resumable log-scanning pipeline

    A shallow embedding of [wigo_rpc_v003.py] (class [WigoMetricsCollector]):
    the binary search [find_block_by_timestamp], the log decoder
    [decode_transfer_event], the per-day accumulation of the scan loop, and
    the chunked scan loop of [get_token_metrics] with its CSV sink and its
    progress file.

    Python values are modelled as follows.
    - [int] is [Z]; [//] is [Z.div] (both round toward minus infinity).
    - [float] is an IEEE-754 binary64 number, [spec_float] with precision 53
      and maximal exponent 1024, rounded to nearest-even by the operations of
      [SpecFloat].
    - [bytes]/[HexBytes] is [list byte].
    - [set] is [gset]; an insertion-ordered [dict] is an association list.
    - Code that talks to the node, sleeps or writes files is a function of an
      explicit [World], which also records what was done, in order. A
      computation ends with a value, with an exception ([Raised]) or cut
      off ([OutOfFuel]); the changes made to the world before an exception
      are kept.

    Exceptions come from the node and from [datetime.fromtimestamp]: a
    request for a block, for logs or for the height of the chain may fail
    at any time, the height may change from one request to the next, and
    a timestamp may be out of the range the platform converts. Writing
    the CSV file and the progress file succeeds. Printing and plotting
    are left out. *)

From Stdlib Require Import ZArith Lia List Bool Permutation.
From Stdlib Require Import Strings.Byte Floats.SpecFloat.
From stdpp Require Import base option list gmap.

#[local] Open Scope Z_scope.

(** ** Python floats *)

Module Float64.

Definition prec : Z := 53.
Definition emax : Z := 1024.

Definition float : Type := spec_float.

(** [float(v)] for an [int] [v] (CPython's [PyLong_AsDouble]): the nearest
    double, ties to even; [OverflowError] when that is not finite. *)
Definition of_int (v : Z) : option float :=
  match binary_normalize prec emax v 0 false with
  | S754_infinity _ => None
  | f => Some f
  end.

(** The literal [1e18]: 7812500000000000 * 2^7. *)
Definition lit_1e18 : float := S754_finite false 7812500000000000 7.

(** [x / y] on floats; [ZeroDivisionError] when [y] is a zero. *)
Definition div (x y : float) : option float :=
  match y with
  | S754_zero _ => None
  | _ => Some (SFdiv prec emax x y)
  end.

(** [v / y] for an [int] [v] and a [float] [y]: [v] is converted first. *)
Definition int_truediv (v : Z) (y : float) : option float :=
  x ← of_int v; div x y.

Definition add (x y : float) : float := SFadd prec emax x y.

(** [x >= 0]: false on a NaN. *)
Definition ge0 (x : float) : bool := SFleb (S754_zero false) x.

(** The float is exactly the rational [num / den] (for [0 < den]). *)
Definition is_ratio (x : float) (num den : Z) : bool :=
  match x with
  | S754_zero _ => num =? 0
  | S754_finite s m e =>
      let sm := if s then Z.neg m else Z.pos m in
      if 0 <=? e then sm * 2 ^ e * den =? num
      else sm * den =? num * 2 ^ (- e)
  | _ => false
  end.

(** The float is the rational [num / den] up to a relative error of
    [2^-bits]: [|x * den - num| * 2^bits <= num] (for [0 < den]). *)
Definition within (bits : Z) (x : float) (num den : Z) : bool :=
  match x with
  | S754_zero _ => num =? 0
  | S754_finite s m e =>
      let sm := if s then Z.neg m else Z.pos m in
      if 0 <=? e
      then Z.abs (sm * 2 ^ e * den - num) * 2 ^ bits <=? num
      else Z.abs (sm * den - num * 2 ^ (- e)) * 2 ^ bits <=? num * 2 ^ (- e)
  | _ => false
  end.

End Float64.

(** A Python number that is an [int] or a [float]: the running volume starts
    as the [int] 0 and becomes a [float] with the first addition. *)
Inductive pynum : Type :=
| PInt (n : Z)
| PFloat (x : Float64.float).

(** [a + x] for a number [a] and a float [x]: an [int] is converted first
    (the only [int] the code adds to is 0, which converts to [+0.0]). *)
Definition pynum_to_float (a : pynum) : Float64.float :=
  match a with
  | PInt n => binary_normalize Float64.prec Float64.emax n 0 false
  | PFloat x => x
  end.

Definition pynum_add_float (a : pynum) (x : Float64.float) : pynum :=
  PFloat (Float64.add (pynum_to_float a) x).

(** [a >= 0] *)
Definition pynum_ge0 (a : pynum) : bool :=
  match a with
  | PInt n => 0 <=? n
  | PFloat x => Float64.ge0 x
  end.

(** ** Raw logs and the decoder *)

#[global] Instance byte_eq_dec : EqDecision byte := Byte.byte_eq_dec.
#[global] Instance byte_countable : Countable byte :=
  inj_countable Byte.to_N Byte.of_N Byte.of_to_N.

(** An address is the 20 bytes that the checksummed hexadecimal string
    spells: [to_checksum_address] only changes the case of letters. *)
Definition Address : Type := list byte.

Record RawLog : Type := mkRawLog {
  blockNumber : Z;
  topics : list (list byte);
  data : list byte
}.

Record TransferEvent : Type := mkTransferEvent {
  from_address : Address;
  to_address : Address;
  value : Float64.float
}.

(** [b.hex()[-40:]], as the bytes its characters spell: two characters per
    byte, so the last 40 characters are the last 20 bytes, and all of [b]
    when it is shorter. *)
Definition hex_last40 (b : list byte) : list byte :=
  drop (length b - 20)%nat b.

(** [Web3.to_checksum_address('0x' + s)]: raises unless [s] has exactly 40
    hexadecimal characters, that is, spells 20 bytes. *)
Definition to_checksum_address (s : list byte) : option Address :=
  if decide (length s = 20%nat) then Some s else None.

(** [int(b.hex(), 16)]: the bytes as a big-endian unsigned integer;
    [ValueError] on the empty string. *)
Definition int_of_bytes (b : list byte) : Z :=
  fold_left (fun acc x => acc * 256 + Z.of_N (Byte.to_N x)) b 0.

Definition int_of_hex (b : list byte) : option Z :=
  match b with
  | [] => None
  | _ => Some (int_of_bytes b)
  end.

(** [decode_transfer_event]: every exception of the body is caught and turned
    into [None]. *)
Definition decode_transfer_event (event_log : RawLog) : option TransferEvent :=
  t1 ← topics event_log !! 1%nat;
  from_address ← to_checksum_address (hex_last40 t1);
  t2 ← topics event_log !! 2%nat;
  to_address ← to_checksum_address (hex_last40 t2);
  value ← int_of_hex (data event_log);
  amount ← Float64.int_truediv value Float64.lit_1e18;
  Some {| from_address := from_address;
          to_address := to_address;
          value := amount |}.

(** ** Per-day metrics *)

Record Metrics : Type := mkMetrics {
  transactions : Z;
  active_addresses : gset Address;
  volume : pynum;
  senders : gset Address;
  receivers : gset Address
}.

(** The value the [defaultdict] creates for a missing date. *)
Definition default_metrics : Metrics :=
  {| transactions := 0;
     active_addresses := ∅;
     volume := PInt 0;
     senders := ∅;
     receivers := ∅ |}.

(** A [dict] keyed by calendar date (a day number), in insertion order. *)
Definition dict (V : Type) : Type := list (Z * V).

Fixpoint dict_get {V} (k : Z) (d : dict V) : option V :=
  match d with
  | [] => None
  | (k', v) :: d' => if decide (k' = k) then Some v else dict_get k d'
  end.

(** [d[k] = v]: an existing key keeps its place, a new one goes last. *)
Fixpoint dict_set {V} (k : Z) (v : V) (d : dict V) : dict V :=
  match d with
  | [] => [(k, v)]
  | (k', v') :: d' =>
      if decide (k' = k) then (k, v) :: d' else (k', v') :: dict_set k v d'
  end.

(** [chunk_metrics[date_key]] on the [defaultdict]. *)
Definition metrics_at (date_key : Z) (chunk_metrics : dict Metrics) : Metrics :=
  default default_metrics (dict_get date_key chunk_metrics).

(** The six statements of the loop body that update [daily_metrics]. *)
Definition observe (date_key : Z) (transfer_data : TransferEvent)
    (chunk_metrics : dict Metrics) : dict Metrics :=
  let daily_metrics := metrics_at date_key chunk_metrics in
  dict_set date_key
    {| transactions := transactions daily_metrics + 1;
       active_addresses :=
         active_addresses daily_metrics
           ∪ {[ from_address transfer_data ]} ∪ {[ to_address transfer_data ]};
       volume := pynum_add_float (volume daily_metrics) (value transfer_data);
       senders := senders daily_metrics ∪ {[ from_address transfer_data ]};
       receivers := receivers daily_metrics ∪ {[ to_address transfer_data ]} |}
    chunk_metrics.

(** One event of the [for] loop once its date is known: decode, and update
    the day's metrics [if transfer_data]. *)
Definition process_event (date_key : Z) (event : RawLog)
    (chunk_metrics : dict Metrics) : dict Metrics :=
  match decode_transfer_event event with
  | Some transfer_data => observe date_key transfer_data chunk_metrics
  | None => chunk_metrics
  end.

(** Feeding dated events to a fresh aggregator. *)
Definition aggregate (events : list (Z * RawLog)) : dict Metrics :=
  fold_left (fun cm e => process_event e.1 e.2 cm) events [].

Definition observe_all (events : list (Z * TransferEvent)) : dict Metrics :=
  fold_left (fun cm e => observe e.1 e.2 cm) events [].

(** ** The world: node, files, clock *)

Record CsvRow : Type := mkCsvRow {
  row_date : Z;
  row_transactions : Z;
  row_active_addresses : Z;
  row_volume : pynum;
  row_unique_senders : Z;
  row_unique_receivers : Z
}.

Record Progress : Type := mkProgress {
  start_block : Z;
  end_block : Z;
  last_processed : Z
}.

(** What a run does to its environment, in order. [EBlockNumber] is a
    request for the height of the chain; [EAppendCsv rows] is a call of
    [append_chunk_data] and carries the rows it wrote (none for an empty
    chunk); sleeps are in milliseconds. *)
Inductive Event : Type :=
| EBlockNumber
| EGetBlock (n : Z)
| EGetLogs (fromBlock toBlock : Z)
| ESleep (ms : Z)
| EAppendCsv (rows : list CsvRow)
| EWriteProgress (p : Progress).

(** [csv_file] and [progress_file] are the two files of the session
    directory ([None]: the file does not exist); [rpc_calls] counts the
    requests sent to the node so far. *)
Record World : Type := mkWorld {
  rpc_calls : nat;
  csv_file : option (list CsvRow);
  progress_file : option Progress;
  trace : list Event
}.

(** The remote node. Its answers may change from one request to the next:
    [block_number i], [get_block i n] and [get_logs i a b] are the answers
    to request number [i], [None] when the request raises. [block_number]
    gives the height of the chain ([w3.eth.block_number] asks the node
    each time it is read); [get_block] the timestamp of the block;
    [get_logs] the Transfer logs of the token in blocks [a..b]. *)
Record Node : Type := mkNode {
  block_number : nat → option Z;
  get_block : nat → Z → option Z;
  get_logs : nat → Z → Z → option (list RawLog)
}.

(** The result of a computation: a value, an exception (every exception of
    the code is caught by [except Exception]), or a loop that was cut off. *)
Inductive result (A : Type) : Type :=
| Ok (a : A)
| Raised
| OutOfFuel.
Arguments Ok {A} a.
Arguments Raised {A}.
Arguments OutOfFuel {A}.

Definition M (A : Type) : Type := World → result A * World.

#[global] Instance M_ret : MRet M := λ A a w, (Ok a, w).
#[global] Instance M_bind : MBind M := λ A B f m w,
  match m w with
  | (Ok a, w') => f a w'
  | (Raised, w') => (Raised, w')
  | (OutOfFuel, w') => (OutOfFuel, w')
  end.

(** [try: m (then on_ok) except Exception: on_exc]: the handler covers [m]
    only, not what follows it. *)
Definition try_except {A B} (m : M A) (on_ok : A → M B) (on_exc : M B)
    : M B := λ w,
  match m w with
  | (Ok a, w') => on_ok a w'
  | (Raised, w') => on_exc w'
  | (OutOfFuel, w') => (OutOfFuel, w')
  end.

Definition emit (e : Event) (w : World) : World :=
  {| rpc_calls := rpc_calls w;
     csv_file := csv_file w;
     progress_file := progress_file w;
     trace := trace w ++ [e] |}.

Definition next_call (w : World) : World :=
  {| rpc_calls := S (rpc_calls w);
     csv_file := csv_file w;
     progress_file := progress_file w;
     trace := trace w |}.

Definition of_option {A} (o : option A) : result A :=
  match o with
  | Some a => Ok a
  | None => Raised
  end.

(** [time.sleep(ms / 1000)] *)
Definition sleep (ms : Z) : M unit := λ w, (Ok (), emit (ESleep ms) w).

(** [open(progress.txt, 'w')] and the write of the three fields. *)
Definition write_progress (p : Progress) : M unit := λ w,
  (Ok (),
   emit (EWriteProgress p)
     {| rpc_calls := rpc_calls w;
        csv_file := csv_file w;
        progress_file := Some p;
        trace := trace w |}).

(** [pd.read_csv(self.csv_file) if os.path.exists(self.csv_file) else None] *)
Definition read_csv : M (option (list CsvRow)) := λ w, (Ok (csv_file w), w).

Definition csv_row (item : Z * Metrics) : CsvRow :=
  {| row_date := item.1;
     row_transactions := transactions item.2;
     row_active_addresses := Z.of_nat (size (active_addresses item.2));
     row_volume := volume item.2;
     row_unique_senders := Z.of_nat (size (senders item.2));
     row_unique_receivers := Z.of_nat (size (receivers item.2)) |}.

(** [df.to_csv(csv_file, mode='a', header=not exists)] *)
Definition csv_append (rows : list CsvRow) (file : option (list CsvRow))
    : option (list CsvRow) :=
  Some (default [] file ++ rows).

(** [append_chunk_data]; [update_plots] catches its own exceptions and
    writes nothing. *)
Definition append_chunk_data (chunk_metrics : dict Metrics) : M unit := λ w,
  match chunk_metrics with
  | [] => (Ok (), emit (EAppendCsv []) w)
  | _ =>
      let results := csv_row <$> chunk_metrics in
      (Ok (),
       emit (EAppendCsv results)
         {| rpc_calls := rpc_calls w;
            csv_file := csv_append results (csv_file w);
            progress_file := progress_file w;
            trace := trace w |})
  end.

(** ** The collector *)

(** A [datetime] without time zone, as the seconds of its wall-clock time
    since 1970-01-01 00:00:00, and its [.date()] as a day number. *)
Definition datetime : Type := Z.

Definition date (d : datetime) : Z := d / 86400.

(** An optional value as a computation: [None] raises. *)
Definition raise_none {A} (o : option A) : M A := λ w, (of_option o, w).

Section Collector.

Variable node : Node.

(** [datetime.fromtimestamp(ts)]: the local date and time of a timestamp;
    [None] when it raises, as it does on a timestamp out of the range the
    platform converts. *)
Variable fromtimestamp : Z → option datetime.

(** [self.w3.eth.block_number] *)
Definition rpc_block_number : M Z := λ w,
  (of_option (block_number node (rpc_calls w)),
   emit EBlockNumber (next_call w)).

(** [self.w3.eth.get_block(n)['timestamp']] *)
Definition rpc_get_block (n : Z) : M Z := λ w,
  (of_option (get_block node (rpc_calls w) n),
   emit (EGetBlock n) (next_call w)).

(** [self.w3.eth.get_logs(event_filter)] *)
Definition rpc_get_logs (fromBlock toBlock : Z) : M (list RawLog) := λ w,
  (of_option (get_logs node (rpc_calls w) fromBlock toBlock),
   emit (EGetLogs fromBlock toBlock) (next_call w)).

(** The body of the [try] of [get_block_timestamp]: the request for the
    block and the conversion of its timestamp. *)
Definition block_datetime (n : Z) : M datetime :=
  timestamp ← rpc_get_block n;
  raise_none (fromtimestamp timestamp).

(** [get_block_timestamp]: three attempts, one second apart; the third
    failure is raised again. *)
Definition get_block_timestamp (n : Z) : M datetime :=
  try_except (block_datetime n) mret
    (sleep 1000;;
     try_except (block_datetime n) mret
       (sleep 1000;;
        block_datetime n)).

(** The [while left <= right] loop of [find_block_by_timestamp] and the
    [return] after it, which asks for the height once more. The result is
    what the function returns: [None] after a failed request for a block,
    a block number otherwise. A failed request for the height is not
    caught. *)
Fixpoint bisect (fuel : nat) (target_timestamp left right : Z)
    : M (option Z) :=
  if left <=? right then
    match fuel with
    | O => λ w, (OutOfFuel, w)
    | S fuel' =>
        let mid := (left + right) / 2 in
        try_except (rpc_get_block mid)
          (λ timestamp,
             if timestamp =? target_timestamp then mret (Some mid)
             else if timestamp <? target_timestamp
                  then bisect fuel' target_timestamp (mid + 1) right
                  else bisect fuel' target_timestamp left (mid - 1))
          (mret None)
    end
  else
    height ← rpc_block_number;
    mret (Some (if left <=? height then left else right)).

Definition find_block_by_timestamp (target_timestamp : Z) : M (option Z) :=
  right ← rpc_block_number;
  bisect (Z.to_nat right) target_timestamp 1 right.

(** The [for event in events] loop. *)
Fixpoint for_events (events : list RawLog) (chunk_metrics : dict Metrics)
    : M (dict Metrics) :=
  match events with
  | [] => mret chunk_metrics
  | event :: events' =>
      block_timestamp ← get_block_timestamp (blockNumber event);
      let date_key := date block_timestamp in
      for_events events' (process_event date_key event chunk_metrics)
  end.

(** The body of the [try] of the scan loop. *)
Definition try_chunk (current_block chunk_end end_block : Z) : M unit :=
  events ← rpc_get_logs current_block chunk_end;
  chunk_metrics ← for_events events [];
  append_chunk_data chunk_metrics;;
  write_progress {| start_block := current_block;
                    end_block := end_block;
                    last_processed := chunk_end |};;
  sleep 500.

(** How the [while current_block < end_block] loop ends: its condition
    became false, or the [break] of the handler was taken. Both carry
    the loop variables at that moment. *)
Inductive LoopExit : Type :=
| Exhausted (current_block chunk_size : Z)
| Stopped (current_block chunk_size : Z).

Fixpoint scan_loop (fuel : nat) (current_block end_block chunk_size : Z)
    : M LoopExit :=
  if current_block <? end_block then
    match fuel with
    | O => λ w, (OutOfFuel, w)
    | S fuel' =>
        let chunk_end := Z.min (current_block + chunk_size) end_block in
        try_except (try_chunk current_block chunk_end end_block)
          (λ _, scan_loop fuel' (chunk_end + 1) end_block chunk_size)
          (let chunk_size := chunk_size / 2 in
           if chunk_size <? 100 then mret (Stopped current_block chunk_size)
           else sleep 2000;;
                scan_loop fuel' current_block end_block chunk_size)
    end
  else mret (Exhausted current_block chunk_size).

(** Enough iterations for the loop when [0 <= chunk_size]: a successful
    chunk advances [current_block], a failed one that continues lowers
    [chunk_size]. *)
Definition scan_fuel (current_block end_block chunk_size : Z) : nat :=
  Z.to_nat (end_block - current_block) + Z.to_nat chunk_size.

(** [if not current_block or not end_block] *)
Definition falsy (block : option Z) : bool :=
  match block with
  | None => true
  | Some n => n =? 0
  end.

(** [get_token_metrics(start_date, end_date, chunk_size)], with the two
    dates given by their timestamps. The result is the data frame read
    back from the CSV file, or [None]; the exception of a failed request
    for the height of the chain leaves the function. *)
Definition get_token_metrics (start_timestamp end_timestamp chunk_size : Z)
    : M (option (list CsvRow)) :=
  current_block ← find_block_by_timestamp start_timestamp;
  end_block ← find_block_by_timestamp end_timestamp;
  if falsy current_block || falsy end_block then mret None
  else
    let current_block := default 0 current_block in
    let end_block := default 0 end_block in
    write_progress {| start_block := current_block;
                      end_block := end_block;
                      last_processed := current_block |};;
    scan_loop (scan_fuel current_block end_block chunk_size)
      current_block end_block chunk_size;;
    read_csv.

End Collector.

(** A world before the first run of a session. *)
Definition fresh_world : World :=
  {| rpc_calls := 0; csv_file := None; progress_file := None; trace := [] |}.

(** A node that never fails and serves one fixed chain: [timestamps] are the
    timestamps of blocks 1, 2, ..., and [logs] are all the Transfer logs. *)
Definition chain_timestamp (timestamps : list Z) (n : Z) : option Z :=
  if 1 <=? n then timestamps !! Z.to_nat (n - 1) else None.

Definition logs_between (logs : list RawLog) (a b : Z) : list RawLog :=
  filter (λ l, a ≤ blockNumber l ∧ blockNumber l ≤ b) logs.

Definition reliable_node (timestamps : list Z) (logs : list RawLog) : Node :=
  {| block_number := λ _, Some (Z.of_nat (length timestamps));
     get_block := λ _ n, chain_timestamp timestamps n;
     get_logs := λ _ a b, Some (logs_between logs a b) |}.

(** [datetime.fromtimestamp] on a machine whose time zone is UTC: it
    converts the timestamps of the years 1 to 9999. *)
Definition utc_fromtimestamp (timestamp : Z) : option datetime :=
  if (-62135596800 <=? timestamp) && (timestamp <=? 253402300799)
  then Some timestamp else None.

(** ** Concrete logs *)

(** The [len] bytes of [v], big-endian. *)
Fixpoint be_bytes (len : nat) (v : Z) : list byte :=
  match len with
  | O => []
  | S len' =>
      be_bytes len' (v / 256)
        ++ [default Byte.x00 (Byte.of_N (Z.to_N (v mod 256)))]
  end.

(** A Transfer log as the node returns it: the event signature, the two
    addresses left-padded to 32 bytes, and the amount as a 32-byte word. *)
Definition transfer_log (block from to amount : Z) : RawLog :=
  {| blockNumber := block;
     topics := [be_bytes 32 0xddf252ad1be2c89b69c2b068fc378daa952ba7f163c4a11628f55a4df523b3ef;
                be_bytes 32 from;
                be_bytes 32 to];
     data := be_bytes 32 amount |}.

(** The transfer a well-formed log decodes to, when it decodes. *)
Definition transfer (from to amount : Z) : option TransferEvent :=
  decode_transfer_event (transfer_log 0 from to amount).

(** Transfers of one day between two fixed addresses, one per amount. *)
Definition transfers_on (date_key from to : Z) (amounts : list Z)
    : list (Z * TransferEvent) :=
  omap (λ amount, (λ t, (date_key, t)) <$> transfer from to amount) amounts.

(** Three transfers of one day, of 2^53 tokens, 1 token and 1 token, and
    the same three with the large one last. *)
Definition large_transfer_first : list (Z * TransferEvent) :=
  transfers_on 0 10 11 [2 ^ 53 * 10 ^ 18; 10 ^ 18; 10 ^ 18].

Definition large_transfer_last : list (Z * TransferEvent) :=
  transfers_on 0 10 11 [10 ^ 18; 10 ^ 18; 2 ^ 53 * 10 ^ 18].

(** A log with a fourth topic (as the Transfer event of a token with an
    indexed third argument has) and a 32-byte payload. *)
Definition four_topic_log : RawLog :=
  {| blockNumber := 1;
     topics := [be_bytes 32 0xddf252ad1be2c89b69c2b068fc378daa952ba7f163c4a11628f55a4df523b3ef;
                be_bytes 32 10;
                be_bytes 32 11;
                be_bytes 32 7];
     data := be_bytes 32 (10 ^ 18) |}.

(** A transfer of 123456789 tokens and one base unit. *)
Definition odd_amount_log : RawLog :=
  transfer_log 1 10 11 (123456789 * 10 ^ 18 + 1).

(** The chain of five blocks with two transfers: of 1 token in block 2 and
    of 2 tokens in block 4. *)
Definition scenario_node : Node :=
  reliable_node [100; 200; 300; 400; 500]
    [transfer_log 2 10 11 (10 ^ 18); transfer_log 4 11 12 (2 * 10 ^ 18)].



(** A chain of 1002 blocks, 100 seconds apart, with one transfer in the
    last block. *)
Definition long_chain_node : Node :=
  reliable_node ((λ n, 100 * n) <$> seqZ 1 1002)
    [transfer_log 1002 10 11 (10 ^ 18)].

(** A session whose progress file says that blocks up to 3 of the range
    1..5 were processed. *)
Definition interrupted_world : World :=
  {| rpc_calls := 0;
     csv_file := None;
     progress_file :=
       Some {| start_block := 1; end_block := 5; last_processed := 3 |};
     trace := [] |}.

(** The block whose timestamp is nearest to the target, by comparing every
    block of the chain (the first such block on a tie). *)
Definition nearest_block (timestamps : list Z) (target : Z) : Z :=
  (foldl
     (λ best candidate,
        if Z.abs (candidate.2 - target) <? Z.abs (best.2 - target)
        then candidate else best)
     (1, default 0 (head timestamps))
     (zip (seqZ 1 (Z.of_nat (length timestamps))) timestamps)).1.

(** ** Vocabulary of the properties *)

(** Sign bit clear and not a NaN. *)
Definition float_nonneg (x : Float64.float) : bool :=
  match x with
  | S754_zero false | S754_infinity false | S754_finite false _ _ => true
  | _ => false
  end.

(** The counters of a day: what is compared when the volume is left out. *)
Definition counters (m : Metrics)
    : Z * gset Address * gset Address * gset Address :=
  (transactions m, active_addresses m, senders m, receivers m).

(** The float quotient is exact on every whole number of tokens below
    [n]. *)
Definition whole_tokens_exact (n : Z) : bool :=
  forallb
    (λ k, match Float64.int_truediv (k * 10 ^ 18) Float64.lit_1e18 with
          | Some x => Float64.is_ratio x (k * 10 ^ 18) (10 ^ 18)
          | None => false
          end)
    (seqZ 0 n).

(** Requests for a block and sleeps: the events of a timestamp lookup. *)
Definition neutral (e : Event) : bool :=
  match e with
  | EGetBlock _ | ESleep _ => true
  | _ => false
  end.

(** Requests for a block and for the height of the chain: the events of a
    search for a block. *)
Definition is_lookup (e : Event) : bool :=
  match e with
  | EGetBlock _ | EBlockNumber => true
  | _ => false
  end.

(** The block ranges requested from the node, in order. *)
Definition fetches (tr : list Event) : list (Z * Z) :=
  omap (λ e, match e with EGetLogs a b => Some (a, b) | _ => None end) tr.







(** The world with another content of the progress file. *)
Definition with_progress (saved : option Progress) (w : World) : World :=
  {| rpc_calls := rpc_calls w;
     csv_file := csv_file w;
     progress_file := saved;
     trace := trace w |}.


(** The day's metrics after one more transfer. *)
Definition observed (transfer_data : TransferEvent) (m : Metrics) : Metrics :=
  {| transactions := transactions m + 1;
     active_addresses :=
       active_addresses m
         ∪ {[ from_address transfer_data ]} ∪ {[ to_address transfer_data ]};
     volume := pynum_add_float (volume m) (value transfer_data);
     senders := senders m ∪ {[ from_address transfer_data ]};
     receivers := receivers m ∪ {[ to_address transfer_data ]} |}.

(** The invariant of a day's metrics. *)
Definition volume_ok (a : pynum) : Prop :=
  match a with
  | PInt n => 0 ≤ n
  | PFloat x => float_nonneg x = true
  end.

Definition metrics_ok (m : Metrics) : Prop :=
  active_addresses m = senders m ∪ receivers m ∧ volume_ok (volume m).

(** Two dictionaries with the same dates and the same counters. *)
Definition same_counters (cm1 cm2 : dict Metrics) : Prop :=
  ∀ d, counters <$> dict_get d cm1 = counters <$> dict_get d cm2.

(** The files are as before; the trace grew by [evs]. *)
Definition quiet (w w' : World) (evs : list Event) : Prop :=
  csv_file w' = csv_file w
  ∧ progress_file w' = progress_file w
  ∧ trace w' = trace w ++ evs.


(** Two worlds that differ at most in the progress file. *)
Definition same_but_progress (w1 w2 : World) : Prop :=
  rpc_calls w1 = rpc_calls w2
  ∧ csv_file w1 = csv_file w2
  ∧ trace w1 = trace w2.

(** The computation does not look at the progress file. *)
Definition oblivious {A} (m : M A) : Prop :=
  ∀ w1 w2, same_but_progress w1 w2 →
    (m w1).1 = (m w2).1 ∧ same_but_progress (m w1).2 (m w2).2.

(** Traces that differ in the nesting of their appends. *)
Ltac trace_eq := rewrite <- ?app_assoc; simpl; reflexivity.

(** ** Vocabulary of the properties of the search, the rows and the loop *)

(** The node answers every request for the height of the chain, always
    with [height]. *)
Definition reports (node : Node) (height : Z) : Prop :=
  ∀ i, block_number node i = Some height.

(** The node answers every request for a block of a chain of [height]
    blocks, and with the timestamp [timestamp_of] gives the block. *)
Definition serves (node : Node) (height : Z) (timestamp_of : Z → Z) : Prop :=
  ∀ i n, 1 ≤ n ≤ height → get_block node i n = Some (timestamp_of n).

(** Timestamps do not go back along the chain. *)
Definition chain_sorted (height : Z) (timestamp_of : Z → Z) : Prop :=
  ∀ n m, 1 ≤ n → n ≤ m → m ≤ height → timestamp_of n ≤ timestamp_of m.

(** Request number [i] gives the date and time of block [n]: the node
    answers it and the timestamp of the answer converts. *)
Definition dated (node : Node) (fromtimestamp : Z → option datetime)
    (i : nat) (n : Z) : Prop :=
  ∃ timestamp, get_block node i n = Some timestamp
    ∧ is_Some (fromtimestamp timestamp).

(** Of three requests in a row for a block of a chain of [height] blocks,
    one at least gives the date and time of the block. *)
Definition never_thrice (node : Node) (fromtimestamp : Z → option datetime)
    (height : Z) : Prop :=
  ∀ i n, 1 ≤ n ≤ height →
    dated node fromtimestamp i n
    ∨ dated node fromtimestamp (S i) n
    ∨ dated node fromtimestamp (S (S i)) n.

(** A node that refuses every other request for a block (the requests with
    an even number), refuses every request for a block that does not
    exist, and serves the logs of two transfers. *)
Definition flaky_node : Node :=
  {| block_number := λ _, Some 5;
     get_block := λ i n,
       if Nat.even i then None
       else chain_timestamp [100; 200; 300; 400; 500] n;
     get_logs := λ _ a b,
       Some (logs_between
               [transfer_log 2 10 11 (10 ^ 18);
                transfer_log 4 11 12 (2 * 10 ^ 18)] a b) |}.

(** A node that refuses every request. *)
Definition dead_node : Node :=
  {| block_number := λ _, None;
     get_block := λ _ _, None;
     get_logs := λ _ _ _, None |}.

(** The last content a trace wrote to the progress file, if it wrote
    any. *)
Definition last_progress (tr : list Event) : option Progress :=
  last (omap (λ e, match e with
                   | EWriteProgress p => Some p
                   | _ => None
                   end) tr).

(** The progress file after a trace: it holds the last marker written. *)
Definition progress_after (file : option Progress) (tr : list Event)
    : option Progress :=
  match last_progress tr with
  | Some p => Some p
  | None => file
  end.

(** The requests of a trace for a block. *)
Definition block_requests (tr : list Event) : list Z :=
  omap (λ e, match e with EGetBlock n => Some n | _ => None end) tr.

(** The transfers of the day [date_key] among dated logs: those that
    decode, in the order of the logs. *)
Definition decoded_on (date_key : Z) (events : list (Z * RawLog))
    : list TransferEvent :=
  omap (λ e, if decide (e.1 = date_key)
             then decode_transfer_event e.2 else None) events.

(** The sum of the column [transactions] of a data frame. *)
Definition sum_transactions (df : list CsvRow) : Z :=
  foldr (λ row acc, row_transactions row + acc) 0 df.

(** The chunks a trace marks as processed: the pairs of [start_block] and
    [last_processed] written to the progress file, in order. *)
Definition committed (tr : list Event) : list (Z * Z) :=
  omap (λ e, match e with
             | EWriteProgress p => Some (start_block p, last_processed p)
             | _ => None
             end) tr.

(** In how many of the block ranges the block [n] lies. *)
Definition times_in (n : Z) (ranges : list (Z * Z)) : nat :=
  length (filter (λ r, r.1 ≤ n ≤ r.2) ranges).

Definition exit_current_block (exit : LoopExit) : Z :=
  match exit with
  | Exhausted current_block _ | Stopped current_block _ => current_block
  end.

(** No request for logs follows another one without a sleep of at least
    half a second between the two. [rested] tells whether such a sleep was
    seen since the last request for logs. *)
Fixpoint paced (rested : bool) (tr : list Event) : bool :=
  match tr with
  | [] => true
  | EGetLogs _ _ :: tr' => rested && paced false tr'
  | ESleep ms :: tr' => paced (rested || (500 <=? ms)) tr'
  | _ :: tr' => paced rested tr'
  end.

(** The rows a trace appended to the CSV file, in order. *)
Definition appended (tr : list Event) : list CsvRow :=
  concat (omap (λ e, match e with
                     | EAppendCsv rows => Some rows
                     | _ => None
                     end) tr).

(** The CSV file after [rows] were appended to it: it is created by the
    first row. *)
Definition csv_after (file : option (list CsvRow)) (rows : list CsvRow)
    : option (list CsvRow) :=
  match rows with
  | [] => file
  | _ => Some (default [] file ++ rows)
  end.

(** The shape of the events of the scan loop, iteration by iteration, from
    the loop variables [current_block] and [chunk_size] on: the loop is
    over; or a chunk is fetched, flushed and marked and the loop goes on
    behind it; or the attempt fails and the loop stops; or the attempt
    fails and the loop goes on with half the chunk size. The last index is
    how the loop ended, [None] when it was cut off. *)
Inductive loop_events (end_block : Z)
    : Z → Z → list Event → option LoopExit → Prop :=
| loop_exhausted current_block chunk_size :
    end_block ≤ current_block →
    loop_events end_block current_block chunk_size []
      (Some (Exhausted current_block chunk_size))
| loop_cut_off current_block chunk_size :
    loop_events end_block current_block chunk_size [] None
| loop_chunk current_block chunk_size evs rows rest exit :
    current_block < end_block →
    Forall (λ e, neutral e = true) evs →
    loop_events end_block
      (Z.min (current_block + chunk_size) end_block + 1) chunk_size
      rest exit →
    loop_events end_block current_block chunk_size
      (EGetLogs current_block (Z.min (current_block + chunk_size) end_block)
         :: evs
         ++ [EAppendCsv rows;
             EWriteProgress
               {| start_block := current_block;
                  end_block := end_block;
                  last_processed :=
                    Z.min (current_block + chunk_size) end_block |};
             ESleep 500]
         ++ rest)
      exit
| loop_stop current_block chunk_size evs :
    current_block < end_block →
    Forall (λ e, neutral e = true) evs →
    chunk_size / 2 < 100 →
    loop_events end_block current_block chunk_size
      (EGetLogs current_block (Z.min (current_block + chunk_size) end_block)
         :: evs)
      (Some (Stopped current_block (chunk_size / 2)))
| loop_retry current_block chunk_size evs rest exit :
    current_block < end_block →
    Forall (λ e, neutral e = true) evs →
    100 ≤ chunk_size / 2 →
    loop_events end_block current_block (chunk_size / 2) rest exit →
    loop_events end_block current_block chunk_size
      (EGetLogs current_block (Z.min (current_block + chunk_size) end_block)
         :: evs ++ ESleep 2000 :: rest)
      exit.

(** An event that is not a request for logs. *)
Definition no_logs (e : Event) : bool :=
  match e with
  | EGetLogs _ _ => false
  | _ => true
  end.

(** * Properties *)

(** ** Floats keep their sign *)

Section FloatSign.

Abbreviation prec := Float64.prec.
Abbreviation emax := Float64.emax.

Lemma shr_1_nonneg mrs : 0 ≤ shr_m mrs → 0 ≤ shr_m (shr_1 mrs).
Proof.
  destruct mrs as [m r s]; simpl.
  destruct m as [|p|p]; simpl; [lia| |lia].
  destruct p; simpl; lia.
Qed.

Lemma iter_shr_1_nonneg n : ∀ mrs,
  0 ≤ shr_m mrs → 0 ≤ shr_m (SpecFloat.iter_pos shr_1 n mrs).
Proof.
  induction n as [n IH|n IH|]; intros mrs Hm; simpl.
  - apply IH, IH, shr_1_nonneg, Hm.
  - apply IH, IH, Hm.
  - apply shr_1_nonneg, Hm.
Qed.

Lemma shr_fexp_nonneg m e l :
  0 ≤ m → 0 ≤ shr_m (shr_fexp prec emax m e l).1.
Proof.
  intros Hm. unfold shr_fexp, shr.
  assert (Hr : 0 ≤ shr_m (shr_record_of_loc m l))
    by (destruct l as [|[]]; exact Hm).
  destruct (fexp prec emax (Zdigits2 m + e) - e); simpl; try exact Hr.
  apply iter_shr_1_nonneg, Hr.
Qed.

Lemma round_nearest_even_nonneg m l : 0 ≤ m → 0 ≤ round_nearest_even m l.
Proof.
  intros Hm. destruct l as [|[]]; simpl; try lia.
  destruct (Z.even m); lia.
Qed.

Lemma binary_round_aux_nonneg m e l :
  0 ≤ m → float_nonneg (binary_round_aux prec emax false m e l) = true.
Proof.
  intros Hm. unfold binary_round_aux.
  pose proof (shr_fexp_nonneg m e l Hm) as H1.
  destruct (shr_fexp prec emax m e l) as [mrs' e']; simpl in H1.
  pose proof (shr_fexp_nonneg
    (round_nearest_even (shr_m mrs') (loc_of_shr_record mrs')) e' loc_Exact
    (round_nearest_even_nonneg _ _ H1)) as H2.
  destruct (shr_fexp prec emax _ e' loc_Exact) as [mrs'' e'']; simpl in H2.
  destruct (shr_m mrs'') as [|p|p]; [reflexivity| |lia].
  destruct (e'' <=? emax - prec); reflexivity.
Qed.

Lemma binary_normalize_nonneg m e :
  0 ≤ m → float_nonneg (binary_normalize prec emax m e false) = true.
Proof.
  intros Hm. destruct m as [|p|p]; [reflexivity| |lia].
  simpl. unfold binary_round.
  destruct (shl_align p e _) as [mz ez].
  apply binary_round_aux_nonneg. lia.
Qed.

Lemma add_nonneg x y :
  float_nonneg x = true → float_nonneg y = true →
  float_nonneg (Float64.add x y) = true.
Proof.
  destruct x as [[]|[]| |[] mx ex], y as [[]|[]| |[] my ey];
    simpl; try discriminate; try reflexivity.
  intros _ _.
  exact (binary_normalize_nonneg (Z.pos _) _ (Pos2Z.is_nonneg _)).
Qed.

Lemma div_nonneg x my ey z :
  float_nonneg x = true →
  Float64.div x (S754_finite false my ey) = Some z →
  float_nonneg z = true.
Proof.
  destruct x as [[]|[]| |[] mx ex];
    simpl; try discriminate; intros _ [= <-]; try reflexivity.
  destruct (SFdiv_core_binary _ _ _ _ _ _) as [[mz ez] lz] eqn:Hcore.
  apply binary_round_aux_nonneg.
  unfold SFdiv_core_binary in Hcore.
  set (s := _ - _ - _) in Hcore.
  set (m' := match s with Z0 => _ | Z.pos _ => _ | Z.neg _ => _ end) in Hcore.
  assert (Hm' : 0 ≤ m').
  { subst m'. destruct s; try lia. apply Z.shiftl_nonneg. lia. }
  pose proof (Z.div_eucl_eq m' (Z.pos my) ltac:(lia)) as Heq.
  pose proof (Z_div_mod m' (Z.pos my) ltac:(lia)) as Hdm.
  destruct (Z.div_eucl m' (Z.pos my)) as [q r].
  injection Hcore as <- _ _. nia.
Qed.

(** *** Integers below 2^1023 convert to a finite float *)

Lemma digits2_pos_size p : digits2_pos p = Pos.size p.
Proof. induction p; simpl; congruence. Qed.

Lemma Zdigits2_nonneg m : 0 ≤ Zdigits2 m.
Proof. destruct m; simpl; lia. Qed.

Lemma Zdigits2_gt m : 0 ≤ m → m < 2 ^ Zdigits2 m.
Proof.
  destruct m as [|p|p]; simpl; [lia| |lia]. intros _.
  rewrite digits2_pos_size. pose proof (Pos.size_gt p) as H.
  apply Pos2Z.pos_lt_pos in H. by rewrite Pos2Z.inj_pow in H.
Qed.

Lemma Zdigits2_le m k : 0 ≤ m → 0 ≤ k → m < 2 ^ k → Zdigits2 m ≤ k.
Proof.
  destruct m as [|p|p]; simpl; [lia| |lia]. intros _ Hk Hm.
  rewrite digits2_pos_size. pose proof (Pos.size_le p) as H.
  apply Pos2Z.pos_le_pos in H. rewrite Pos2Z.inj_pow in H.
  change (Z.pos p~0) with (2 * Z.pos p) in H.
  destruct (Z.le_gt_cases (Z.pos (Pos.size p)) k) as [|Hgt]; [done|].
  exfalso.
  assert (2 ^ (k + 1) ≤ 2 ^ Z.pos (Pos.size p))
    by (apply Z.pow_le_mono_r; lia).
  rewrite Z.pow_add_r in * by lia. lia.
Qed.

Lemma shr_1_div2 mrs : 0 ≤ shr_m mrs → shr_m (shr_1 mrs) = shr_m mrs / 2.
Proof.
  destruct mrs as [m r s]; simpl. destruct m as [|p|p]; [done| |lia].
  intros _. rewrite <- Z.div2_div. by destruct p.
Qed.

Lemma iter_shr_1_div n : ∀ mrs,
  0 ≤ shr_m mrs →
  shr_m (SpecFloat.iter_pos shr_1 n mrs) = shr_m mrs / 2 ^ Z.pos n.
Proof.
  induction n as [n IH|n IH|]; intros mrs Hm; simpl SpecFloat.iter_pos.
  - assert (0 < 2 ^ Z.pos n) by (apply Z.pow_pos_nonneg; lia).
    rewrite IH, IH, shr_1_div2; try done.
    + rewrite !Z.div_div by lia. f_equal.
      replace (Z.pos n~1) with (1 + Z.pos n + Z.pos n) by lia.
      rewrite !Z.pow_add_r by lia. lia.
    + by apply shr_1_nonneg.
    + by apply iter_shr_1_nonneg, shr_1_nonneg.
  - assert (0 < 2 ^ Z.pos n) by (apply Z.pow_pos_nonneg; lia).
    rewrite IH, IH; try done.
    + rewrite !Z.div_div by lia. f_equal.
      replace (Z.pos n~0) with (Z.pos n + Z.pos n) by lia.
      rewrite !Z.pow_add_r by lia. lia.
    + by apply iter_shr_1_nonneg.
  - by rewrite shr_1_div2.
Qed.

Lemma fexp_mono x y : x ≤ y → fexp Float64.prec Float64.emax x ≤ fexp Float64.prec Float64.emax y.
Proof. unfold fexp, emin. lia. Qed.

Lemma shr_fexp_spec m e l :
  0 ≤ m →
  (shr_fexp Float64.prec Float64.emax m e l).2 = Z.max e (fexp Float64.prec Float64.emax (Zdigits2 m + e))
  ∧ shr_m (shr_fexp Float64.prec Float64.emax m e l).1
    = m / 2 ^ ((shr_fexp Float64.prec Float64.emax m e l).2 - e).
Proof.
  intros Hm. unfold shr_fexp, shr.
  assert (Hr : shr_m (shr_record_of_loc m l) = m) by (by destruct l as [|[]]).
  destruct (fexp Float64.prec Float64.emax (Zdigits2 m + e) - e) as [|n|n] eqn:Hn; simpl.
  - split; [lia|]. rewrite Z.sub_diag, Hr. simpl. by rewrite Z.div_1_r.
  - split; [lia|]. rewrite iter_shr_1_div by lia. rewrite Hr.
    f_equal. f_equal. lia.
  - split; [lia|]. rewrite Z.sub_diag, Hr. simpl. by rewrite Z.div_1_r.
Qed.

Lemma round_nearest_even_le m l : round_nearest_even m l ≤ m + 1.
Proof. destruct l as [|[]]; simpl; try lia. destruct (Z.even m); lia. Qed.

Lemma digits_iter_xO p k :
  Zdigits2 (Z.pos (Pos.iter xO p k)) = Zdigits2 (Z.pos p) + Z.pos k.
Proof.
  simpl. induction k as [|k IH] using Pos.peano_ind.
  - simpl. lia.
  - rewrite Pos.iter_succ. simpl. lia.
Qed.

Lemma shl_align_spec p e e' :
  (shl_align p e e').2 = Z.min e e'
  ∧ Zdigits2 (Z.pos (shl_align p e e').1) + (shl_align p e e').2
    = Zdigits2 (Z.pos p) + e.
Proof.
  unfold shl_align. destruct (e' - e) as [|d|d] eqn:Hd; simpl fst; simpl snd.
  - split; lia.
  - split; lia.
  - rewrite digits_iter_xO. split; lia.
Qed.

(** The exponent that [binary_round_aux] ends with is at most 971 when the
    value is below 2^1023. *)
Lemma binary_round_aux_finite m e l :
  0 ≤ m → Zdigits2 m + e ≤ 1023 → -1074 ≤ e ≤ 971 →
  ∀ s, binary_round_aux Float64.prec Float64.emax false m e l ≠ S754_infinity s.
Proof.
  intros Hm Hd He s. unfold binary_round_aux.
  destruct (shr_fexp_spec m e l Hm) as [He1 Hm1].
  pose proof (shr_fexp_nonneg m e l Hm) as Hn1.
  destruct (shr_fexp Float64.prec Float64.emax m e l) as [mrs1 e1]; simpl in He1, Hm1, Hn1.
  set (m2 := round_nearest_even (shr_m mrs1) (loc_of_shr_record mrs1)).
  assert (Hm2 : 0 ≤ m2) by (by apply round_nearest_even_nonneg).
  destruct (shr_fexp_spec m2 e1 loc_Exact Hm2) as [He2 _].
  destruct (shr_fexp Float64.prec Float64.emax m2 e1 loc_Exact) as [mrs2 e2]; simpl in He2.
  destruct (shr_m mrs2); try done.
  assert (Hd2 : Zdigits2 m2 + e1 ≤ 1024).
  { assert (e ≤ e1) by lia.
    assert (Hlt : shr_m mrs1 < 2 ^ (Zdigits2 m + e - e1)).
    { rewrite Hm1. pose proof (Zdigits2_gt m Hm) as Hg.
      pose proof (Zdigits2_nonneg m).
      destruct (Z.le_gt_cases e1 (Zdigits2 m + e)) as [Hle|Hgt].
      - apply Z.div_lt_upper_bound; [lia|].
        rewrite <- Z.pow_add_r by lia.
        replace (e1 - e + (Zdigits2 m + e - e1)) with (Zdigits2 m) by lia.
        done.
      - rewrite (Z.pow_neg_r 2 (Zdigits2 m + e - e1)) by lia.
        exfalso. unfold fexp, emin, Float64.prec, Float64.emax in He1. lia. }
    pose proof (round_nearest_even_le (shr_m mrs1) (loc_of_shr_record mrs1)).
    pose proof (Zdigits2_nonneg m).
    destruct (Z.le_gt_cases e1 (Zdigits2 m + e)) as [Hle|Hgt].
    - assert (Zdigits2 m2 ≤ Zdigits2 m + e - e1 + 1); [|lia].
      apply Zdigits2_le; [done|lia|].
      rewrite Z.pow_add_r by lia. change (2 ^ 1) with 2.
      fold m2 in H0. lia.
    - unfold fexp, emin, Float64.prec, Float64.emax in He1. lia. }
  assert (e2 ≤ 971).
  { rewrite He2. pose proof (fexp_mono _ _ Hd2).
    unfold fexp, emin, Float64.prec, Float64.emax in *. lia. }
  destruct (e2 <=? Float64.emax - Float64.prec) eqn:Hle; [done|].
  apply Z.leb_gt in Hle. unfold Float64.prec, Float64.emax in Hle. lia.
Qed.

Lemma of_int_is_Some v : 0 ≤ v < 2 ^ 1023 → is_Some (Float64.of_int v).
Proof.
  intros [Hv Hlt]. unfold Float64.of_int.
  assert (H : ∀ s, binary_normalize Float64.prec Float64.emax v 0 false
                   ≠ S754_infinity s).
  { destruct v as [|p|p]; [done| |lia]. simpl. unfold binary_round.
    destruct (shl_align_spec p 0
                (fexp Float64.prec Float64.emax (Z.pos (digits2_pos p) + 0)))
      as [He Hd].
    destruct (shl_align p 0 _) as [mz ez]; simpl in He, Hd.
    assert (Z.pos (digits2_pos p) ≤ 1023)
      by (apply (Zdigits2_le (Z.pos p)); lia).
    apply binary_round_aux_finite; [lia| |unfold fexp, emin, Float64.prec, Float64.emax in He; lia].
    change (Zdigits2 (Z.pos mz)) with (Z.pos (digits2_pos mz)). lia. }
  destruct (binary_normalize _ _ v 0 false); try by eexists.
  by destruct (H s).
Qed.

(** *** The quotient by [1e18] is accurate *)

Lemma Zdigits2_lower m : 0 < m → 2 ^ (Zdigits2 m - 1) ≤ m.
Proof.
  destruct m as [|p|p]; simpl; [lia| |lia]. intros _.
  rewrite digits2_pos_size. pose proof (Pos.size_le p) as H.
  apply Pos2Z.pos_le_pos in H. rewrite Pos2Z.inj_pow in H.
  change (Z.pos p~0) with (2 * Z.pos p) in H.
  replace (Z.pos (Pos.size p)) with (Z.pos (Pos.size p) - 1 + 1) in H by lia.
  rewrite Z.pow_add_r in H by lia. lia.
Qed.

Lemma Zdigits2_ge m k : 0 ≤ k → 2 ^ k ≤ m → k + 1 ≤ Zdigits2 m.
Proof.
  intros Hk Hm.
  assert (0 < 2 ^ k) by (apply Z.pow_pos_nonneg; lia).
  pose proof (Zdigits2_gt m ltac:(lia)) as Hgt.
  pose proof (Zdigits2_nonneg m).
  destruct (Z.le_gt_cases (k + 1) (Zdigits2 m)) as [|Hlt]; [done|].
  exfalso. assert (2 ^ Zdigits2 m ≤ 2 ^ k) by (apply Z.pow_le_mono_r; lia).
  lia.
Qed.

Lemma round_nearest_even_ge m l : m ≤ round_nearest_even m l.
Proof. destruct l as [|[]]; simpl; try lia. destruct (Z.even m); lia. Qed.

(** Floor division by a power of two, as an enclosure. *)
Lemma div_pow2_enclose m n :
  0 ≤ m → 0 ≤ n →
  m / 2 ^ n * 2 ^ n ≤ m < (m / 2 ^ n + 1) * 2 ^ n.
Proof.
  intros Hm Hn. assert (0 < 2 ^ n) by (apply Z.pow_pos_nonneg; lia).
  pose proof (Z.div_mod m (2 ^ n) ltac:(lia)).
  pose proof (Z.mod_pos_bound m (2 ^ n) ltac:(lia)). nia.
Qed.

(** What [binary_round_aux] does to a mantissa of at least 53 bits in the
    normal range: the result is normal, [2^52 <= m3 < 2^53], its exponent
    is not below the one given, and its value is within two units of its
    last place of the value given. *)
Lemma binary_round_aux_normal m e l :
  2 ^ 52 ≤ m → -1074 ≤ e → Zdigits2 m + e ≤ 1023 → e ≤ 971 →
  ∃ m3 e3,
    binary_round_aux prec emax false m e l = S754_finite false m3 e3
    ∧ e ≤ e3 ≤ e + (Zdigits2 m - 52)
    ∧ 2 ^ 52 ≤ Z.pos m3 < 2 ^ 53
    ∧ Z.pos m3 * 2 ^ (e3 - e) ≤ m + 2 ^ (e3 - e)
    ∧ m < (Z.pos m3 + 2) * 2 ^ (e3 - e).
Proof.
  intros Hm He Hd He' .
  assert (Hm0 : 0 ≤ m) by lia.
  pose proof (binary_round_aux_finite m e l Hm0 Hd ltac:(lia)) as Hfin.
  pose proof (Zdigits2_ge m 52 ltac:(lia) Hm) as HD.
  pose proof (Zdigits2_gt m Hm0) as Hgt.
  pose proof (Zdigits2_lower m ltac:(lia)) as Hlow.
  unfold binary_round_aux in *.
  destruct (shr_fexp_spec m e l Hm0) as [He1 Hm1].
  destruct (shr_fexp prec emax m e l) as [mrs1 e1]; simpl in He1, Hm1.
  set (D := Zdigits2 m) in *.
  assert (He1' : e1 = D + e - 53).
  { rewrite He1. unfold fexp, emin, Float64.prec, Float64.emax. lia. }
  clear He1.
  assert (Hn1 : e1 - e = D - 53) by lia. rewrite Hn1 in Hm1.
  pose proof (div_pow2_enclose m (D - 53) Hm0 ltac:(lia)) as Henc1.
  rewrite <- Hm1 in Henc1.
  set (m1 := shr_m mrs1) in *.
  assert (Hm1r : 2 ^ 52 ≤ m1 < 2 ^ 53).
  { replace D with (D - 53 + 53) in Hgt by lia.
    replace (D - 1) with (D - 53 + 52) in Hlow by lia.
    rewrite Z.pow_add_r in Hgt, Hlow by lia.
    assert (0 < 2 ^ (D - 53)) by (apply Z.pow_pos_nonneg; lia).
    split; [|nia]. nia. }
  set (m2 := round_nearest_even m1 (loc_of_shr_record mrs1)) in *.
  pose proof (round_nearest_even_le m1 (loc_of_shr_record mrs1)) as Hle2.
  pose proof (round_nearest_even_ge m1 (loc_of_shr_record mrs1)) as Hge2.
  fold m2 in Hle2, Hge2.
  assert (Hm2 : 0 ≤ m2) by lia.
  destruct (shr_fexp_spec m2 e1 loc_Exact Hm2) as [He2 Hm3].
  destruct (shr_fexp prec emax m2 e1 loc_Exact) as [mrs2 e2];
    simpl in He2, Hm3.
  pose proof (Zdigits2_ge m2 52 ltac:(lia) ltac:(lia)) as HD2.
  assert (HD2' : Zdigits2 m2 ≤ 54)
    by (apply Zdigits2_le; [lia|lia|]; change (2 ^ 54) with (2 * 2 ^ 53); lia).
  assert (He2' : e2 = e1 + (Zdigits2 m2 - 53)).
  { rewrite He2. unfold fexp, emin, Float64.prec, Float64.emax. lia. }
  clear He2.
  replace (e2 - e1) with (Zdigits2 m2 - 53) in Hm3 by lia.
  pose proof (div_pow2_enclose m2 (Zdigits2 m2 - 53) Hm2 ltac:(lia)) as Henc2.
  rewrite <- Hm3 in Henc2.
  set (m3 := shr_m mrs2) in *.
  assert (Hm3r : 2 ^ 52 ≤ m3 < 2 ^ 53 ∧
                 m3 * 2 ^ (e2 - e) ≤ m + 2 ^ (e2 - e) ∧
                 m < (m3 + 2) * 2 ^ (e2 - e)).
  { replace (e2 - e) with ((Zdigits2 m2 - 53) + (D - 53)) by lia.
    rewrite Z.pow_add_r by lia.
    assert (0 < 2 ^ (D - 53)) by (apply Z.pow_pos_nonneg; lia).
    destruct (Z.eq_dec (Zdigits2 m2) 53) as [E|E].
    - rewrite E in *. change (2 ^ (53 - 53)) with 1 in *.
      pose proof (Zdigits2_gt m2 Hm2) as Hg2. rewrite E in Hg2.
      split; [lia|]. split; nia.
    - assert (E' : Zdigits2 m2 = 54) by lia. rewrite E' in *.
      change (2 ^ (54 - 53)) with 2 in *.
      pose proof (Zdigits2_lower m2 ltac:(lia)) as Hl2. rewrite E' in Hl2.
      change (2 ^ (54 - 1)) with (2 ^ 53) in Hl2.
      split; [lia|]. split; nia. }
  destruct Hm3r as (Hr3 & Hup & Hlo).
  destruct m3 as [|p3|p3] eqn:Ep3; [lia| |lia].
  exists p3, e2.
  destruct (e2 <=? emax - prec) eqn:Hov.
  - repeat split; try lia; done.
  - exfalso. by apply (Hfin false).
Qed.

Lemma iter_xO_value p k : Z.pos (Pos.iter xO p k) = Z.pos p * 2 ^ Z.pos k.
Proof.
  induction k as [|k IH] using Pos.peano_ind.
  - simpl. lia.
  - rewrite Pos.iter_succ, Pos2Z.inj_xO, IH, Pos2Z.inj_succ.
    rewrite Z.pow_succ_r by lia. lia.
Qed.

Lemma shl_align_value p e e' :
  (shl_align p e e').2 = Z.min e e'
  ∧ Z.pos (shl_align p e e').1 = Z.pos p * 2 ^ (e - (shl_align p e e').2).
Proof.
  unfold shl_align. destruct (e' - e) as [|d|d] eqn:Hd; simpl fst; simpl snd.
  - split; [lia|]. rewrite Z.sub_diag. simpl. lia.
  - split; [lia|]. rewrite Z.sub_diag. simpl. lia.
  - split; [lia|]. rewrite iter_xO_value. f_equal. f_equal. lia.
Qed.

(** The conversion of a positive integer below 2^1023: a normal float
    within two units of its last place of the integer. The integer is
    scaled by [2^k] so that all exponents are counted from [-k]. *)
Lemma of_int_normal v :
  0 < v < 2 ^ 1023 →
  ∃ mx ex k,
    Float64.of_int v = Some (S754_finite false mx ex)
    ∧ 2 ^ 52 ≤ Z.pos mx < 2 ^ 53
    ∧ 0 ≤ k ≤ 52 ∧ - k ≤ ex ≤ 971
    ∧ Z.pos mx * 2 ^ (ex + k) ≤ v * 2 ^ k + 2 ^ (ex + k)
    ∧ v * 2 ^ k < (Z.pos mx + 2) * 2 ^ (ex + k).
Proof.
  intros [Hv Hlt]. destruct v as [|p|p]; [lia| |lia].
  unfold Float64.of_int. simpl binary_normalize. unfold binary_round.
  set (d := Z.pos (digits2_pos p)).
  assert (Hd : 1 ≤ d ≤ 1023).
  { split; [subst d; lia|]. apply (Zdigits2_le (Z.pos p)); lia. }
  destruct (shl_align_value p 0 (fexp prec emax (d + 0))) as [He Hval].
  destruct (shl_align_spec p 0 (fexp prec emax (d + 0))) as [_ Hdig].
  destruct (shl_align p 0 _) as [mz ez]; simpl in He, Hval, Hdig.
  fold d in Hdig.
  assert (Hez : ez = Z.min 0 (d - 53)).
  { rewrite He. unfold fexp, emin, Float64.prec, Float64.emax. lia. }
  clear He.
  assert (Hmz : 2 ^ 52 ≤ Z.pos mz).
  { pose proof (Zdigits2_lower (Z.pos mz) ltac:(lia)) as Hl.
    change (Zdigits2 (Z.pos mz)) with (Z.pos (digits2_pos mz)) in Hl.
    eapply Z.le_trans; [|exact Hl]. apply Z.pow_le_mono_r; lia. }
  destruct (binary_round_aux_normal (Z.pos mz) ez loc_Exact Hmz)
    as (m3 & e3 & Heq & He3 & Hm3 & Hup & Hlo).
  { lia. }
  { change (Zdigits2 (Z.pos mz)) with (Z.pos (digits2_pos mz)). lia. }
  { lia. }
  exists m3, e3, (- ez). rewrite Heq.
  change (Zdigits2 (Z.pos mz)) with (Z.pos (digits2_pos mz)) in He3.
  replace (e3 + - ez) with (e3 - ez) by lia.
  replace (0 - ez) with (- ez) in Hval by lia.
  rewrite <- Hval.
  repeat split; try lia.
Qed.

Lemma Zdigits2_53 m : 2 ^ 52 ≤ m < 2 ^ 53 → Zdigits2 m = 53.
Proof.
  intros [Hl Hu].
  pose proof (Zdigits2_ge m 52 ltac:(lia) Hl).
  pose proof (Zdigits2_le m 53 ltac:(lia) ltac:(lia) Hu). lia.
Qed.

(** The quotient of a normal float by [1e18]: a normal float within two
    units of its last place of the quotient. [t] is the distance of its
    exponent from [ex - 60]. *)
Lemma div_1e18_normal mx ex :
  2 ^ 52 ≤ Z.pos mx < 2 ^ 53 → -52 ≤ ex ≤ 971 →
  ∃ mz ez,
    SFdiv prec emax (S754_finite false mx ex) Float64.lit_1e18
      = S754_finite false mz ez
    ∧ 2 ^ 52 ≤ Z.pos mz < 2 ^ 53
    ∧ ex - 60 ≤ ez ≤ ex - 58
    ∧ Z.pos mz * 2 ^ (ez - (ex - 60)) * 7812500000000000
        ≤ Z.pos mx * 2 ^ 53 + 2 ^ (ez - (ex - 60)) * 7812500000000000
    ∧ Z.pos mx * 2 ^ 53
        < (Z.pos mz + 2) * 2 ^ (ez - (ex - 60)) * 7812500000000000.
Proof.
  intros Hmx Hex. unfold Float64.lit_1e18, SFdiv, SFdiv_core_binary.
  rewrite (Zdigits2_53 (Z.pos mx) Hmx).
  change (Zdigits2 7812500000000000) with 53.
  assert (He' : Z.min (fexp prec emax (53 + ex - (53 + 7))) (ex - 7)
                = ex - 60).
  { unfold fexp, emin, Float64.prec, Float64.emax. lia. }
  rewrite He'. replace (ex - 7 - (ex - 60)) with 53 by lia.
  rewrite Z.shiftl_mul_pow2 by lia.
  set (a := Z.pos mx * 2 ^ 53). set (b := 7812500000000000).
  pose proof (Z.div_mod a b ltac:(subst b; lia)) as Hdm.
  pose proof (Z.mod_pos_bound a b ltac:(subst b; lia)) as Hmod.
  unfold Z.div, Z.modulo in Hdm, Hmod.
  destruct (Z.div_eucl a b) as [q r].
  assert (Hq : 2 ^ 52 ≤ q < 2 ^ 54).
  { subst a b. change (2 ^ 54) with (2 * 2 ^ 53).
    change (2 ^ 53) with 9007199254740992 in *.
    change (2 ^ 52) with 4503599627370496 in *. nia. }
  destruct (binary_round_aux_normal q (ex - 60)
              (new_location b r) ltac:(lia)) as (m3 & e3 & Heq & He3 & Hm3 & Hup & Hlo).
  { lia. }
  { pose proof (Zdigits2_le q 54 ltac:(lia) ltac:(lia) ltac:(lia)). lia. }
  { lia. }
  exists m3, e3. simpl xorb. rewrite Heq.
  pose proof (Zdigits2_le q 54 ltac:(lia) ltac:(lia) ltac:(lia)).
  assert (0 < 2 ^ (e3 - (ex - 60))) by (apply Z.pow_pos_nonneg; lia).
  repeat split; try lia; nia.
Qed.

Lemma abs_scale_down a n c B :
  0 < c → Z.abs (a * c - n * c) * B ≤ n * c → Z.abs (a - n) * B ≤ n.
Proof.
  intros Hc H. replace (a * c - n * c) with ((a - n) * c) in H by lia.
  rewrite Z.abs_mul, (Z.abs_eq c) in H by lia. nia.
Qed.

Lemma abs_scale_up a n c B :
  0 ≤ c → Z.abs (a - n) * B ≤ n → Z.abs (a * c - n * c) * B ≤ n * c.
Proof.
  intros Hc H. replace (a * c - n * c) with ((a - n) * c) by lia.
  rewrite Z.abs_mul, (Z.abs_eq c) by lia. nia.
Qed.

Lemma int_truediv_1e18_accurate v z :
  0 ≤ v < 2 ^ 1023 →
  Float64.int_truediv v Float64.lit_1e18 = Some z →
  Float64.within 49 z v (10 ^ 18) = true.
Proof.
  intros [Hv Hlt]. unfold Float64.int_truediv.
  destruct (Z.eq_dec v 0) as [->|Hne].
  { vm_compute. by intros [= <-]. }
  destruct (of_int_normal v ltac:(lia))
    as (mx & ex & k & -> & Hmx & Hk & Hex & B1 & B2).
  destruct (div_1e18_normal mx ex Hmx ltac:(lia))
    as (mz & ez & Hdiv & Hmz & Hez & C1 & C2).
  intros Hz.
  assert (z = S754_finite false mz ez) as ->.
  { rewrite <- Hdiv. simpl in Hz. injection Hz as <-. reflexivity. }
  clear Hz Hdiv.
  set (b := 7812500000000000) in *.
  set (t := ez - (ex - 60)) in *.
  assert (HU : 0 < 2 ^ (ex + k)) by (apply Z.pow_pos_nonneg; lia).
  assert (HT : 0 < 2 ^ t) by (apply Z.pow_pos_nonneg; subst t; lia).
  assert (HK : 0 < 2 ^ k) by (apply Z.pow_pos_nonneg; lia).
  set (U := 2 ^ (ex + k)) in *. set (T := 2 ^ t) in *.
  set (ZZ := Z.pos mz * T * b * U).
  set (VV := v * 2 ^ k * 2 ^ 53).
  assert (Hmain : Z.abs (ZZ - VV) * 2 ^ 49 ≤ VV).
  { set (XX := Z.pos mx * 2 ^ 53 * U).
    set (E1 := T * b * U). set (E2 := U * 2 ^ 53).
    assert (0 < E1) by (subst E1 b; nia).
    assert (ZZ ≤ XX + E1) by (subst ZZ XX E1; nia).
    assert (XX < ZZ + 2 * E1) by (subst ZZ XX E1; nia).
    assert (E1 * 2 ^ 52 ≤ ZZ) by (subst ZZ E1; nia).
    assert (XX ≤ VV + E2) by (subst XX VV E2; nia).
    assert (VV < XX + 2 * E2) by (subst XX VV E2; nia).
    assert (E2 * 2 ^ 52 ≤ XX) by (subst XX E2; nia).
    change (2 ^ 52) with 4503599627370496 in *.
    change (2 ^ 49) with 562949953421312 in *.
    clearbody ZZ VV XX E1 E2. lia. }
  unfold Float64.within.
  assert (Hg : 0 ≤ ez + 60 + k) by lia.
  assert (HZZ : ZZ = Z.pos mz * b * 2 ^ (ez + 60 + k)).
  { subst ZZ. replace (2 ^ (ez + 60 + k)) with (T * U); [ring|].
    subst T U t. rewrite <- Z.pow_add_r by lia. f_equal. lia. }
  assert (HVV : VV = v * 2 ^ (k + 53)).
  { subst VV. rewrite (Z.pow_add_r 2 k 53) by lia. ring. }
  assert (H18 : 10 ^ 18 = b * 2 ^ 7) by reflexivity.
  clearbody ZZ VV. clear B1 B2 C1 C2.
  destruct (0 <=? ez) eqn:Hsign.
  - apply Z.leb_le in Hsign. apply Z.leb_le.
    apply (abs_scale_down _ _ (2 ^ (k + 53))).
    { apply Z.pow_pos_nonneg; lia. }
    replace (Z.pos mz * 2 ^ ez * 10 ^ 18 * 2 ^ (k + 53)) with ZZ.
    2: { rewrite HZZ, H18.
         replace (ez + 60 + k) with (ez + (7 + (k + 53))) by lia.
         rewrite (Z.pow_add_r 2 ez) by lia.
         rewrite (Z.pow_add_r 2 7) by lia. ring. }
    rewrite <- HVV. exact Hmain.
  - apply Z.leb_gt in Hsign. apply Z.leb_le.
    destruct (Z.le_gt_cases 7 (ez + 60 + k)) as [Hbig|Hsmall].
    + apply (abs_scale_down _ _ (2 ^ (ez + 60 + k - 7))).
      { apply Z.pow_pos_nonneg; lia. }
      replace (Z.pos mz * 10 ^ 18 * 2 ^ (ez + 60 + k - 7)) with ZZ.
      2: { rewrite HZZ, H18.
           replace (ez + 60 + k) with (7 + (ez + 60 + k - 7)) at 1 by lia.
           rewrite (Z.pow_add_r 2 7) by lia. ring. }
      replace (v * 2 ^ (- ez) * 2 ^ (ez + 60 + k - 7)) with VV;
        [exact Hmain|].
      rewrite HVV, <- Z.mul_assoc, <- Z.pow_add_r by lia.
      f_equal. f_equal. lia.
    + replace (Z.pos mz * 10 ^ 18) with (ZZ * 2 ^ (7 - (ez + 60 + k))).
      2: { rewrite HZZ, H18, <- !Z.mul_assoc, <- Z.pow_add_r by lia.
           f_equal. f_equal. f_equal. lia. }
      replace (v * 2 ^ (- ez)) with (VV * 2 ^ (7 - (ez + 60 + k))).
      2: { rewrite HVV, <- Z.mul_assoc, <- Z.pow_add_r by lia.
           f_equal. f_equal. lia. }
      apply abs_scale_up; [|exact Hmain]. apply Z.pow_nonneg. lia.
Qed.

Lemma ge0_of_nonneg x : float_nonneg x = true → Float64.ge0 x = true.
Proof. destruct x as [[]|[]| |[] m e]; simpl; done. Qed.

End FloatSign.

(** ** The dictionary of a chunk *)

Section Dict.

Context {V : Type}.
Implicit Types (d : dict V) (k : Z) (v : V).

Lemma dict_get_set_eq k v d : dict_get k (dict_set k v d) = Some v.
Proof.
  induction d as [|[k' v'] d IH]; simpl.
  - by rewrite decide_True.
  - destruct (decide (k' = k)) as [->|Hne]; simpl.
    + by rewrite decide_True.
    + by rewrite decide_False.
Qed.

Lemma dict_get_set_ne k k' v d :
  k ≠ k' → dict_get k' (dict_set k v d) = dict_get k' d.
Proof.
  intros Hne. induction d as [|[k0 v0] d IH]; simpl.
  - by rewrite decide_False.
  - destruct (decide (k0 = k)) as [->|Hne0]; simpl.
    + by rewrite !decide_False.
    + destruct (decide (k0 = k')); [done | exact IH].
Qed.

End Dict.

Lemma dict_get_observe date_key transfer_data cm d :
  dict_get d (observe date_key transfer_data cm) =
    if decide (date_key = d)
    then Some (observed transfer_data (metrics_at d cm))
    else dict_get d cm.
Proof.
  unfold observe. destruct (decide (date_key = d)) as [->|Hne].
  - apply dict_get_set_eq.
  - by apply dict_get_set_ne.
Qed.

Lemma metrics_at_observe date_key transfer_data cm d :
  metrics_at d (observe date_key transfer_data cm) =
    if decide (date_key = d)
    then observed transfer_data (metrics_at d cm)
    else metrics_at d cm.
Proof.
  unfold metrics_at at 1. rewrite dict_get_observe.
  by destruct (decide (date_key = d)).
Qed.

(** ** What the decoder returns *)

Lemma fold_bytes_nonneg b : ∀ acc,
  0 ≤ acc →
  0 ≤ fold_left (λ acc x, acc * 256 + Z.of_N (Byte.to_N x)) b acc.
Proof.
  induction b as [|x b IH]; intros acc Hacc; simpl; [done|].
  apply IH. lia.
Qed.

Lemma int_of_bytes_nonneg b : 0 ≤ int_of_bytes b.
Proof. by apply fold_bytes_nonneg. Qed.

Lemma fold_bytes_bound b : ∀ acc,
  0 ≤ acc →
  fold_left (λ acc x, acc * 256 + Z.of_N (Byte.to_N x)) b acc
    < (acc + 1) * 256 ^ Z.of_nat (length b).
Proof.
  induction b as [|x b IH]; intros acc Hacc.
  - simpl. lia.
  - cbn [fold_left length]. rewrite Nat2Z.inj_succ, Z.pow_succ_r by lia.
    pose proof (Byte.to_N_bounded x) as Hx.
    eapply Z.lt_le_trans; [apply IH; lia|].
    assert (0 < 256 ^ Z.of_nat (length b)) by (apply Z.pow_pos_nonneg; lia).
    nia.
Qed.

Lemma int_of_bytes_bound b : int_of_bytes b < 256 ^ Z.of_nat (length b).
Proof.
  pose proof (fold_bytes_bound b 0 ltac:(lia)) as H.
  unfold int_of_bytes. lia.
Qed.

(** A payload of at most 127 bytes never overflows the conversion. *)
Lemma of_int_payload_is_Some b :
  (length b ≤ 127)%nat → is_Some (Float64.of_int (int_of_bytes b)).
Proof.
  intros Hlen. apply of_int_is_Some.
  split; [apply int_of_bytes_nonneg|].
  eapply Z.lt_le_trans; [apply int_of_bytes_bound|].
  change 256 with (2 ^ 8). rewrite <- Z.pow_mul_r by lia.
  apply Z.pow_le_mono_r; lia.
Qed.

Lemma of_int_nonneg v x :
  0 ≤ v → Float64.of_int v = Some x → float_nonneg x = true.
Proof.
  intros Hv. unfold Float64.of_int.
  pose proof (binary_normalize_nonneg v 0 Hv) as Hn.
  destruct (binary_normalize _ _ v 0 false) as [| | |];
    intros [= <-]; exact Hn.
Qed.

Lemma decode_value_nonneg event td :
  decode_transfer_event event = Some td → float_nonneg (value td) = true.
Proof.
  unfold decode_transfer_event. intros H.
  destruct (topics event !! 1%nat) as [t1|]; [simpl in H|done].
  destruct (to_checksum_address (hex_last40 t1)) as [a|]; [simpl in H|done].
  destruct (topics event !! 2%nat) as [t2|]; [simpl in H|done].
  destruct (to_checksum_address (hex_last40 t2)) as [b|]; [simpl in H|done].
  unfold int_of_hex in H.
  destruct (data event) as [|x xs] eqn:Hdata; [done|]. simpl in H.
  unfold Float64.int_truediv in H.
  destruct (Float64.of_int _) as [f|] eqn:Hf; [simpl in H|done].
  injection H as <-. simpl.
  apply (div_nonneg f 7812500000000000 7); [|reflexivity].
  eapply of_int_nonneg; [|exact Hf]. apply int_of_bytes_nonneg.
Qed.

(** ** The invariant of a day's metrics *)

Lemma volume_ok_ge0 a : volume_ok a → pynum_ge0 a = true.
Proof.
  destruct a as [n|x]; simpl.
  - intros. by apply Z.leb_le.
  - apply ge0_of_nonneg.
Qed.

Lemma default_metrics_ok : metrics_ok default_metrics.
Proof. split; simpl; [set_solver | lia]. Qed.

Lemma observed_ok td m :
  float_nonneg (value td) = true → metrics_ok m → metrics_ok (observed td m).
Proof.
  intros Hv [Hact Hvol]. split; simpl.
  - rewrite Hact. apply set_eq. intros x. rewrite !elem_of_union. tauto.
  - apply add_nonneg; [|exact Hv].
    destruct (volume m) as [n|x]; simpl in *; [|exact Hvol].
    by apply binary_normalize_nonneg.
Qed.

Lemma process_event_ok date_key event cm :
  (∀ d, metrics_ok (metrics_at d cm)) →
  ∀ d, metrics_ok (metrics_at d (process_event date_key event cm)).
Proof.
  intros Hcm d. unfold process_event.
  destruct (decode_transfer_event event) as [td|] eqn:Hdec; [|apply Hcm].
  rewrite metrics_at_observe. destruct (decide (date_key = d)); [|apply Hcm].
  apply observed_ok; [|apply Hcm]. by eapply decode_value_nonneg.
Qed.

Lemma fold_process_ok events : ∀ cm,
  (∀ d, metrics_ok (metrics_at d cm)) →
  ∀ d, metrics_ok
    (metrics_at d (fold_left (λ cm e, process_event e.1 e.2 cm) events cm)).
Proof.
  induction events as [|[k ev] events IH]; intros cm Hcm; simpl; [done|].
  apply IH. by apply process_event_ok.
Qed.

Lemma aggregate_ok events d : metrics_ok (metrics_at d (aggregate events)).
Proof.
  apply fold_process_ok. intros d'. apply default_metrics_ok.
Qed.

Lemma aggregate_snoc events date_key event :
  aggregate (events ++ [(date_key, event)]) =
    process_event date_key event (aggregate events).
Proof. unfold aggregate. by rewrite fold_left_app. Qed.

Lemma observed_grows td m :
  transactions m ≤ transactions (observed td m)
  ∧ (size (active_addresses m) ≤ size (active_addresses (observed td m)))%nat
  ∧ (size (senders m) ≤ size (senders (observed td m)))%nat
  ∧ (size (receivers m) ≤ size (receivers (observed td m)))%nat.
Proof.
  simpl. split; [lia|].
  repeat split; apply subseteq_size; set_solver.
Qed.

(** C9. Every observation keeps the invariant of the daily aggregates: at
    every point of the accumulation, for every date, the active addresses
    are the union of the senders and the receivers and the volume is
    [>= 0]; and one more event never lowers the transaction count or the
    size of any of the three address sets of any date. *)
Theorem daily_aggregate_invariant
    (events : list (Z * RawLog)) (date_key : Z) (event : RawLog) (d : Z) :
  let before := metrics_at d (aggregate events) in
  let after := metrics_at d (process_event date_key event (aggregate events)) in
  (active_addresses before = senders before ∪ receivers before
   ∧ pynum_ge0 (volume before) = true)
  ∧ (active_addresses after = senders after ∪ receivers after
     ∧ pynum_ge0 (volume after) = true)
  ∧ transactions before ≤ transactions after
  ∧ (size (active_addresses before) ≤ size (active_addresses after))%nat
  ∧ (size (senders before) ≤ size (senders after))%nat
  ∧ (size (receivers before) ≤ size (receivers after))%nat.
Proof.
  intros before after.
  destruct (aggregate_ok events d) as [Hact Hvol].
  destruct (aggregate_ok (events ++ [(date_key, event)]) d) as [Hact' Hvol'].
  rewrite aggregate_snoc in Hact', Hvol'.
  split; [split; [exact Hact | by apply volume_ok_ge0]|].
  split; [split; [exact Hact' | by apply volume_ok_ge0]|].
  subst before after. unfold process_event.
  destruct (decode_transfer_event event) as [td|]; [|done].
  rewrite metrics_at_observe. destruct (decide (date_key = d)); [|done].
  apply observed_grows.
Qed.

(** ** Order of the observations *)

Lemma same_counters_at cm1 cm2 d :
  same_counters cm1 cm2 →
  counters (metrics_at d cm1) = counters (metrics_at d cm2).
Proof.
  intros H. specialize (H d). unfold metrics_at.
  destruct (dict_get d cm1), (dict_get d cm2); simpl in *; congruence.
Qed.

Lemma counters_observed td m1 m2 :
  counters m1 = counters m2 →
  counters (observed td m1) = counters (observed td m2).
Proof. unfold counters. simpl. intros [= -> -> -> ->]. reflexivity. Qed.

Lemma observe_same_counters k td cm1 cm2 :
  same_counters cm1 cm2 →
  same_counters (observe k td cm1) (observe k td cm2).
Proof.
  intros H d. rewrite !dict_get_observe.
  destruct (decide (k = d)); [|apply H].
  simpl. f_equal. apply counters_observed. by apply same_counters_at.
Qed.

Lemma counters_observed_swap t1 t2 m :
  counters (observed t1 (observed t2 m)) =
  counters (observed t2 (observed t1 m)).
Proof.
  unfold counters. simpl. rewrite !pair_equal_spec.
  repeat split;
    first [lia | apply set_eq; intros x; rewrite !elem_of_union; tauto].
Qed.

Lemma observe_swap k1 t1 k2 t2 cm1 cm2 :
  same_counters cm1 cm2 →
  same_counters (observe k1 t1 (observe k2 t2 cm1))
                (observe k2 t2 (observe k1 t1 cm2)).
Proof.
  intros H d. rewrite !dict_get_observe, !metrics_at_observe.
  pose proof (same_counters_at _ _ d H) as Hd.
  destruct (decide (k1 = d)) as [->|H1], (decide (k2 = d)) as [->|H2];
    simpl.
  - f_equal. rewrite counters_observed_swap.
    by do 2 apply counters_observed.
  - f_equal. by apply counters_observed.
  - f_equal. by apply counters_observed.
  - apply H.
Qed.

Lemma fold_observe_same_counters events1 events2 :
  events1 ≡ₚ events2 → ∀ cm1 cm2,
  same_counters cm1 cm2 →
  same_counters (fold_left (λ cm e, observe e.1 e.2 cm) events1 cm1)
                (fold_left (λ cm e, observe e.1 e.2 cm) events2 cm2).
Proof.
  induction 1 as [|[k t] l1 l2 _ IH|[k1 t1] [k2 t2] l|l1 l2 l3 _ IH1 _ IH2];
    intros cm1 cm2 H; simpl.
  - exact H.
  - apply IH. by apply observe_same_counters.
  - revert H. generalize cm1 cm2. induction l as [|[k t] l IHl];
      intros c1 c2 H; simpl.
    + by apply observe_swap.
    + simpl in IHl.
      assert (Hrefl : ∀ l c1 c2, same_counters c1 c2 →
        same_counters (fold_left (λ cm e, observe e.1 e.2 cm) l c1)
                      (fold_left (λ cm e, observe e.1 e.2 cm) l c2)).
      { clear. induction l as [|[k t] l IH]; intros c1 c2 H; simpl; [done|].
        apply IH. by apply observe_same_counters. }
      apply Hrefl. apply observe_same_counters. by apply observe_swap.
  - intros d. rewrite (IH1 cm1 cm1) by (intros ?; reflexivity).
    by apply IH2.
Qed.

(** C5, as amended. Feeding the same transfers to a fresh aggregator in any
    order gives, for every date, the same transaction count and the same
    sets of senders, receivers and active addresses (and the same dates).
    The volume is left out: it is a running sum of floats. *)
Theorem observe_order_independent_counters
    (events1 events2 : list (Z * TransferEvent)) (d : Z) :
  events1 ≡ₚ events2 →
  counters <$> dict_get d (observe_all events1) =
  counters <$> dict_get d (observe_all events2).
Proof.
  intros Hperm. apply (fold_observe_same_counters _ _ Hperm).
  intros ?; reflexivity.
Qed.

Lemma observe_order_independent_counters_witness :
  large_transfer_first ≡ₚ large_transfer_last
  ∧ counters <$> dict_get 0 (observe_all large_transfer_first) =
    counters <$> dict_get 0 (observe_all large_transfer_last).
Proof.
  assert (H : large_transfer_first ≡ₚ large_transfer_last).
  { vm_compute. apply (Permutation_cons_append [_; _]). }
  split; [exact H|].
  apply (observe_order_independent_counters _ _ 0 H).
Defined.

(** C5 as stated fails: the same three transfers of one day, fed in two
    orders, end with different volumes (2^53 and 2^53 + 2). *)
Lemma observe_volume_order_dependent :
  large_transfer_first ≡ₚ large_transfer_last
  ∧ volume (metrics_at 0 (observe_all large_transfer_first)) =
      PFloat (S754_finite false 4503599627370496 1)
  ∧ volume (metrics_at 0 (observe_all large_transfer_last)) =
      PFloat (S754_finite false 4503599627370497 1)
  ∧ metrics_at 0 (observe_all large_transfer_first) ≠
    metrics_at 0 (observe_all large_transfer_last).
Proof.
  assert (H1 : volume (metrics_at 0 (observe_all large_transfer_first)) =
      PFloat (S754_finite false 4503599627370496 1)) by (vm_compute; done).
  assert (H2 : volume (metrics_at 0 (observe_all large_transfer_last)) =
      PFloat (S754_finite false 4503599627370497 1)) by (vm_compute; done).
  split; [|split; [exact H1|split; [exact H2|]]].
  - vm_compute. apply (Permutation_cons_append [_; _]).
  - intros Heq. rewrite Heq, H2 in H1. discriminate H1.
Qed.

(** ** The decoder *)

Lemma to_checksum_address_Some s :
  is_Some (to_checksum_address s) ↔ length s = 20%nat.
Proof.
  unfold to_checksum_address. destruct (decide (length s = 20%nat)).
  - split; [done | by eexists].
  - split; [intros [a Ha]; done | done].
Qed.

Lemma hex_last40_length t :
  length (hex_last40 t) = 20%nat ↔ (20 ≤ length t)%nat.
Proof. unfold hex_last40. rewrite length_drop. lia. Qed.

Lemma address_of_topic_Some t :
  is_Some (to_checksum_address (hex_last40 t)) ↔ (20 ≤ length t)%nat.
Proof. by rewrite to_checksum_address_Some, hex_last40_length. Qed.

Lemma int_of_hex_Some b : is_Some (int_of_hex b) ↔ b ≠ [].
Proof.
  destruct b; simpl; split; done.
Qed.

Lemma int_truediv_1e18_Some v :
  is_Some (Float64.int_truediv v Float64.lit_1e18) ↔
  is_Some (Float64.of_int v).
Proof.
  unfold Float64.int_truediv.
  destruct (Float64.of_int v) as [x|]; simpl; split; done.
Qed.

(** C6, as amended. The decoder returns a transfer exactly when the log has
    at least three topics, topics 1 and 2 have at least 20 bytes each, the
    payload is not empty and its integer converts to a float without
    overflow, which every payload of at most 127 bytes does; in every other
    case it returns [None], and the scan loop then leaves the metrics of
    the chunk as they are and goes on. *)
Theorem decode_succeeds_iff (event_log : RawLog) :
  (is_Some (decode_transfer_event event_log) ↔
     (3 ≤ length (topics event_log))%nat
     ∧ (∀ i t, i = 1%nat ∨ i = 2%nat →
          topics event_log !! i = Some t → (20 ≤ length t)%nat)
     ∧ data event_log ≠ []
     ∧ is_Some (Float64.of_int (int_of_bytes (data event_log))))
  ∧ ((length (data event_log) ≤ 127)%nat →
     is_Some (Float64.of_int (int_of_bytes (data event_log))))
  ∧ (decode_transfer_event event_log = None →
     ∀ date_key chunk_metrics,
       process_event date_key event_log chunk_metrics = chunk_metrics).
Proof.
  split; [|split].
  2: { apply of_int_payload_is_Some. }
  2: { intros Hnone date_key cm. unfold process_event. by rewrite Hnone. }
  unfold decode_transfer_event.
  destruct (topics event_log) as [|t0 [|t1 [|t2 ts]]] eqn:Htopics; simpl.
  1-3: split; [|intros [Hlen _]; lia].
  1-3: intros [x Hx]; try done; by destruct (to_checksum_address _).
  pose proof (address_of_topic_Some t1) as H1.
  pose proof (address_of_topic_Some t2) as H2.
  pose proof (int_of_hex_Some (data event_log)) as H3.
  pose proof (int_truediv_1e18_Some (int_of_bytes (data event_log))) as H4.
  destruct (to_checksum_address (hex_last40 t1)) as [a|]; simpl.
  2: { split; [intros [x Hx]; done|]. intros (_ & Ht & _).
       specialize (Ht 1%nat t1 (or_introl eq_refl) eq_refl).
       apply H1 in Ht. by destruct Ht. }
  destruct (to_checksum_address (hex_last40 t2)) as [b|]; simpl.
  2: { split; [intros [x Hx]; done|]. intros (_ & Ht & _).
       specialize (Ht 2%nat t2 (or_intror eq_refl) eq_refl).
       apply H2 in Ht. by destruct Ht. }
  unfold int_of_hex in *.
  destruct (data event_log) as [|x xs] eqn:Hdata; simpl.
  { split; [intros [y Hy]; done | intros (_ & _ & Hne & _); done]. }
  destruct (Float64.int_truediv _ _) as [amount|]; simpl.
  - split; [|intros _; by eexists]. intros _.
    split; [lia|]. split.
    + intros i t [->| ->] [= <-].
      * apply H1. by eexists.
      * apply H2. by eexists.
    + split; [done|]. apply H4. by eexists.
  - split; [intros [y Hy]; done|]. intros (_ & _ & _ & Hf).
    apply H4 in Hf. by destruct Hf.
Qed.

(** C6 as stated fails: a log with four topics decodes. *)
Lemma decode_four_topics :
  length (topics four_topic_log) = 4%nat
  ∧ is_Some (decode_transfer_event four_topic_log).
Proof. split; [reflexivity|]. vm_compute. by eexists. Qed.

Lemma whole_tokens_exact_2362 : whole_tokens_exact 2362 = true.
Proof. vm_compute. reflexivity. Qed.

Lemma whole_tokens_exact_at n k x :
  whole_tokens_exact n = true →
  0 ≤ k < n →
  Float64.int_truediv (k * 10 ^ 18) Float64.lit_1e18 = Some x →
  Float64.is_ratio x (k * 10 ^ 18) (10 ^ 18) = true.
Proof.
  intros Hall Hk Hq. unfold whole_tokens_exact in Hall.
  rewrite forallb_forall in Hall. specialize (Hall k).
  rewrite Hq in Hall. apply Hall.
  apply list_elem_of_In, elem_of_seqZ. lia.
Qed.

(** Whole numbers of tokens are not the only amounts that decode without
    error: half a token does too. *)
Lemma half_token_exact :
  match Float64.int_truediv (5 * 10 ^ 17) Float64.lit_1e18 with
  | Some x => Float64.is_ratio x (5 * 10 ^ 17) (10 ^ 18)
  | None => false
  end = true.
Proof. vm_compute. reflexivity. Qed.

Lemma decode_amount event td :
  decode_transfer_event event = Some td →
  Float64.int_truediv (int_of_bytes (data event)) Float64.lit_1e18 =
    Some (value td).
Proof.
  unfold decode_transfer_event. intros H.
  destruct (topics event !! 1%nat) as [t1|]; [simpl in H|done].
  destruct (to_checksum_address (hex_last40 t1)) as [a|]; [simpl in H|done].
  destruct (topics event !! 2%nat) as [t2|]; [simpl in H|done].
  destruct (to_checksum_address (hex_last40 t2)) as [b|]; [simpl in H|done].
  unfold int_of_hex in H.
  destruct (data event) as [|x xs] eqn:Hdata; [done|].
  change (Some (int_of_bytes (x :: xs)) ≫= _)
    with ((λ v, Float64.int_truediv v Float64.lit_1e18 ≫=
            (λ amount, Some (mkTransferEvent a b amount)))
          (int_of_bytes (x :: xs))) in H.
  cbv beta in H.
  destruct (Float64.int_truediv _ _) as [amount|]; [|done].
  simpl in H. by injection H as <-.
Qed.

(** C2, as amended. The decoded amount is the float quotient of the
    payload integer, converted to a float, by the float [1e18]. It is a
    non-negative float; for a payload of at most 127 bytes it is the
    integer divided by 10^18 up to a relative error of 2^-49; and it is
    that quotient itself, with no rounding error, whenever the integer is
    a whole number of tokens up to 2361. That condition is sufficient, not
    necessary: other amounts decode without error too. *)
Theorem decode_amount_is_float_quotient
    (event_log : RawLog) (transfer_data : TransferEvent) (k : Z) :
  decode_transfer_event event_log = Some transfer_data →
  Float64.int_truediv (int_of_bytes (data event_log)) Float64.lit_1e18 =
    Some (value transfer_data)
  ∧ float_nonneg (value transfer_data) = true
  ∧ ((length (data event_log) ≤ 127)%nat →
     Float64.within 49 (value transfer_data)
       (int_of_bytes (data event_log)) (10 ^ 18) = true)
  ∧ (0 ≤ k ≤ 2361 → int_of_bytes (data event_log) = k * 10 ^ 18 →
     Float64.is_ratio (value transfer_data) (k * 10 ^ 18) (10 ^ 18) = true).
Proof.
  intros Hdec. pose proof (decode_amount _ _ Hdec) as Hq.
  split; [exact Hq|]. split; [by eapply decode_value_nonneg|]. split.
  - intros Hlen. apply int_truediv_1e18_accurate; [|exact Hq].
    split; [apply int_of_bytes_nonneg|].
    eapply Z.lt_le_trans; [apply int_of_bytes_bound|].
    change 256 with (2 ^ 8). rewrite <- Z.pow_mul_r by lia.
    apply Z.pow_le_mono_r; lia.
  - intros Hk Hv. rewrite Hv in Hq.
    apply (whole_tokens_exact_at 2362); [|lia|exact Hq].
    exact whole_tokens_exact_2362.
Qed.

(** C2 as stated fails: 123456789 tokens and one base unit decode to the
    float 123456789.0, which is not the exact quotient. *)
Lemma decode_amount_inexact :
  int_of_hex (data odd_amount_log) = Some (123456789 * 10 ^ 18 + 1)
  ∧ value <$> decode_transfer_event odd_amount_log =
      Some (S754_finite false 8285044862877696 (-26))
  ∧ Float64.is_ratio (S754_finite false 8285044862877696 (-26))
      (123456789 * 10 ^ 18 + 1) (10 ^ 18) = false
  ∧ Float64.is_ratio (S754_finite false 8285044862877696 (-26))
      123456789 1 = true.
Proof. repeat split; vm_compute; reflexivity. Qed.

(** ** One attempt at a chunk *)

Lemma bind_run {A B} (m : M A) (f : A → M B) (w : World) :
  (m ≫= f) w =
    match m w with
    | (Ok a, w') => f a w'
    | (Raised, w') => (Raised, w')
    | (OutOfFuel, w') => (OutOfFuel, w')
    end.
Proof. reflexivity. Qed.

Section Attempt.

Variable node : Node.
Variable fromtimestamp : Z → option datetime.

(** One pass of the body of the [try] sends one request and gives a date
    and time or raises. *)
Lemma block_datetime_run n w :
  (∃ d, block_datetime node fromtimestamp n w =
          (Ok d, emit (EGetBlock n) (next_call w)))
  ∨ block_datetime node fromtimestamp n w =
      (Raised, emit (EGetBlock n) (next_call w)).
Proof.
  unfold block_datetime. rewrite bind_run. unfold rpc_get_block, raise_none.
  destruct (get_block node (rpc_calls w) n) as [t|]; simpl; [|by right].
  destruct (fromtimestamp t) as [d|]; simpl; [left; by exists d | by right].
Qed.

(** A lookup of the date and time of a block sends one to three requests
    and touches no file. *)
Lemma get_block_timestamp_run n w :
  ∃ r w' evs,
    get_block_timestamp node fromtimestamp n w = (r, w')
    ∧ quiet w w' evs
    ∧ Forall (λ e, neutral e = true) evs
    ∧ r ≠ OutOfFuel
    ∧ (rpc_calls w + 1 ≤ rpc_calls w' ≤ rpc_calls w + 3)%nat.
Proof.
  unfold get_block_timestamp, try_except.
  destruct (block_datetime_run n w) as [[d ->]| ->].
  { eexists _, _, [EGetBlock n]. split; [reflexivity|].
    repeat split; simpl; try lia; by repeat constructor. }
  rewrite bind_run. unfold sleep at 1.
  set (w1 := emit (ESleep 1000) _).
  destruct (block_datetime_run n w1) as [[d ->]| ->].
  { eexists _, _, [EGetBlock n; ESleep 1000; EGetBlock n].
    split; [reflexivity|].
    repeat split; simpl; try lia; try trace_eq; by repeat constructor. }
  rewrite bind_run. unfold sleep at 1.
  set (w2 := emit (ESleep 1000) _).
  destruct (block_datetime_run n w2) as [[d ->]| ->];
    (eexists _, _,
       [EGetBlock n; ESleep 1000; EGetBlock n; ESleep 1000; EGetBlock n];
     split; [reflexivity|];
     repeat split; simpl; try lia; try trace_eq; by repeat constructor).
Qed.

Lemma get_block_timestamp_quiet n w :
  ∃ evs, quiet w (get_block_timestamp node fromtimestamp n w).2 evs
    ∧ Forall (λ e, neutral e = true) evs
    ∧ (get_block_timestamp node fromtimestamp n w).1 ≠ OutOfFuel.
Proof.
  destruct (get_block_timestamp_run n w)
    as (r & w' & evs & -> & Hq & Hn & Hr & _).
  by exists evs.
Qed.

Lemma for_events_spec events : ∀ cm w,
  ∃ evs, quiet w (for_events node fromtimestamp events cm w).2 evs
    ∧ Forall (λ e, neutral e = true) evs
    ∧ match (for_events node fromtimestamp events cm w).1 with
      | Ok cm' =>
          ∃ dates, length dates = length events
            ∧ cm' = fold_left (λ cm e, process_event e.1 e.2 cm)
                      (zip dates events) cm
      | Raised => True
      | OutOfFuel => False
      end.
Proof.
  induction events as [|event events IH]; intros cm w; simpl.
  { exists []. unfold quiet. rewrite app_nil_r.
    repeat split; auto. by exists []. }
  unfold mbind, M_bind.
  destruct (get_block_timestamp_quiet (blockNumber event) w)
    as (evs1 & (Hc1 & Hp1 & Ht1) & Hn1 & Hf1).
  destruct (get_block_timestamp node fromtimestamp (blockNumber event) w)
    as [[t| |] w1]; simpl in *.
  - destruct (IH (process_event (date t) event cm) w1)
      as (evs2 & (Hc2 & Hp2 & Ht2) & Hn2 & Hr2).
    exists (evs1 ++ evs2). split; [|split].
    + unfold quiet. rewrite Hc2, Hp2, Ht2, Hc1, Hp1, Ht1.
      repeat split. trace_eq.
    + by apply Forall_app.
    + destruct (for_events _ _ _ _ w1).1 as [cm'| |]; [|done|done].
      destruct Hr2 as (dates & Hlen & ->).
      exists (date t :: dates). simpl. by rewrite Hlen.
  - exists evs1. by repeat split.
  - done.
Qed.

Lemma try_chunk_spec current_block chunk_end end_block w :
  let r := try_chunk node fromtimestamp current_block chunk_end end_block w in
  ∃ evs, Forall (λ e, neutral e = true) evs ∧
    match r.1 with
    | Raised => quiet w r.2 (EGetLogs current_block chunk_end :: evs)
    | Ok _ =>
        ∃ events dates,
          get_logs node (rpc_calls w) current_block chunk_end = Some events
          ∧ length dates = length events
          ∧ let cm := aggregate (zip dates events) in
            let p := {| start_block := current_block;
                        end_block := end_block;
                        last_processed := chunk_end |} in
            csv_file r.2 =
              match cm with
              | [] => csv_file w
              | _ => csv_append (csv_row <$> cm) (csv_file w)
              end
            ∧ progress_file r.2 = Some p
            ∧ trace r.2 =
                trace w ++ EGetLogs current_block chunk_end :: evs
                  ++ [EAppendCsv (csv_row <$> cm); EWriteProgress p;
                      ESleep 500]
    | OutOfFuel => False
    end.
Proof.
  cbv zeta. unfold try_chunk. rewrite bind_run. unfold rpc_get_logs.
  destruct (get_logs node (rpc_calls w) current_block chunk_end)
    as [events|] eqn:Hlogs; simpl.
  2: { exists []. split; [constructor|]. by repeat split. }
  set (w0 := emit _ (next_call w)).
  destruct (for_events_spec events [] w0)
    as (evs & (Hc & Hp & Ht) & Hn & Hr).
  exists evs. split; [exact Hn|].
  rewrite bind_run.
  destruct (for_events node fromtimestamp events [] w0) as [[cm| |] w1];
    simpl in *; [| |done].
  2: { unfold quiet. rewrite Hc, Hp, Ht. subst w0. simpl.
       repeat split. trace_eq. }
  destruct Hr as (dates & Hlen & ->).
  fold (aggregate (zip dates events)).
  rewrite !bind_run. unfold append_chunk_data, write_progress, sleep.
  destruct (aggregate (zip dates events)) as [|item cm] eqn:Hagg; simpl.
  - exists events, dates. rewrite Hagg, Hc, Ht. subst w0. simpl.
    repeat split; try done. trace_eq.
  - exists events, dates. rewrite Hagg, Hc, Ht. subst w0. simpl.
    repeat split; try done. trace_eq.
Qed.

End Attempt.

(** C10. An attempt at a chunk that raises leaves the CSV file and the
    progress file exactly as they were: all it did was to ask the node for
    logs and timestamps. An attempt that succeeds appends the rows of an
    aggregate built from nothing but the logs this very attempt fetched, so
    what an earlier failed attempt had processed is counted once. *)
Theorem failed_attempt_leaves_files
    (node : Node) (fromtimestamp : Z → option datetime)
    (current_block chunk_end end_block : Z) (w : World) :
  let r := try_chunk node fromtimestamp current_block chunk_end end_block w in
  match r.1 with
  | Raised =>
      csv_file r.2 = csv_file w
      ∧ progress_file r.2 = progress_file w
      ∧ ∃ evs, trace r.2 = trace w ++ EGetLogs current_block chunk_end :: evs
          ∧ Forall (λ e, neutral e = true) evs
  | Ok _ =>
      ∃ events dates,
        get_logs node (rpc_calls w) current_block chunk_end = Some events
        ∧ length dates = length events
        ∧ csv_file r.2 =
            match aggregate (zip dates events) with
            | [] => csv_file w
            | cm => csv_append (csv_row <$> cm) (csv_file w)
            end
        ∧ progress_file r.2 =
            Some {| start_block := current_block;
                    end_block := end_block;
                    last_processed := chunk_end |}
  | OutOfFuel => False
  end.
Proof.
  intros r. subst r.
  destruct (try_chunk_spec node fromtimestamp current_block chunk_end
              end_block w) as (evs & Hn & H).
  destruct (try_chunk _ _ _ _ _ w).1 as [[]| |]; [| |done].
  - destruct H as (events & dates & Hlogs & Hlen & Hcsv & Hprog & _).
    exists events, dates. repeat split; try done.
    rewrite Hcsv. by destruct (aggregate _).
  - destruct H as (Hc & Hp & Ht). repeat split; try done. by exists evs.
Qed.

(** ** The order of the events of a run *)








Section Ordering.

Variable node : Node.
Variable fromtimestamp : Z → option datetime.


Lemma bisect_quiet fuel : ∀ target left right w,
  ∃ evs, quiet w (bisect node fuel target left right w).2 evs
    ∧ Forall (λ e, is_lookup e = true) evs.
Proof.
  induction fuel as [|fuel IH]; intros target left right w; simpl.
  { destruct (left <=? right).
    - exists []. unfold quiet. rewrite app_nil_r. repeat split; constructor.
    - rewrite bind_run. unfold rpc_block_number.
      exists [EBlockNumber].
      destruct (block_number node (rpc_calls w)); simpl;
        repeat split; by repeat constructor. }
  destruct (left <=? right); simpl.
  2: { rewrite bind_run. unfold rpc_block_number.
       exists [EBlockNumber].
       destruct (block_number node (rpc_calls w)); simpl;
         repeat split; by repeat constructor. }
  unfold try_except, rpc_get_block.
  set (w0 := emit _ (next_call w)).
  destruct (get_block node (rpc_calls w) ((left + right) / 2)) as [t|];
    simpl.
  2: { exists [EGetBlock ((left + right) / 2)].
       repeat split; by repeat constructor. }
  destruct (t =? target).
  { exists [EGetBlock ((left + right) / 2)].
    repeat split; by repeat constructor. }
  destruct (t <? target).
  - destruct (IH target ((left + right) / 2 + 1) right w0)
      as (evs & (Hc & Hp & Ht) & Hn).
    exists (EGetBlock ((left + right) / 2) :: evs).
    unfold quiet. rewrite Hc, Hp, Ht. subst w0. simpl.
    repeat split; [trace_eq | by constructor].
  - destruct (IH target left ((left + right) / 2 - 1) w0)
      as (evs & (Hc & Hp & Ht) & Hn).
    exists (EGetBlock ((left + right) / 2) :: evs).
    unfold quiet. rewrite Hc, Hp, Ht. subst w0. simpl.
    repeat split; [trace_eq | by constructor].
Qed.

(** A search asks for the height and for blocks, and touches no file. *)
Lemma find_block_by_timestamp_quiet target w :
  ∃ evs, quiet w (find_block_by_timestamp node target w).2 evs
    ∧ Forall (λ e, is_lookup e = true) evs.
Proof.
  unfold find_block_by_timestamp. rewrite bind_run.
  unfold rpc_block_number at 1.
  destruct (block_number node (rpc_calls w)) as [height|]; simpl.
  2: { exists [EBlockNumber]. repeat split; by repeat constructor. }
  set (w0 := emit _ (next_call w)).
  destruct (bisect_quiet (Z.to_nat height) target 1 height w0)
    as (evs & (Hc & Hp & Ht) & Hn).
  exists (EBlockNumber :: evs).
  unfold quiet. rewrite Hc, Hp, Ht. subst w0. simpl.
  repeat split; [trace_eq | by constructor].
Qed.

End Ordering.


(** ** Backing off *)

Section Backoff.

Variable node : Node.
Variable fromtimestamp : Z → option datetime.


End Backoff.

(** What [get_token_metrics] hands to its caller is the content of the CSV
    file, or [None]: nothing tells how the loop ended. *)
Lemma get_token_metrics_result
    (node : Node) (fromtimestamp : Z → option datetime)
    (start_timestamp end_timestamp chunk_size : Z) (w : World) r :
  get_token_metrics node fromtimestamp
    start_timestamp end_timestamp chunk_size w = r →
  ∀ frame, r.1 = Ok frame → frame = None ∨ frame = csv_file r.2.
Proof.
  unfold get_token_metrics. rewrite bind_run.
  destruct (find_block_by_timestamp node start_timestamp w)
    as [[current_block| |] w1]; try (intros <- frame; discriminate).
  rewrite bind_run.
  destruct (find_block_by_timestamp node end_timestamp w1)
    as [[end_block| |] w2]; try (intros <- frame; discriminate).
  destruct (falsy current_block || falsy end_block).
  { intros <- frame [= <-]. by left. }
  rewrite bind_run. unfold write_progress at 1. rewrite bind_run.
  destruct (scan_loop _ _ _ _ _ _ _) as [[exit| |] w4];
    try (intros <- frame; discriminate).
  intros <- frame [= <-]. by right.
Qed.




(** ** The progress file is write-only *)

Lemma oblivious_ret {A} (a : A) : oblivious (mret a).
Proof. by intros w1 w2 H. Qed.

Lemma oblivious_bind {A B} (m : M A) (f : A → M B) :
  oblivious m → (∀ a, oblivious (f a)) → oblivious (m ≫= f).
Proof.
  intros Hm Hf w1 w2 H. rewrite !bind_run.
  destruct (Hm w1 w2 H) as [Hr Hw].
  destruct (m w1) as [r1 w1'], (m w2) as [r2 w2']; simpl in *; subst r2.
  destruct r1 as [a| |]; [by apply Hf | done | done].
Qed.

Lemma oblivious_try_except {A B} (m : M A) (on_ok : A → M B) (on_exc : M B) :
  oblivious m → (∀ a, oblivious (on_ok a)) → oblivious on_exc →
  oblivious (try_except m on_ok on_exc).
Proof.
  intros Hm Hok Hexc w1 w2 H. unfold try_except.
  destruct (Hm w1 w2 H) as [Hr Hw].
  destruct (m w1) as [r1 w1'], (m w2) as [r2 w2']; simpl in *; subst r2.
  destruct r1 as [a| |]; [by apply Hok | by apply Hexc | done].
Qed.

Lemma oblivious_sleep ms : oblivious (sleep ms).
Proof.
  intros w1 w2 (Hc & Hf & Ht). unfold same_but_progress. simpl.
  by rewrite Hc, Hf, Ht.
Qed.

Lemma oblivious_write_progress p : oblivious (write_progress p).
Proof.
  intros w1 w2 (Hc & Hf & Ht). unfold same_but_progress. simpl.
  by rewrite Hc, Hf, Ht.
Qed.

Lemma oblivious_read_csv : oblivious read_csv.
Proof. intros w1 w2 (Hc & Hf & Ht). simpl. by rewrite Hf. Qed.

Lemma oblivious_append_chunk_data cm : oblivious (append_chunk_data cm).
Proof.
  intros w1 w2 (Hc & Hf & Ht). unfold same_but_progress.
  destruct cm; simpl; by rewrite Hc, Hf, Ht.
Qed.

Section WriteOnly.

Variable node : Node.
Variable fromtimestamp : Z → option datetime.

Lemma oblivious_rpc_get_block n : oblivious (rpc_get_block node n).
Proof.
  intros w1 w2 (Hc & Hf & Ht). unfold same_but_progress. simpl.
  by rewrite Hc, Hf, Ht.
Qed.

Lemma oblivious_rpc_get_logs a b : oblivious (rpc_get_logs node a b).
Proof.
  intros w1 w2 (Hc & Hf & Ht). unfold same_but_progress. simpl.
  by rewrite Hc, Hf, Ht.
Qed.

Lemma oblivious_rpc_block_number : oblivious (rpc_block_number node).
Proof.
  intros w1 w2 (Hc & Hf & Ht). unfold same_but_progress. simpl.
  by rewrite Hc, Hf, Ht.
Qed.

Lemma oblivious_raise_none {A} (o : option A) : oblivious (raise_none o).
Proof. by intros w1 w2 H. Qed.

Lemma oblivious_block_datetime n :
  oblivious (block_datetime node fromtimestamp n).
Proof.
  unfold block_datetime.
  apply oblivious_bind; [apply oblivious_rpc_get_block|].
  intros t. apply oblivious_raise_none.
Qed.

Lemma oblivious_get_block_timestamp n :
  oblivious (get_block_timestamp node fromtimestamp n).
Proof.
  unfold get_block_timestamp.
  apply oblivious_try_except;
    [apply oblivious_block_datetime | intros t; apply oblivious_ret |].
  apply oblivious_bind; [apply oblivious_sleep | intros _].
  apply oblivious_try_except;
    [apply oblivious_block_datetime | intros t; apply oblivious_ret |].
  apply oblivious_bind; [apply oblivious_sleep | intros _].
  apply oblivious_block_datetime.
Qed.

Lemma oblivious_for_events events : ∀ cm,
  oblivious (for_events node fromtimestamp events cm).
Proof.
  induction events as [|event events IH]; intros cm; simpl.
  - apply oblivious_ret.
  - apply oblivious_bind; [apply oblivious_get_block_timestamp|].
    intros t. apply IH.
Qed.

Lemma oblivious_try_chunk a b c :
  oblivious (try_chunk node fromtimestamp a b c).
Proof.
  unfold try_chunk.
  apply oblivious_bind; [apply oblivious_rpc_get_logs|]. intros events.
  apply oblivious_bind; [apply oblivious_for_events|]. intros cm.
  apply oblivious_bind; [apply oblivious_append_chunk_data|]. intros _.
  apply oblivious_bind; [apply oblivious_write_progress|]. intros _.
  apply oblivious_sleep.
Qed.

Lemma oblivious_scan_loop fuel : ∀ a b c,
  oblivious (scan_loop node fromtimestamp fuel a b c).
Proof.
  induction fuel as [|fuel IH]; intros a b c; simpl.
  - destruct (a <? b); [by intros w1 w2 H | apply oblivious_ret].
  - destruct (a <? b); [|apply oblivious_ret].
    apply oblivious_try_except; [apply oblivious_try_chunk|..].
    + intros _. apply IH.
    + destruct (c / 2 <? 100); [apply oblivious_ret|].
      apply oblivious_bind; [apply oblivious_sleep|]. intros _. apply IH.
Qed.

Lemma oblivious_bisect fuel : ∀ target left right,
  oblivious (bisect node fuel target left right).
Proof.
  assert (Hexit : ∀ left right,
            oblivious (rpc_block_number node ≫= λ height,
                         mret (Some (if left <=? height
                                     then left else right)))).
  { intros left right.
    apply oblivious_bind; [apply oblivious_rpc_block_number|].
    intros height. apply oblivious_ret. }
  induction fuel as [|fuel IH]; intros target left right; simpl.
  - destruct (left <=? right); [by intros w1 w2 H | apply Hexit].
  - destruct (left <=? right); [|apply Hexit].
    apply oblivious_try_except;
      [apply oblivious_rpc_get_block | | apply oblivious_ret].
    intros t. destruct (t =? target); [apply oblivious_ret|].
    destruct (t <? target); apply IH.
Qed.

Lemma oblivious_find_block_by_timestamp target :
  oblivious (find_block_by_timestamp node target).
Proof.
  unfold find_block_by_timestamp.
  apply oblivious_bind; [apply oblivious_rpc_block_number|].
  intros right. apply oblivious_bisect.
Qed.

Lemma oblivious_get_token_metrics s e c :
  oblivious (get_token_metrics node fromtimestamp s e c).
Proof.
  unfold get_token_metrics.
  apply oblivious_bind; [apply oblivious_find_block_by_timestamp|].
  intros current_block.
  apply oblivious_bind; [apply oblivious_find_block_by_timestamp|].
  intros end_block.
  destruct (falsy current_block || falsy end_block);
    [apply oblivious_ret|].
  apply oblivious_bind; [apply oblivious_write_progress|]. intros _.
  apply oblivious_bind; [apply oblivious_scan_loop|]. intros _.
  apply oblivious_read_csv.
Qed.

End WriteOnly.

(** C1, as amended. The scan has no resume: the progress file is written
    and never read. Whatever the progress file holds when the scan is
    invoked, the scan does what it does when there is no progress file:
    it sends the same requests to the node, beginning at the block found
    for the start date, appends the same rows and returns the same
    result. *)
Theorem saved_progress_is_ignored
    (node : Node) (fromtimestamp : Z → option datetime)
    (start_timestamp end_timestamp chunk_size : Z)
    (w : World) (saved : option Progress) :
  let resumed := get_token_metrics node fromtimestamp
                   start_timestamp end_timestamp chunk_size
                   (with_progress saved w) in
  let first := get_token_metrics node fromtimestamp
                 start_timestamp end_timestamp chunk_size
                 (with_progress None w) in
  resumed.1 = first.1
  ∧ trace resumed.2 = trace first.2
  ∧ csv_file resumed.2 = csv_file first.2.
Proof.
  intros resumed first.
  destruct (oblivious_get_token_metrics node fromtimestamp
              start_timestamp end_timestamp chunk_size
              (with_progress saved w) (with_progress None w))
    as (Hr & _ & Hf & Ht); [done|].
  by repeat split.
Qed.

(** C1 as stated fails: with a progress file that says that blocks up to 3
    of 1..5 were processed, the scan asks the node for blocks 1..5 again. *)
Lemma rescans_after_checkpoint :
  progress_file interrupted_world =
    Some {| start_block := 1; end_block := 5; last_processed := 3 |}
  ∧ fetches (trace (get_token_metrics scenario_node utc_fromtimestamp
                      100 500 1000 interrupted_world).2) = [(1, 5)].
Proof. split; vm_compute; reflexivity. Qed.

(** ** Two defects *)

(** C3 fails on the code. On a chain of 1002 blocks the scan of blocks
    1..1002 with the default chunk size 1000 fetches blocks 1..1001 and
    stops: the loop ends as soon as [current_block] reaches [end_block],
    so block 1002 and its transfer are never fetched, and no data is
    returned. *)
Theorem last_block_not_scanned :
  let r := get_token_metrics long_chain_node utc_fromtimestamp
             100 100200 1000 fresh_world in
  fetches (trace r.2) = [(1, 1001)]
  ∧ progress_file r.2 =
      Some {| start_block := 1; end_block := 1002; last_processed := 1001 |}
  ∧ r.1 = Ok None
  ∧ (scan_loop long_chain_node utc_fromtimestamp (scan_fuel 1 1002 1000)
       1 1002 1000 fresh_world).1 = Ok (Exhausted 1002 1000)
  ∧ get_logs long_chain_node 0 1002 1002
      = Some [transfer_log 1002 10 11 (10 ^ 18)].
Proof. repeat split; vm_compute; reflexivity. Qed.

(** C4 fails on the code. On the chain with timestamps 100, 200, 300 the
    search for timestamp 110 returns block 2 (timestamp 200), while block 1
    (timestamp 100) is the nearest. *)
Theorem locate_returns_later_block :
  (find_block_by_timestamp (reliable_node [100; 200; 300] []) 110
     fresh_world).1 = Ok (Some 2)
  ∧ nearest_block [100; 200; 300] 110 = 1.
Proof. split; vm_compute; reflexivity. Qed.

Lemma decode_amount_is_float_quotient_witness :
  decode_transfer_event (transfer_log 2 10 11 (10 ^ 18)) =
    Some {| from_address := be_bytes 20 10;
            to_address := be_bytes 20 11;
            value := S754_finite false 4503599627370496 (-52) |}
  ∧ (length (data (transfer_log 2 10 11 (10 ^ 18))) ≤ 127)%nat
  ∧ 0 ≤ 1 ≤ 2361
  ∧ int_of_bytes (data (transfer_log 2 10 11 (10 ^ 18))) = 1 * 10 ^ 18
  ∧ Float64.within 49 (S754_finite false 4503599627370496 (-52))
      (int_of_bytes (data (transfer_log 2 10 11 (10 ^ 18)))) (10 ^ 18)
      = true
  ∧ Float64.is_ratio (S754_finite false 4503599627370496 (-52))
      (1 * 10 ^ 18) (10 ^ 18) = true.
Proof.
  assert (Hdec : decode_transfer_event (transfer_log 2 10 11 (10 ^ 18)) =
    Some {| from_address := be_bytes 20 10;
            to_address := be_bytes 20 11;
            value := S754_finite false 4503599627370496 (-52) |})
    by (vm_compute; reflexivity).
  assert (Hlen : (length (data (transfer_log 2 10 11 (10 ^ 18))) ≤ 127)%nat)
    by (vm_compute; lia).
  assert (Hval : int_of_bytes (data (transfer_log 2 10 11 (10 ^ 18)))
                 = 1 * 10 ^ 18) by (vm_compute; reflexivity).
  destruct (decode_amount_is_float_quotient _ _ 1 Hdec)
    as (_ & _ & Hwithin & Hexact).
  split; [exact Hdec|]. split; [exact Hlen|]. split; [lia|].
  split; [exact Hval|]. split; [exact (Hwithin Hlen)|].
  apply Hexact; [lia | exact Hval].
Defined.

(** ** The loops end *)

Section Termination.

Variable node : Node.
Variable fromtimestamp : Z → option datetime.

Lemma midpoint_between left right :
  left ≤ right → left ≤ (left + right) / 2 ≤ right.
Proof.
  intros H. pose proof (Z.div_mod (left + right) 2 ltac:(lia)).
  pose proof (Z.mod_pos_bound (left + right) 2 ltac:(lia)). lia.
Qed.

(** The search returns, with [None] or a block, within as many steps as
    the interval is wide, unless a request for the height is refused. *)
Lemma bisect_returns fuel : ∀ target left right w,
  right - left + 1 ≤ Z.of_nat fuel →
  match (bisect node fuel target left right w).1 with
  | Ok _ => True
  | Raised => ∃ i, (rpc_calls w ≤ i)%nat ∧ block_number node i = None
  | OutOfFuel => False
  end.
Proof.
  assert (Hexit : ∀ left right w,
    match ((rpc_block_number node ≫= λ height,
              mret (Some (if left <=? height then left else right)))
             w).1 with
    | Ok _ => True
    | Raised => ∃ i, (rpc_calls w ≤ i)%nat ∧ block_number node i = None
    | OutOfFuel => False
    end).
  { intros left right w. rewrite bind_run. unfold rpc_block_number.
    destruct (block_number node (rpc_calls w)) eqn:Hh; simpl; [done|].
    by exists (rpc_calls w). }
  induction fuel as [|fuel IH]; intros target left right w Hfuel; simpl.
  { destruct (left <=? right) eqn:Hle; [|apply Hexit].
    apply Z.leb_le in Hle. lia. }
  destruct (left <=? right) eqn:Hle; [|apply Hexit].
  apply Z.leb_le in Hle. pose proof (midpoint_between _ _ Hle).
  unfold try_except, rpc_get_block.
  destruct (get_block node (rpc_calls w) ((left + right) / 2)) as [t|];
    simpl; [|done].
  destruct (t =? target); [done|].
  set (w0 := emit _ (next_call w)).
  assert (Himp : ∀ r : result (option Z),
            match r with
            | Ok _ => True
            | Raised =>
                ∃ i, (rpc_calls w0 ≤ i)%nat ∧ block_number node i = None
            | OutOfFuel => False
            end →
            match r with
            | Ok _ => True
            | Raised =>
                ∃ i, (rpc_calls w ≤ i)%nat ∧ block_number node i = None
            | OutOfFuel => False
            end).
  { intros [block| |]; try done. intros (i & Hi & Hnone).
    exists i. split; [subst w0; simpl in Hi; lia | done]. }
  destruct (t <? target); apply Himp, IH; lia.
Qed.

Lemma find_block_by_timestamp_returns target w :
  match (find_block_by_timestamp node target w).1 with
  | Ok _ => True
  | Raised => ∃ i, (rpc_calls w ≤ i)%nat ∧ block_number node i = None
  | OutOfFuel => False
  end.
Proof.
  unfold find_block_by_timestamp. rewrite bind_run.
  unfold rpc_block_number at 1.
  destruct (block_number node (rpc_calls w)) as [height|] eqn:Hh; simpl.
  2: { by exists (rpc_calls w). }
  set (w0 := emit _ (next_call w)).
  pose proof (bisect_returns (Z.to_nat height) target 1 height w0
                ltac:(lia)) as H.
  destruct (bisect node (Z.to_nat height) target 1 height w0).1
    as [block| |]; try done.
  destruct H as (i & Hi & Hnone).
  exists i. split; [subst w0; simpl in Hi; lia | done].
Qed.

(** The scan loop ends, by exhausting the range or by the [break], within
    [scan_fuel] iterations when the chunk size is not negative. *)
Lemma scan_loop_returns fuel : ∀ current_block end_block chunk_size w,
  0 ≤ chunk_size →
  Z.max 0 (end_block - current_block) + chunk_size ≤ Z.of_nat fuel →
  ∃ exit, (scan_loop node fromtimestamp fuel
             current_block end_block chunk_size w).1 = Ok exit.
Proof.
  induction fuel as [|fuel IH]; intros cb eb cs w Hcs Hfuel; simpl.
  { destruct (cb <? eb) eqn:Hlt; [|by eexists].
    apply Z.ltb_lt in Hlt. lia. }
  destruct (cb <? eb) eqn:Hlt; [|by eexists].
  apply Z.ltb_lt in Hlt. unfold try_except.
  destruct (try_chunk_spec node fromtimestamp cb ((cb + cs) `min` eb) eb w)
    as (evs & _ & H).
  destruct (try_chunk node fromtimestamp cb _ eb w) as [[[]| |] w1];
    simpl in H; [| |done].
  - apply IH; lia.
  - destruct (cs / 2 <? 100) eqn:Hsmall; [by eexists|].
    apply Z.ltb_ge in Hsmall. rewrite bind_run. simpl.
    pose proof (Z.div_mod cs 2 ltac:(lia)).
    pose proof (Z.mod_pos_bound cs 2 ltac:(lia)).
    apply IH; lia.
Qed.

(** The world only moves on: the number of requests sent never drops. *)
Lemma bisect_calls_mono fuel : ∀ target left right w,
  Nat.le (rpc_calls w) (rpc_calls (bisect node fuel target left right w).2).
Proof.
  assert (Hexit : ∀ (left right : Z) w,
    Nat.le (rpc_calls w)
      (rpc_calls ((rpc_block_number node ≫= λ height,
                     mret (Some (if left <=? height then left else right)))
                    w).2)).
  { intros left right w. rewrite bind_run. unfold rpc_block_number.
    destruct (block_number node (rpc_calls w)); simpl; lia. }
  induction fuel as [|fuel IH]; intros target left right w; simpl.
  { destruct (left <=? right); [simpl; lia | apply Hexit]. }
  destruct (left <=? right); [|apply Hexit].
  unfold try_except, rpc_get_block.
  destruct (get_block node (rpc_calls w) ((left + right) / 2)) as [t|];
    simpl; [|lia].
  destruct (t =? target); [simpl; lia|].
  set (w1 := emit _ (next_call w)).
  assert (Hw1 : rpc_calls w1 = S (rpc_calls w)) by done.
  destruct (t <? target).
  - specialize (IH target ((left + right) / 2 + 1) right w1). lia.
  - specialize (IH target left ((left + right) / 2 - 1) w1). lia.
Qed.

Lemma find_block_by_timestamp_calls target w :
  Nat.le (rpc_calls w)
    (rpc_calls (find_block_by_timestamp node target w).2).
Proof.
  unfold find_block_by_timestamp. rewrite bind_run.
  unfold rpc_block_number at 1.
  destruct (block_number node (rpc_calls w)) as [height|]; simpl; [|lia].
  set (w0 := emit _ (next_call w)).
  assert (Hw0 : rpc_calls w0 = S (rpc_calls w)) by done.
  pose proof (bisect_calls_mono (Z.to_nat height) target 1 height w0). lia.
Qed.

(** [get_token_metrics] comes back, with the data frame, with [None] or
    with the exception of a refused request for the height, for every
    node and every chunk size that is not negative. *)
Lemma get_token_metrics_returns start_timestamp end_timestamp chunk_size w :
  0 ≤ chunk_size →
  match (get_token_metrics node fromtimestamp
           start_timestamp end_timestamp chunk_size w).1 with
  | Ok _ => True
  | Raised => ∃ i, (rpc_calls w ≤ i)%nat ∧ block_number node i = None
  | OutOfFuel => False
  end.
Proof.
  intros Hcs. unfold get_token_metrics. rewrite bind_run.
  pose proof (find_block_by_timestamp_returns start_timestamp w) as Hcb.
  pose proof (find_block_by_timestamp_calls start_timestamp w) as Hc1.
  destruct (find_block_by_timestamp node start_timestamp w)
    as [[cb| |] w1]; simpl in Hcb, Hc1; try done.
  rewrite bind_run.
  pose proof (find_block_by_timestamp_returns end_timestamp w1) as Heb.
  destruct (find_block_by_timestamp node end_timestamp w1)
    as [[eb| |] w2]; simpl in Heb; try done.
  2: { destruct Heb as (i & Hi & Hnone). exists i. split; [lia | done]. }
  destruct (falsy cb || falsy eb); [done|].
  rewrite bind_run. unfold write_progress at 1. rewrite bind_run.
  set (w3 := emit _ _).
  destruct (scan_loop_returns
              (scan_fuel (default 0 cb) (default 0 eb) chunk_size)
              (default 0 cb) (default 0 eb) chunk_size w3 Hcs)
    as [exit Hexit].
  { unfold scan_fuel. lia. }
  destruct (scan_loop _ _ _ _ _ _ w3) as [r w4]; simpl in Hexit; by subst r.
Qed.

End Termination.

(** * Further properties: the search, the rows and the loop *)

(** ** The search for a block *)

Section Search.

Variable node : Node.

Lemma bisect_in_range fuel (highest : Z) : ∀ target left right w block,
  (∀ i height, block_number node i = Some height → 1 ≤ height ≤ highest) →
  1 ≤ left → right ≤ highest → left ≤ right + 1 →
  (bisect node fuel target left right w).1 = Ok (Some block) →
  1 ≤ block ≤ highest.
Proof.
  assert (Hexit : ∀ (left right : Z) w block,
    (∀ i height, block_number node i = Some height → 1 ≤ height ≤ highest) →
    1 ≤ left → right ≤ highest → left ≤ right + 1 → right < left →
    ((rpc_block_number node ≫= λ height,
        mret (Some (if left <=? height then left else right))) w).1
      = Ok (Some block) →
    1 ≤ block ≤ highest).
  { intros left right w block Hh Hl Hr Hlr Hlt.
    rewrite bind_run. unfold rpc_block_number.
    destruct (block_number node (rpc_calls w)) as [height|] eqn:Hheight;
      simpl; [|done].
    specialize (Hh _ _ Hheight). intros [= <-].
    destruct (left <=? height) eqn:Hin;
      [apply Z.leb_le in Hin | apply Z.leb_gt in Hin]; lia. }
  induction fuel as [|fuel IH];
    intros target left right w block Hh Hl Hr Hlr; simpl.
  { destruct (left <=? right) eqn:Hle; simpl; [done|].
    apply Z.leb_gt in Hle. by apply Hexit. }
  destruct (left <=? right) eqn:Hle; simpl.
  2: { apply Z.leb_gt in Hle. by apply Hexit. }
  apply Z.leb_le in Hle. pose proof (midpoint_between _ _ Hle) as Hmid.
  unfold try_except, rpc_get_block.
  destruct (get_block node (rpc_calls w) ((left + right) / 2)) as [t|];
    simpl; [|done].
  destruct (t =? target); simpl.
  { intros [= <-]. lia. }
  destruct (t <? target); apply IH; try done; lia.
Qed.

(** Each request for a block halves the interval that is left. *)
Lemma bisect_calls fuel : ∀ (k : nat) target left right w,
  right - left + 1 < 2 ^ Z.of_nat k →
  ∃ evs,
    trace (bisect node fuel target left right w).2 = trace w ++ evs
    ∧ Nat.le (length (block_requests evs)) k
    ∧ Nat.le (rpc_calls (bisect node fuel target left right w).2)
        (rpc_calls w + k + 1).
Proof.
  assert (Hexit : ∀ (k : nat) (left right : Z) w,
    ∃ evs,
      trace ((rpc_block_number node ≫= λ height,
                mret (Some (if left <=? height then left else right)))
               w).2 = trace w ++ evs
      ∧ Nat.le (length (block_requests evs)) k
      ∧ Nat.le
          (rpc_calls ((rpc_block_number node ≫= λ height,
                         mret (Some (if left <=? height
                                     then left else right))) w).2)
          (rpc_calls w + k + 1)).
  { intros k left right w. rewrite bind_run. unfold rpc_block_number.
    exists [EBlockNumber].
    destruct (block_number node (rpc_calls w)); simpl;
      repeat split; lia. }
  induction fuel as [|fuel IH]; intros k target left right w Hk; simpl.
  { destruct (left <=? right); [|apply Hexit].
    exists []. simpl. rewrite app_nil_r. repeat split; lia. }
  destruct (left <=? right) eqn:Hle; [|apply Hexit].
  apply Z.leb_le in Hle.
  destruct k as [|k]; [simpl in Hk; lia|].
  rewrite Nat2Z.inj_succ, Z.pow_succ_r in Hk by lia.
  pose proof (Z.div_mod (left + right) 2 ltac:(lia)) as Hdiv.
  pose proof (Z.mod_pos_bound (left + right) 2 ltac:(lia)) as Hmod.
  unfold try_except, rpc_get_block.
  set (mid := (left + right) / 2) in *.
  destruct (get_block node (rpc_calls w) mid) as [t|]; simpl.
  2: { exists [EGetBlock mid]. simpl. repeat split; lia. }
  destruct (t =? target); simpl.
  { exists [EGetBlock mid]. simpl. repeat split; lia. }
  set (w0 := emit _ (next_call w)).
  assert (Hw0 : rpc_calls w0 = S (rpc_calls w)) by done.
  assert (Ht0 : trace w0 = trace w ++ [EGetBlock mid]) by done.
  destruct (t <? target).
  - destruct (IH k target (mid + 1) right w0 ltac:(lia))
      as (evs & Ht & Hlen & Hcalls).
    exists (EGetBlock mid :: evs). rewrite Ht, Ht0, <- app_assoc.
    simpl. repeat split; lia.
  - destruct (IH k target left (mid - 1) w0 ltac:(lia))
      as (evs & Ht & Hlen & Hcalls).
    exists (EGetBlock mid :: evs). rewrite Ht, Ht0, <- app_assoc.
    simpl. repeat split; lia.
Qed.

End Search.

(** X1. Whatever timestamps the node reports and whenever it refuses, a
    block that [find_block_by_timestamp] returns lies on the chain: when
    every height the node reports is between 1 and [highest], the block
    is between 1 and [highest]. On a chain of fixed height it is never
    block 0 (which [get_token_metrics] would take for a failure) and
    never beyond the head. *)
Theorem find_block_by_timestamp_in_range
    (node : Node) (target : Z) (w : World) (block highest : Z) :
  (∀ i height, block_number node i = Some height → 1 ≤ height ≤ highest) →
  (find_block_by_timestamp node target w).1 = Ok (Some block) →
  1 ≤ block ≤ highest.
Proof.
  intros Hh. unfold find_block_by_timestamp. rewrite bind_run.
  unfold rpc_block_number at 1.
  destruct (block_number node (rpc_calls w)) as [height|] eqn:Hheight;
    simpl; [|done].
  pose proof (Hh _ _ Hheight).
  apply (bisect_in_range node _ highest); try done; lia.
Qed.

Lemma find_block_by_timestamp_in_range_witness :
  (∀ (i : nat) height,
     block_number scenario_node i = Some height → 1 ≤ height ≤ 5)
  ∧ (find_block_by_timestamp scenario_node 250 fresh_world).1 = Ok (Some 3)
  ∧ 1 ≤ 3 ≤ 5.
Proof.
  assert (H : ∀ (i : nat) height,
            block_number scenario_node i = Some height → 1 ≤ height ≤ 5).
  { intros i height [= <-]. simpl. lia. }
  split; [exact H|]. split; [reflexivity|].
  apply (find_block_by_timestamp_in_range scenario_node 250 fresh_world 3 5);
    [exact H | reflexivity].
Defined.

(** X2. The search sends at most [log2 h + 1] requests for a block, and
    at most [log2 h + 3] requests in all, whatever the node answers,
    where [h] is the height its first request reports; when that request
    is refused, the search raises without another request. *)
Theorem find_block_by_timestamp_logarithmic
    (node : Node) (target : Z) (w : World) :
  let r := find_block_by_timestamp node target w in
  match block_number node (rpc_calls w) with
  | Some height =>
      ∃ evs,
        trace r.2 = trace w ++ evs
        ∧ Nat.le (length (block_requests evs))
            (Z.to_nat (Z.log2 height) + 1)
        ∧ Nat.le (rpc_calls r.2)
            (rpc_calls w + Z.to_nat (Z.log2 height) + 3)
  | None => r = (Raised, emit EBlockNumber (next_call w))
  end.
Proof.
  cbv zeta. unfold find_block_by_timestamp. rewrite bind_run.
  unfold rpc_block_number.
  destruct (block_number node (rpc_calls w)) as [height|]; simpl; [|done].
  set (w0 := emit _ (next_call w)).
  assert (Hk : height - 1 + 1 < 2 ^ Z.of_nat (S (Z.to_nat (Z.log2 height)))).
  { pose proof (Z.log2_nonneg height) as Hnn.
    rewrite Nat2Z.inj_succ, Z2Nat.id by lia.
    destruct (Z_lt_le_dec 0 height) as [Hpos|Hnp].
    - pose proof (Z.log2_spec _ Hpos). lia.
    - assert (0 < 2 ^ Z.succ (Z.log2 height))
        by (apply Z.pow_pos_nonneg; lia).
      lia. }
  destruct (bisect_calls node (Z.to_nat height) _ target 1 height w0 Hk)
    as (evs & Ht & Hlen & Hcalls).
  exists (EBlockNumber :: evs). rewrite Ht. subst w0. simpl in *.
  rewrite <- app_assoc. repeat split; lia.
Qed.

Section SortedChain.

Variable node : Node.
Variable height : Z.
Variable timestamp_of : Z → Z.
Hypothesis Hreports : reports node height.
Hypothesis Hserves : serves node height timestamp_of.
Hypothesis Hsorted : chain_sorted height timestamp_of.

(** The invariant of the search on a sorted chain: every block before
    [left] is earlier than the target and every block after [right] is
    later. *)
Lemma bisect_sorted fuel : ∀ target left right w,
  right - left + 1 ≤ Z.of_nat fuel →
  1 ≤ left → right ≤ height → left ≤ right + 1 →
  (∀ n, 1 ≤ n < left → timestamp_of n < target) →
  (∀ n, right < n ≤ height → target < timestamp_of n) →
  ∃ block,
    (bisect node fuel target left right w).1 = Ok (Some block)
    ∧ (1 ≤ block ≤ height ∧ timestamp_of block = target
       ∨ 1 ≤ block ≤ height ∧ target < timestamp_of block
         ∧ (∀ n, 1 ≤ n < block → timestamp_of n < target)
       ∨ block = height
         ∧ ∀ n, 1 ≤ n ≤ height → timestamp_of n < target).
Proof.
  assert (Hexit : ∀ target left right w,
    (left <=? right) = false →
    1 ≤ left → right ≤ height → left ≤ right + 1 →
    (∀ n, 1 ≤ n < left → timestamp_of n < target) →
    (∀ n, right < n ≤ height → target < timestamp_of n) →
    ∃ block,
      ((rpc_block_number node ≫= λ height,
          mret (Some (if left <=? height then left else right))) w).1
        = Ok (Some block)
      ∧ (1 ≤ block ≤ height ∧ timestamp_of block = target
         ∨ 1 ≤ block ≤ height ∧ target < timestamp_of block
           ∧ (∀ n, 1 ≤ n < block → timestamp_of n < target)
         ∨ block = height
           ∧ ∀ n, 1 ≤ n ≤ height → timestamp_of n < target)).
  { intros target left right w Hle Hl Hr Hlr Hlo Hhi.
    apply Z.leb_gt in Hle.
    rewrite bind_run. unfold rpc_block_number. rewrite Hreports. simpl.
    eexists. split; [reflexivity|].
    destruct (left <=? height) eqn:Hin.
    - apply Z.leb_le in Hin. right. left.
      split; [lia|]. split; [apply Hhi; lia | exact Hlo].
    - apply Z.leb_gt in Hin. right. right.
      split; [lia|]. intros n Hn. apply Hlo. lia. }
  induction fuel as [|fuel IH];
    intros target left right w Hfuel Hl Hr Hlr Hlo Hhi; simpl.
  { destruct (left <=? right) eqn:Hle.
    - apply Z.leb_le in Hle. lia.
    - by apply Hexit. }
  destruct (left <=? right) eqn:Hle.
  2: { by apply Hexit. }
  apply Z.leb_le in Hle. pose proof (midpoint_between _ _ Hle) as Hmid.
  set (mid := (left + right) / 2) in *.
  unfold try_except, rpc_get_block.
  rewrite (Hserves (rpc_calls w) mid) by lia. simpl.
  destruct (timestamp_of mid =? target) eqn:Heq; simpl.
  { apply Z.eqb_eq in Heq. exists mid. split; [done|]. left. lia. }
  apply Z.eqb_neq in Heq.
  destruct (timestamp_of mid <? target) eqn:Hlt.
  - apply Z.ltb_lt in Hlt. apply IH; try lia; [|exact Hhi].
    intros n Hn.
    pose proof (Hsorted n mid ltac:(lia) ltac:(lia) ltac:(lia)). lia.
  - apply Z.ltb_ge in Hlt. apply IH; try lia; [exact Hlo|].
    intros n Hn.
    pose proof (Hsorted mid n ltac:(lia) ltac:(lia) ltac:(lia)). lia.
Qed.

Lemma find_block_by_timestamp_sorted target w :
  0 ≤ height →
  ∃ block,
    (find_block_by_timestamp node target w).1 = Ok (Some block)
    ∧ (1 ≤ block ≤ height ∧ timestamp_of block = target
       ∨ 1 ≤ block ≤ height ∧ target < timestamp_of block
         ∧ (∀ n, 1 ≤ n < block → timestamp_of n < target)
       ∨ block = height
         ∧ ∀ n, 1 ≤ n ≤ height → timestamp_of n < target).
Proof.
  intros Hh. unfold find_block_by_timestamp. rewrite bind_run.
  unfold rpc_block_number at 1. rewrite Hreports. simpl.
  apply bisect_sorted; intros; lia.
Qed.

End SortedChain.

(** X3. On a node that reports a fixed height, answers every request for
    a block of the chain and whose timestamps do not go back along the
    chain, a target timestamp that some block carries is found: the
    search returns a block with exactly that timestamp. *)
Theorem find_block_by_timestamp_exact
    (node : Node) (height : Z) (timestamp_of : Z → Z)
    (target : Z) (w : World) (n : Z) :
  reports node height →
  serves node height timestamp_of →
  chain_sorted height timestamp_of →
  1 ≤ n ≤ height →
  timestamp_of n = target →
  ∃ block,
    (find_block_by_timestamp node target w).1 = Ok (Some block)
    ∧ 1 ≤ block ≤ height
    ∧ timestamp_of block = target.
Proof.
  intros Hreports Hserves Hsorted Hn Hts.
  destruct (find_block_by_timestamp_sorted node height timestamp_of
              Hreports Hserves Hsorted target w ltac:(lia))
    as (block & Hrun & [[Hb Heq] | [(Hb & Hlater & Hbefore) | [Hb Hall]]]).
  - by exists block.
  - exfalso. destruct (Z_lt_le_dec n block) as [Hlt|Hge].
    + specialize (Hbefore n ltac:(lia)). lia.
    + pose proof (Hsorted block n ltac:(lia) ltac:(lia) ltac:(lia)). lia.
  - exfalso. specialize (Hall n Hn). lia.
Qed.

(** X4. On a node that reports a fixed height, answers every request for
    a block of the chain and whose timestamps do not go back along the
    chain, when no block carries the target timestamp, the search returns
    the first block that is later than the target, and the last block of
    the chain when every block is earlier. It does not compare the two
    neighbours of the target. *)
Theorem find_block_by_timestamp_next_later
    (node : Node) (height : Z) (timestamp_of : Z → Z)
    (target : Z) (w : World) :
  reports node height →
  serves node height timestamp_of →
  chain_sorted height timestamp_of →
  1 ≤ height →
  (∀ n, 1 ≤ n ≤ height → timestamp_of n ≠ target) →
  ∃ block,
    (find_block_by_timestamp node target w).1 = Ok (Some block)
    ∧ 1 ≤ block ≤ height
    ∧ (∀ n, 1 ≤ n < block → timestamp_of n < target)
    ∧ (target < timestamp_of block
       ∨ block = height ∧ timestamp_of block < target).
Proof.
  intros Hreports Hserves Hsorted Hh Hnone.
  destruct (find_block_by_timestamp_sorted node height timestamp_of
              Hreports Hserves Hsorted target w ltac:(lia))
    as (block & Hrun & [[Hb Heq] | [(Hb & Hlater & Hbefore) | [Hb Hall]]]).
  - by destruct (Hnone block Hb).
  - exists block. split; [done|]. split; [lia|].
    split; [exact Hbefore | by left].
  - exists block. split; [done|]. split; [lia|]. split.
    + intros n Hn. apply Hall. lia.
    + right. split; [done|]. apply Hall. lia.
Qed.

Lemma scenario_node_reports : reports scenario_node 5.
Proof. intros i. reflexivity. Defined.

Lemma scenario_node_serves : serves scenario_node 5 (λ n, 100 * n).
Proof.
  intros i n Hn.
  assert (n = 1 ∨ n = 2 ∨ n = 3 ∨ n = 4 ∨ n = 5) as Hcases by lia.
  destruct Hcases as [->|[->|[->|[->| ->]]]]; reflexivity.
Defined.

Lemma scenario_node_sorted : chain_sorted 5 (λ n, 100 * n).
Proof. intros n m Hn Hnm Hm. simpl. lia. Defined.

Lemma find_block_by_timestamp_exact_witness :
  reports scenario_node 5
  ∧ serves scenario_node 5 (λ n, 100 * n)
  ∧ chain_sorted 5 (λ n, 100 * n)
  ∧ 1 ≤ 4 ≤ 5
  ∧ 100 * 4 = 400
  ∧ ∃ block,
      (find_block_by_timestamp scenario_node 400 fresh_world).1
        = Ok (Some block)
      ∧ 1 ≤ block ≤ 5
      ∧ 100 * block = 400.
Proof.
  split; [exact scenario_node_reports|].
  split; [exact scenario_node_serves|].
  split; [exact scenario_node_sorted|].
  split; [lia|]. split; [reflexivity|].
  apply (find_block_by_timestamp_exact scenario_node 5 (λ n, 100 * n)
           400 fresh_world 4);
    [exact scenario_node_reports | exact scenario_node_serves
    | exact scenario_node_sorted | lia | reflexivity].
Defined.

Lemma find_block_by_timestamp_next_later_witness :
  reports scenario_node 5
  ∧ serves scenario_node 5 (λ n, 100 * n)
  ∧ chain_sorted 5 (λ n, 100 * n)
  ∧ 1 ≤ 5
  ∧ (∀ n, 1 ≤ n ≤ 5 → 100 * n ≠ 110)
  ∧ ∃ block,
      (find_block_by_timestamp scenario_node 110 fresh_world).1
        = Ok (Some block)
      ∧ 1 ≤ block ≤ 5
      ∧ (∀ n, 1 ≤ n < block → 100 * n < 110)
      ∧ (110 < 100 * block ∨ block = 5 ∧ 100 * block < 110).
Proof.
  split; [exact scenario_node_reports|].
  split; [exact scenario_node_serves|].
  split; [exact scenario_node_sorted|].
  split; [lia|]. split; [intros n Hn; lia|].
  apply (find_block_by_timestamp_next_later scenario_node 5 (λ n, 100 * n)
           110 fresh_world);
    [exact scenario_node_reports | exact scenario_node_serves
    | exact scenario_node_sorted | lia | intros n Hn; lia].
Defined.

(** ** Retries of the timestamp lookup *)

Section Retries.

Variable node : Node.
Variable fromtimestamp : Z → option datetime.
Variable height : Z.
Hypothesis Hnode : never_thrice node fromtimestamp height.

Lemma block_datetime_dated n w :
  dated node fromtimestamp (rpc_calls w) n →
  ∃ d, block_datetime node fromtimestamp n w =
         (Ok d, emit (EGetBlock n) (next_call w)).
Proof.
  intros (t & Ht & d & Hd). exists d.
  unfold block_datetime. rewrite bind_run. unfold rpc_get_block, raise_none.
  rewrite Ht. simpl. by rewrite Hd.
Qed.

Lemma get_block_timestamp_succeeds n w :
  1 ≤ n ≤ height →
  ∃ d, (get_block_timestamp node fromtimestamp n w).1 = Ok d.
Proof.
  intros Hn. unfold get_block_timestamp, try_except.
  destruct (Hnode (rpc_calls w) n Hn) as [H0|H12].
  { destruct (block_datetime_dated n w H0) as [d ->]. by eexists. }
  destruct (block_datetime_run node fromtimestamp n w) as [[d ->]| ->];
    [by eexists|].
  rewrite bind_run. unfold sleep at 1.
  set (w1 := emit (ESleep 1000) _).
  assert (Hw1 : rpc_calls w1 = S (rpc_calls w)) by done.
  destruct H12 as [H1|H2].
  { rewrite <- Hw1 in H1.
    destruct (block_datetime_dated n w1 H1) as [d ->]. by eexists. }
  destruct (block_datetime_run node fromtimestamp n w1) as [[d ->]| ->];
    [by eexists|].
  rewrite bind_run. unfold sleep at 1.
  set (w2 := emit (ESleep 1000) _).
  assert (Hw2 : rpc_calls w2 = S (S (rpc_calls w))) by done.
  rewrite <- Hw2 in H2.
  destruct (block_datetime_dated n w2 H2) as [d ->]. by eexists.
Qed.

Lemma for_events_succeeds events : ∀ cm w,
  Forall (λ event, 1 ≤ blockNumber event ≤ height) events →
  ∃ cm', (for_events node fromtimestamp events cm w).1 = Ok cm'.
Proof.
  induction events as [|event events IH]; intros cm w Hin; simpl.
  { by eexists. }
  apply Forall_cons in Hin as [Hevent Hin].
  rewrite bind_run.
  destruct (get_block_timestamp_succeeds (blockNumber event) w Hevent)
    as [t Ht].
  destruct (get_block_timestamp node fromtimestamp (blockNumber event) w)
    as [r w1].
  simpl in Ht. subst r. by apply IH.
Qed.

End Retries.

Lemma try_chunk_absorbs
    (node : Node) (fromtimestamp : Z → option datetime) (height : Z)
    (current_block chunk_end end_block : Z) (w : World) :
  never_thrice node fromtimestamp height →
  match get_logs node (rpc_calls w) current_block chunk_end with
  | Some events =>
      Forall (λ event, 1 ≤ blockNumber event ≤ height) events →
      (try_chunk node fromtimestamp current_block chunk_end end_block w).1
        = Ok ()
  | None =>
      (try_chunk node fromtimestamp current_block chunk_end end_block w).1
        = Raised
  end.
Proof.
  intros Hnode. unfold try_chunk. rewrite bind_run. unfold rpc_get_logs.
  destruct (get_logs node (rpc_calls w) current_block chunk_end)
    as [events|]; simpl; [|done].
  intros Hin. set (w0 := emit _ (next_call w)).
  rewrite bind_run.
  destruct (for_events_succeeds node fromtimestamp height Hnode events []
              w0 Hin) as [cm Hcm].
  destruct (for_events node fromtimestamp events [] w0) as [r w1].
  simpl in Hcm. subst r.
  rewrite !bind_run. unfold append_chunk_data.
  by destruct cm.
Qed.

(** X5. The retries of [get_block_timestamp] absorb refusals. Let the
    chain have [height] blocks and let, of any three requests in a row
    for one of its blocks, one at least be answered with a timestamp that
    [datetime.fromtimestamp] converts. Then an attempt at a chunk whose
    logs lie in blocks of the chain succeeds when its request for logs
    does, and it raises when that request is refused. *)
Theorem retries_absorb_refusals
    (node : Node) (fromtimestamp : Z → option datetime) (height : Z)
    (current_block chunk_end end_block : Z) (w : World) :
  never_thrice node fromtimestamp height →
  match get_logs node (rpc_calls w) current_block chunk_end with
  | Some events =>
      Forall (λ event, 1 ≤ blockNumber event ≤ height) events →
      (try_chunk node fromtimestamp current_block chunk_end end_block w).1
        = Ok ()
  | None =>
      (try_chunk node fromtimestamp current_block chunk_end end_block w).1
        = Raised
  end.
Proof. apply try_chunk_absorbs. Qed.

Lemma flaky_node_never_thrice : never_thrice flaky_node utc_fromtimestamp 5.
Proof.
  assert (Hdated : ∀ i n, 1 ≤ n ≤ 5 → Nat.even i = false →
            dated flaky_node utc_fromtimestamp i n).
  { intros i n Hn Hodd. unfold dated, flaky_node. cbn [get_block].
    rewrite Hodd.
    assert (n = 1 ∨ n = 2 ∨ n = 3 ∨ n = 4 ∨ n = 5) as Hcases by lia.
    destruct Hcases as [->|[->|[->|[->| ->]]]];
      (eexists; split; [reflexivity | by eexists]). }
  intros i n Hn. destruct (Nat.even i) eqn:Heven.
  - right. left. apply Hdated; [done|].
    by rewrite Nat.even_succ, <- Nat.negb_even, Heven.
  - left. by apply Hdated.
Defined.

Lemma retries_absorb_refusals_witness :
  never_thrice flaky_node utc_fromtimestamp 5
  ∧ match get_logs flaky_node (rpc_calls fresh_world) 1 5 with
    | Some events =>
        Forall (λ event, 1 ≤ blockNumber event ≤ 5) events →
        (try_chunk flaky_node utc_fromtimestamp 1 5 5 fresh_world).1 = Ok ()
    | None =>
        (try_chunk flaky_node utc_fromtimestamp 1 5 5 fresh_world).1
          = Raised
    end.
Proof.
  split; [exact flaky_node_never_thrice|].
  apply (retries_absorb_refusals flaky_node utc_fromtimestamp 5 1 5 5
           fresh_world).
  exact flaky_node_never_thrice.
Defined.

(** ** Encoding and decoding a transfer *)

Lemma int_of_bytes_snoc b x :
  int_of_bytes (b ++ [x]) = int_of_bytes b * 256 + Z.of_N (Byte.to_N x).
Proof. unfold int_of_bytes. by rewrite fold_left_app. Qed.

Lemma be_bytes_length len : ∀ v, length (be_bytes len v) = len.
Proof.
  induction len as [|len IH]; intros v; simpl; [done|].
  rewrite length_app, IH. simpl. lia.
Qed.

Lemma int_of_bytes_be_bytes len : ∀ v,
  0 ≤ v < 256 ^ Z.of_nat len → int_of_bytes (be_bytes len v) = v.
Proof.
  induction len as [|len IH]; intros v Hv.
  { simpl in *. unfold int_of_bytes. simpl. lia. }
  rewrite Nat2Z.inj_succ, Z.pow_succ_r in Hv by lia.
  cbn [be_bytes]. rewrite int_of_bytes_snoc.
  pose proof (Z.div_mod v 256 ltac:(lia)) as Hdiv.
  pose proof (Z.mod_pos_bound v 256 ltac:(lia)) as Hmod.
  rewrite IH by lia.
  destruct (Byte.of_N (Z.to_N (v mod 256))) as [x|] eqn:Hx; simpl.
  - apply Byte.to_of_N in Hx. rewrite Hx, Z2N.id by lia. lia.
  - apply Byte.of_N_None_iff in Hx. lia.
Qed.

Lemma int_of_hex_be_bytes len v :
  (0 < len)%nat → 0 ≤ v < 256 ^ Z.of_nat len →
  int_of_hex (be_bytes len v) = Some v.
Proof.
  intros Hlen Hv. unfold int_of_hex.
  destruct (be_bytes len v) as [|b bs] eqn:Hb.
  - apply (f_equal length) in Hb. rewrite be_bytes_length in Hb.
    simpl in Hb. lia.
  - by rewrite <- Hb, int_of_bytes_be_bytes.
Qed.

Lemma option_bind_Some {A B} (f : A → option B) (a : A) :
  Some a ≫= f = f a.
Proof. reflexivity. Qed.

Lemma hex_last40_padded pad address :
  length address = 20%nat → hex_last40 (pad ++ address) = address.
Proof.
  intros Hlen. unfold hex_last40. rewrite length_app, Hlen.
  replace (length pad + 20 - 20)%nat with (length pad) by lia.
  apply drop_app_length.
Qed.

Lemma decode_padded_topics
    (block : Z) (signature pad1 pad2 : list byte)
    (from to : Address) (more : list (list byte)) (payload : list byte)
    (v : Z) (x : Float64.float) :
  length from = 20%nat →
  length to = 20%nat →
  int_of_hex payload = Some v →
  Float64.int_truediv v Float64.lit_1e18 = Some x →
  decode_transfer_event
    {| blockNumber := block;
       topics := signature :: (pad1 ++ from) :: (pad2 ++ to) :: more;
       data := payload |}
  = Some {| from_address := from; to_address := to; value := x |}.
Proof.
  intros Hfrom Hto Hdata Hx.
  unfold decode_transfer_event. cbn [topics data].
  change ((signature :: (pad1 ++ from) :: (pad2 ++ to) :: more) !! 1%nat)
    with (Some (pad1 ++ from)).
  change ((signature :: (pad1 ++ from) :: (pad2 ++ to) :: more) !! 2%nat)
    with (Some (pad2 ++ to)).
  unfold to_checksum_address.
  repeat (first [ rewrite option_bind_Some
                | rewrite hex_last40_padded by done
                | rewrite decide_True by done
                | rewrite Hdata
                | rewrite Hx ];
          cbv beta).
  reflexivity.
Qed.

(** X6. Decoding undoes the encoding of a Transfer log. For a log whose
    topics 1 and 2 end with the 20 bytes of two addresses (after any
    padding) and whose payload is the 32-byte big-endian word of an amount
    below 2^256, the decoder returns these two addresses and the amount
    divided by 10^18 up to a relative error of 2^-49, whatever the
    signature topic, the block and further topics are. *)
Theorem decode_encoded_transfer
    (block : Z) (signature pad1 pad2 : list byte)
    (from to : Address) (more : list (list byte)) (amount : Z) :
  length from = 20%nat →
  length to = 20%nat →
  0 ≤ amount < 2 ^ 256 →
  ∃ x,
    decode_transfer_event
      {| blockNumber := block;
         topics := signature :: (pad1 ++ from) :: (pad2 ++ to) :: more;
         data := be_bytes 32 amount |}
    = Some {| from_address := from; to_address := to; value := x |}
    ∧ Float64.int_truediv amount Float64.lit_1e18 = Some x
    ∧ Float64.within 49 x amount (10 ^ 18) = true.
Proof.
  intros Hfrom Hto Hamount.
  assert (Hbig : 0 ≤ amount < 2 ^ 1023).
  { split; [lia|]. eapply Z.lt_le_trans; [apply Hamount|].
    apply Z.pow_le_mono_r; lia. }
  destruct (proj2 (int_truediv_1e18_Some amount) (of_int_is_Some _ Hbig))
    as [x Hx].
  exists x. split; [|split; [exact Hx|]].
  2: { by apply int_truediv_1e18_accurate. }
  apply (decode_padded_topics _ _ _ _ _ _ _ _ amount); try done.
  assert (H256 : 2 ^ 256 = 256 ^ Z.of_nat 32) by (vm_compute; reflexivity).
  apply int_of_hex_be_bytes; [lia | by rewrite <- H256].
Qed.

Lemma decode_encoded_transfer_witness :
  length (be_bytes 20 10) = 20%nat
  ∧ length (be_bytes 20 11) = 20%nat
  ∧ 0 ≤ 5 * 10 ^ 17 < 2 ^ 256
  ∧ ∃ x,
      decode_transfer_event
        {| blockNumber := 7;
           topics := [] :: (be_bytes 12 0 ++ be_bytes 20 10)
                        :: (be_bytes 12 0 ++ be_bytes 20 11) :: [];
           data := be_bytes 32 (5 * 10 ^ 17) |}
      = Some {| from_address := be_bytes 20 10;
                to_address := be_bytes 20 11;
                value := x |}
      ∧ Float64.int_truediv (5 * 10 ^ 17) Float64.lit_1e18 = Some x
      ∧ Float64.within 49 x (5 * 10 ^ 17) (10 ^ 18) = true.
Proof.
  split; [reflexivity|]. split; [reflexivity|]. split; [lia|].
  apply (decode_encoded_transfer 7 [] (be_bytes 12 0) (be_bytes 12 0)
           (be_bytes 20 10) (be_bytes 20 11) [] (5 * 10 ^ 17));
    [reflexivity | reflexivity | lia].
Defined.

(** ** What the rows of a chunk say *)

Lemma decoded_on_snoc d events date_key event :
  decoded_on d (events ++ [(date_key, event)]) =
    decoded_on d events
      ++ (if decide (date_key = d)
          then option_list (decode_transfer_event event) else []).
Proof.
  unfold decoded_on. rewrite omap_app. f_equal. simpl.
  destruct (decide (date_key = d)); [|done].
  by destruct (decode_transfer_event event).
Qed.

Lemma metrics_at_aggregate events d :
  let transfers := decoded_on d events in
  let m := metrics_at d (aggregate events) in
  transactions m = Z.of_nat (length transfers)
  ∧ senders m = list_to_set (from_address <$> transfers)
  ∧ receivers m = list_to_set (to_address <$> transfers)
  ∧ active_addresses m =
      list_to_set (from_address <$> transfers)
        ∪ list_to_set (to_address <$> transfers)
  ∧ volume m = fold_left pynum_add_float (value <$> transfers) (PInt 0).
Proof.
  cbv zeta. induction events as [|[date_key event] events IH] using rev_ind.
  { simpl. by repeat split. }
  rewrite aggregate_snoc, decoded_on_snoc. unfold process_event.
  destruct (decode_transfer_event event) as [t|]; simpl.
  2: { destruct (decide (date_key = d)); by rewrite app_nil_r. }
  rewrite metrics_at_observe.
  destruct (decide (date_key = d)) as [->|Hne]; [|by rewrite app_nil_r].
  destruct IH as (Htx & Hs & Hr & Ha & Hv). simpl.
  rewrite Htx, Hs, Hr, Ha, Hv.
  rewrite length_app, !fmap_app, !list_to_set_app_L, fold_left_app.
  cbn [fmap list_fmap length fold_left]. rewrite !list_to_set_singleton_L.
  repeat split; [lia|].
  apply set_eq. intros x. rewrite !elem_of_union. tauto.
Qed.

(** X7. What the metrics of a day say. After any dated logs were fed to a
    fresh aggregator, the day's [transactions] is the number of the logs
    of that day that decode, [senders] and [receivers] are the sets of
    their from- and to-addresses, [active_addresses] is the union of the
    two, and [volume] is the sum of their amounts, added as floats from
    left to right starting from the integer 0. Logs of other days and logs
    that do not decode change nothing. *)
Theorem aggregate_counts_the_day
    (events : list (Z * RawLog)) (date_key : Z) :
  let transfers := decoded_on date_key events in
  let daily_metrics := metrics_at date_key (aggregate events) in
  transactions daily_metrics = Z.of_nat (length transfers)
  ∧ senders daily_metrics = list_to_set (from_address <$> transfers)
  ∧ receivers daily_metrics = list_to_set (to_address <$> transfers)
  ∧ active_addresses daily_metrics =
      list_to_set (from_address <$> transfers)
        ∪ list_to_set (to_address <$> transfers)
  ∧ volume daily_metrics =
      fold_left pynum_add_float (value <$> transfers) (PInt 0).
Proof. apply metrics_at_aggregate. Qed.

Section DictKeys.

Context {V : Type}.
Implicit Types (d : dict V) (k : Z) (v : V).

Lemma dict_set_keys k v d :
  (dict_set k v d).*1 = if decide (k ∈ d.*1) then d.*1 else d.*1 ++ [k].
Proof.
  induction d as [|[k' v'] d IH].
  { cbn [dict_set fmap list_fmap fst].
    destruct (decide (k ∈ [])) as [Hin|_]; [|done].
    by apply elem_of_nil in Hin. }
  cbn [dict_set]. destruct (decide (k' = k)) as [->|Hne].
  { cbn [fmap list_fmap fst].
    destruct (decide (k ∈ k :: d.*1)) as [_|Hnin]; [done|].
    destruct Hnin. apply elem_of_cons. by left. }
  cbn [fmap list_fmap fst]. fold (d.*1). fold ((dict_set k v d).*1).
  rewrite IH. destruct (decide (k ∈ d.*1)) as [Hin|Hnin].
  - destruct (decide (k ∈ k' :: d.*1)) as [_|Hnin]; [done|].
    destruct Hnin. apply elem_of_cons. by right.
  - destruct (decide (k ∈ k' :: d.*1)) as [Hin|_]; [|done].
    apply elem_of_cons in Hin as [->|Hin]; done.
Qed.

Lemma dict_set_keys_NoDup k v d : NoDup d.*1 → NoDup (dict_set k v d).*1.
Proof.
  intros Hnd. rewrite dict_set_keys.
  destruct (decide (k ∈ d.*1)); [done|].
  apply NoDup_app. split; [done|]. split; [|apply NoDup_singleton].
  intros x Hx Hk. apply list_elem_of_singleton in Hk. by subst x.
Qed.

Lemma dict_set_keys_elem k v d k' :
  k' ∈ (dict_set k v d).*1 ↔ k' = k ∨ k' ∈ d.*1.
Proof.
  rewrite dict_set_keys. destruct (decide (k ∈ d.*1)) as [Hin|Hnin].
  - split; [by right | by intros [->|?]].
  - rewrite elem_of_app, list_elem_of_singleton. tauto.
Qed.

Lemma dict_get_elem k v d :
  NoDup d.*1 → (k, v) ∈ d → dict_get k d = Some v.
Proof.
  induction d as [|[k' v'] d IH]; simpl; intros Hnd Hin.
  { by apply elem_of_nil in Hin. }
  apply NoDup_cons in Hnd as [Hk' Hnd].
  apply elem_of_cons in Hin as [[= <- <-]|Hin].
  { by rewrite decide_True. }
  rewrite decide_False; [by apply IH|].
  intros ->. apply Hk'. by apply (list_elem_of_fmap_2 fst _ (k, v)).
Qed.

End DictKeys.

Lemma aggregate_keys events :
  NoDup (aggregate events).*1
  ∧ ∀ d, d ∈ (aggregate events).*1 ↔ decoded_on d events ≠ [].
Proof.
  induction events as [|[date_key event] events [IHnd IHin]] using rev_ind.
  { split; [apply NoDup_nil_2|]. intros d. simpl. split; [|done].
    intros Hin. by apply elem_of_nil in Hin. }
  rewrite aggregate_snoc. unfold process_event.
  destruct (decode_transfer_event event) as [t|] eqn:Hdec.
  - unfold observe. split; [by apply dict_set_keys_NoDup|].
    intros d. rewrite dict_set_keys_elem, IHin, decoded_on_snoc, Hdec.
    simpl. destruct (decide (date_key = d)) as [->|Hne].
    + split; [|by left]. intros _ Happ.
      by apply app_eq_nil in Happ as [_ ?].
    + rewrite app_nil_r. split; [|by right].
      intros [->|?]; done.
  - split; [done|]. intros d. rewrite IHin, decoded_on_snoc, Hdec. simpl.
    destruct (decide (date_key = d)); by rewrite app_nil_r.
Qed.

(** X8. A chunk gives one row per day: the rows made from the metrics of
    a chunk have pairwise different dates, and a day has a row exactly
    when at least one log of that day decodes. *)
Theorem chunk_rows_one_per_day (events : list (Z * RawLog)) :
  let rows := csv_row <$> aggregate events in
  NoDup (row_date <$> rows)
  ∧ ∀ date_key,
      date_key ∈ row_date <$> rows ↔ decoded_on date_key events ≠ [].
Proof.
  cbv zeta. rewrite <- list_fmap_compose.
  change (row_date ∘ csv_row) with (@fst Z Metrics).
  apply aggregate_keys.
Qed.

Lemma size_difference_le (X Y : gset Address) :
  (size (X ∖ Y) ≤ size X)%nat.
Proof.
  apply subseteq_size. intros x. rewrite elem_of_difference. tauto.
Qed.

Lemma size_list_to_set_le (l : list Address) :
  (size (list_to_set l : gset Address) ≤ length l)%nat.
Proof.
  induction l as [|a l IH].
  { rewrite list_to_set_nil, size_empty. simpl. lia. }
  rewrite list_to_set_cons, size_union_alt, size_singleton. cbn [length].
  pose proof (size_difference_le (list_to_set l) {[a]}). lia.
Qed.

Lemma size_list_to_set_pos (l : list Address) :
  l ≠ [] → (1 ≤ size (list_to_set l : gset Address))%nat.
Proof.
  destruct l as [|a l]; [done|]. intros _.
  rewrite list_to_set_cons, size_union_alt, size_singleton. lia.
Qed.

Lemma size_union_bounds (X Y : gset Address) :
  (size X ≤ size (X ∪ Y) ∧ size Y ≤ size (X ∪ Y)
   ∧ size (X ∪ Y) ≤ size X + size Y)%nat.
Proof.
  split; [apply subseteq_size, union_subseteq_l|].
  split; [apply subseteq_size, union_subseteq_r|].
  rewrite size_union_alt.
  pose proof (size_difference_le Y X). lia.
Qed.

(** X9. The numbers of a row fit together. In every row made from the
    metrics of a chunk there is at least one transaction, the numbers of
    unique senders and of unique receivers are at least 1 and at most the
    number of transactions, and the number of active addresses is at
    least each of the two and at most their sum. *)
Theorem chunk_rows_consistent (events : list (Z * RawLog)) :
  Forall
    (λ row,
       1 ≤ row_unique_senders row ≤ row_transactions row
       ∧ 1 ≤ row_unique_receivers row ≤ row_transactions row
       ∧ row_unique_senders row ≤ row_active_addresses row
       ∧ row_unique_receivers row ≤ row_active_addresses row
       ∧ row_active_addresses row
           ≤ row_unique_senders row + row_unique_receivers row)
    (csv_row <$> aggregate events).
Proof.
  apply Forall_fmap, Forall_forall. intros [d m] Hin.
  destruct (aggregate_keys events) as [Hnd Hkeys].
  pose proof (dict_get_elem d m _ Hnd Hin) as Hget.
  assert (Hd : decoded_on d events ≠ []).
  { apply Hkeys. by apply (list_elem_of_fmap_2 fst _ (d, m)). }
  destruct (metrics_at_aggregate events d) as (Htx & Hs & Hr & Ha & _).
  unfold metrics_at in *. rewrite Hget in *. simpl in *.
  unfold csv_row. simpl. rewrite Htx, Ha, Hs, Hr.
  set (transfers := decoded_on d events) in *.
  pose proof (size_list_to_set_le (from_address <$> transfers)) as Hsl.
  pose proof (size_list_to_set_le (to_address <$> transfers)) as Hrl.
  rewrite length_fmap in Hsl, Hrl.
  assert (Hne1 : from_address <$> transfers ≠ []).
  { intros H. by apply fmap_nil_inv in H. }
  assert (Hne2 : to_address <$> transfers ≠ []).
  { intros H. by apply fmap_nil_inv in H. }
  pose proof (size_list_to_set_pos _ Hne1).
  pose proof (size_list_to_set_pos _ Hne2).
  pose proof (size_union_bounds
                (list_to_set (from_address <$> transfers))
                (list_to_set (to_address <$> transfers))).
  lia.
Qed.

(** ** The column of transactions *)

Lemma sum_transactions_app df1 df2 :
  sum_transactions (df1 ++ df2) = sum_transactions df1 + sum_transactions df2.
Proof.
  unfold sum_transactions. induction df1 as [|row df1 IH]; simpl; lia.
Qed.

Lemma sum_transactions_cons row df :
  sum_transactions (row :: df) = row_transactions row + sum_transactions df.
Proof. reflexivity. Qed.

Lemma sum_transactions_dict_set k m (cm : dict Metrics) :
  sum_transactions (csv_row <$> dict_set k m cm) =
    sum_transactions (csv_row <$> cm)
      - transactions (metrics_at k cm) + transactions m.
Proof.
  unfold metrics_at.
  induction cm as [|[k' m'] cm IH]; cbn [dict_set dict_get].
  { simpl. lia. }
  destruct (decide (k' = k)) as [->|Hne];
    rewrite !fmap_cons, !sum_transactions_cons; simpl; lia.
Qed.

Lemma omap_snd_zip {A B C} (f : B → option C) (l : list A) (k : list B) :
  length l = length k →
  omap (λ e, f e.2) (zip l k) = omap f k.
Proof.
  revert k. induction l as [|a l IH]; intros [|b k] Hlen; simpl in *;
    try done.
  rewrite IH by lia. done.
Qed.

Lemma sum_transactions_aggregate events :
  sum_transactions (csv_row <$> aggregate events) =
    Z.of_nat (length (omap (λ e, decode_transfer_event e.2) events)).
Proof.
  induction events as [|[date_key event] events IH] using rev_ind; [done|].
  rewrite aggregate_snoc, omap_app, length_app. unfold process_event.
  simpl. destruct (decode_transfer_event event) as [t|]; simpl; [|lia].
  unfold observe. rewrite sum_transactions_dict_set. simpl. lia.
Qed.

(** X10. The column [transactions] counts every decoded log once. A
    successful attempt at a chunk raises the sum of the column in the CSV
    file by the number of logs it fetched that decode (on whatever days
    they fall), and a failed attempt leaves the file as it is. *)
Theorem attempt_adds_decoded_transactions
    (node : Node) (fromtimestamp : Z → option datetime)
    (current_block chunk_end end_block : Z) (w : World) :
  let r := try_chunk node fromtimestamp current_block chunk_end end_block w in
  match r.1 with
  | Ok _ =>
      ∃ events,
        get_logs node (rpc_calls w) current_block chunk_end = Some events
        ∧ sum_transactions (default [] (csv_file r.2)) =
            sum_transactions (default [] (csv_file w))
              + Z.of_nat (length (omap decode_transfer_event events))
  | Raised => csv_file r.2 = csv_file w
  | OutOfFuel => False
  end.
Proof.
  intros r. subst r.
  destruct (try_chunk_spec node fromtimestamp current_block chunk_end
              end_block w) as (evs & Hn & H).
  destruct (try_chunk _ _ _ _ _ w).1 as [[]| |]; [| |done].
  - destruct H as (events & dates & Hlogs & Hlen & Hcsv & _).
    exists events. split; [done|]. cbv zeta in Hcsv.
    pose proof (sum_transactions_aggregate (zip dates events)) as Hsum.
    rewrite omap_snd_zip in Hsum by done.
    rewrite Hcsv. destruct (aggregate (zip dates events)) as [|item cm].
    + change (sum_transactions (csv_row <$> [])) with 0 in Hsum. lia.
    + unfold csv_append. cbn [from_option id].
      rewrite sum_transactions_app. lia.
  - by destruct H as (Hc & _).
Qed.

(** ** The events of the scan loop *)

Lemma appended_app t1 t2 : appended (t1 ++ t2) = appended t1 ++ appended t2.
Proof. unfold appended. by rewrite omap_app, concat_app. Qed.

Lemma appended_neutral evs :
  Forall (λ e, neutral e = true) evs → appended evs = [].
Proof.
  induction 1 as [|e evs He _ IH]; [done|].
  change (e :: evs) with ([e] ++ evs). rewrite appended_app, IH.
  by destruct e.
Qed.

Lemma appended_lookups evs :
  Forall (λ e, is_lookup e = true) evs → appended evs = [].
Proof.
  induction 1 as [|e evs He _ IH]; [done|].
  change (e :: evs) with ([e] ++ evs). rewrite appended_app, IH.
  by destruct e.
Qed.

Lemma csv_after_app file rows1 rows2 :
  csv_after (csv_after file rows1) rows2 = csv_after file (rows1 ++ rows2).
Proof.
  destruct rows1 as [|r1 rows1]; [done|].
  destruct rows2 as [|r2 rows2]; simpl.
  - by rewrite app_nil_r.
  - by rewrite <- app_assoc.
Qed.

Lemma last_progress_app t1 t2 :
  last_progress (t1 ++ t2) =
    match last_progress t2 with
    | Some p => Some p
    | None => last_progress t1
    end.
Proof.
  unfold last_progress. rewrite omap_app.
  destruct (omap _ t2) as [|p l] using rev_ind.
  - by rewrite app_nil_r.
  - by rewrite app_assoc, !last_snoc.
Qed.

Lemma progress_after_app file t1 t2 :
  progress_after (progress_after file t1) t2 = progress_after file (t1 ++ t2).
Proof.
  unfold progress_after. rewrite last_progress_app.
  by destruct (last_progress t2).
Qed.

Lemma progress_after_quiet file evs :
  Forall (λ e, neutral e = true ∨ is_lookup e = true) evs →
  progress_after file evs = file.
Proof.
  intros H. revert file.
  induction H as [|e evs He _ IH]; intros file; [done|].
  change (e :: evs) with ([e] ++ evs).
  rewrite <- progress_after_app, IH.
  by destruct e, He.
Qed.

Lemma progress_after_neutral file evs :
  Forall (λ e, neutral e = true) evs → progress_after file evs = file.
Proof.
  intros H. apply progress_after_quiet.
  eapply Forall_impl; [exact H|]. intros e He. by left.
Qed.

Lemma progress_after_lookups file evs :
  Forall (λ e, is_lookup e = true) evs → progress_after file evs = file.
Proof.
  intros H. apply progress_after_quiet.
  eapply Forall_impl; [exact H|]. intros e He. by right.
Qed.

Section LoopEvents.

Variable node : Node.
Variable fromtimestamp : Z → option datetime.

Lemma scan_loop_events fuel : ∀ current_block end_block chunk_size w,
  let r :=
    scan_loop node fromtimestamp fuel current_block end_block chunk_size w in
  ∃ evs, trace r.2 = trace w ++ evs
    ∧ csv_file r.2 = csv_after (csv_file w) (appended evs)
    ∧ progress_file r.2 = progress_after (progress_file w) evs
    ∧ loop_events end_block current_block chunk_size evs
        (match r.1 with Ok exit => Some exit | _ => None end).
Proof.
  induction fuel as [|fuel IH]; intros cb eb cs w; simpl.
  { exists []. rewrite app_nil_r.
    destruct (cb <? eb) eqn:Hlt; simpl; repeat split; try constructor.
    apply Z.ltb_ge in Hlt. lia. }
  destruct (cb <? eb) eqn:Hlt; simpl.
  2: { exists []. rewrite app_nil_r. repeat split. constructor.
       apply Z.ltb_ge in Hlt. lia. }
  apply Z.ltb_lt in Hlt.
  set (ce := (cb + cs) `min` eb).
  unfold try_except.
  destruct (try_chunk_spec node fromtimestamp cb ce eb w) as (evs & Hn & H).
  destruct (try_chunk node fromtimestamp cb ce eb w) as [[[]| |] w1];
    simpl in H; [| |done].
  - destruct H as (events & dates & _ & _ & Hcsv & Hprog & Ht).
    destruct (IH (ce + 1) eb cs w1)
      as (rest & Ht' & Hcsv' & Hprog' & Hloop).
    exists (EGetLogs cb ce :: evs
            ++ [EAppendCsv (csv_row <$> aggregate (zip dates events));
                EWriteProgress (mkProgress cb eb ce); ESleep 500] ++ rest).
    split; [|split; [|split]].
    + rewrite Ht', Ht, <- app_assoc. simpl. by rewrite <- app_assoc.
    + rewrite Hcsv'.
      assert (Hw1 : csv_file w1 =
                csv_after (csv_file w)
                  (csv_row <$> aggregate (zip dates events))).
      { rewrite Hcsv. by destruct (aggregate (zip dates events)). }
      rewrite Hw1, csv_after_app. f_equal.
      change (EGetLogs cb ce :: ?l) with ([EGetLogs cb ce] ++ l).
      rewrite !appended_app, (appended_neutral _ Hn). simpl.
      unfold appended at 1 2. simpl. by rewrite app_nil_r.
    + rewrite Hprog', Hprog.
      change (EGetLogs cb ce :: ?l) with ([EGetLogs cb ce] ++ l).
      rewrite <- !progress_after_app.
      rewrite (progress_after_neutral _ _ Hn). done.
    + by apply loop_chunk.
  - destruct H as (Hc & Hp & Ht).
    destruct (cs / 2 <? 100) eqn:Hsmall; simpl.
    { apply Z.ltb_lt in Hsmall. exists (EGetLogs cb ce :: evs).
      split; [done|]. split; [|split; [|by apply loop_stop]].
      - change (EGetLogs cb ce :: evs) with ([EGetLogs cb ce] ++ evs).
        rewrite appended_app, (appended_neutral _ Hn). by rewrite Hc.
      - change (EGetLogs cb ce :: evs) with ([EGetLogs cb ce] ++ evs).
        rewrite <- progress_after_app, (progress_after_neutral _ _ Hn).
        by rewrite Hp. }
    apply Z.ltb_ge in Hsmall. rewrite bind_run. simpl.
    destruct (IH cb eb (cs / 2) (emit (ESleep 2000) w1))
      as (rest & Ht' & Hcsv' & Hprog' & Hloop).
    exists (EGetLogs cb ce :: evs ++ ESleep 2000 :: rest).
    split; [|split; [|split]].
    + rewrite Ht'. simpl. rewrite Ht. trace_eq.
    + rewrite Hcsv'. simpl. rewrite Hc. f_equal.
      change (EGetLogs cb ce :: ?l) with ([EGetLogs cb ce] ++ l).
      change (ESleep 2000 :: rest) with ([ESleep 2000] ++ rest).
      by rewrite !appended_app, (appended_neutral _ Hn).
    + rewrite Hprog'. simpl. rewrite Hp.
      change (EGetLogs cb ce :: ?l) with ([EGetLogs cb ce] ++ l).
      change (ESleep 2000 :: rest) with ([ESleep 2000] ++ rest).
      rewrite <- !progress_after_app.
      by rewrite (progress_after_neutral _ _ Hn).
    + by apply loop_retry.
Qed.

End LoopEvents.

Lemma committed_app t1 t2 : committed (t1 ++ t2) = committed t1 ++ committed t2.
Proof. apply omap_app. Qed.

Lemma committed_neutral evs :
  Forall (λ e, neutral e = true) evs → committed evs = [].
Proof.
  induction 1 as [|e evs He _ IH]; [done|].
  simpl. rewrite IH. by destruct e.
Qed.

Lemma fetches_app t1 t2 : fetches (t1 ++ t2) = fetches t1 ++ fetches t2.
Proof. apply omap_app. Qed.

Lemma fetches_neutral evs :
  Forall (λ e, neutral e = true) evs → fetches evs = [].
Proof.
  induction 1 as [|e evs He _ IH]; [done|].
  simpl. rewrite IH. by destruct e.
Qed.

Lemma times_in_cons n a b ranges :
  times_in n ((a, b) :: ranges) =
    ((if decide (a ≤ n ≤ b)%Z then 1 else 0) + times_in n ranges)%nat.
Proof.
  unfold times_in. rewrite filter_cons. simpl.
  by destruct (decide (a ≤ n ≤ b)).
Qed.

(** The chunks the loop marks as processed follow one another without a
    gap and without an overlap. *)
Lemma loop_events_committed end_block current_block chunk_size evs exit :
  loop_events end_block current_block chunk_size evs (Some exit) →
  0 ≤ chunk_size →
  current_block ≤ exit_current_block exit
  ∧ exit_current_block exit ≤ Z.max current_block (end_block + 1)
  ∧ (∀ n, times_in n (committed evs) =
          if decide (current_block ≤ n < exit_current_block exit)
          then 1%nat else 0%nat)
  ∧ match exit with
    | Exhausted _ _ => end_block ≤ exit_current_block exit
    | Stopped _ _ => exit_current_block exit < end_block
    end.
Proof.
  intros Hloop. remember (Some exit) as outcome eqn:Hout.
  revert exit Hout.
  induction Hloop as [cb cs Hge | cb cs | cb cs evs rows rest outcome
                        Hlt Hn Hloop IH | cb cs evs Hlt Hn Hsmall
                      | cb cs evs rest outcome Hlt Hn Hbig Hloop IH];
    intros exit Hout Hcs.
  - injection Hout as <-. simpl. repeat split; try lia.
    intros n. by rewrite decide_False by lia.
  - done.
  - destruct (IH exit Hout Hcs) as (Hlo & Hhi & Htimes & Hexit).
    set (ce := (cb + cs) `min` end_block) in *.
    assert (cb ≤ ce ≤ end_block) by (subst ce; lia).
    split; [lia|]. split; [lia|]. split; [|done].
    intros n.
    change (EGetLogs cb ce :: ?l) with ([EGetLogs cb ce] ++ l).
    rewrite !committed_app, (committed_neutral _ Hn). simpl.
    rewrite times_in_cons, Htimes.
    destruct (decide (cb ≤ n ≤ ce)), (decide (ce + 1 ≤ n < _)),
      (decide (cb ≤ n < _)); lia.
  - injection Hout as <-. simpl. split; [lia|]. split; [lia|].
    split; [|done]. intros n. rewrite (committed_neutral _ Hn).
    by rewrite decide_False by lia.
  - assert (0 ≤ cs / 2) by (apply Z.div_pos; lia).
    destruct (IH exit Hout ltac:(done)) as (Hlo & Hhi & Htimes & Hexit).
    split; [lia|]. split; [lia|]. split; [|done].
    intros n.
    change (EGetLogs cb ?ce :: ?l) with ([EGetLogs cb ce] ++ l).
    change (ESleep 2000 :: rest) with ([ESleep 2000] ++ rest).
    rewrite !committed_app, (committed_neutral _ Hn). simpl.
    apply Htimes.
Qed.

(** Every request for logs stays inside the range and the chunk size. *)
Lemma loop_events_fetches end_block current_block chunk_size evs outcome :
  loop_events end_block current_block chunk_size evs outcome →
  0 ≤ chunk_size →
  Forall (λ r, current_block ≤ r.1 ∧ r.1 < end_block
               ∧ r.1 ≤ r.2 ∧ r.2 ≤ end_block
               ∧ r.2 - r.1 ≤ chunk_size)
    (fetches evs).
Proof.
  induction 1 as [cb cs Hge | cb cs | cb cs evs rows rest outcome
                    Hlt Hn Hloop IH | cb cs evs Hlt Hn Hsmall
                  | cb cs evs rest outcome Hlt Hn Hbig Hloop IH];
    intros Hcs.
  - constructor.
  - constructor.
  - change (EGetLogs cb ?ce :: ?l) with ([EGetLogs cb ce] ++ l).
    rewrite !fetches_app, (fetches_neutral _ Hn). simpl.
    constructor; [simpl; lia|].
    eapply Forall_impl; [exact (IH Hcs)|]. simpl. lia.
  - change (EGetLogs cb ?ce :: ?l) with ([EGetLogs cb ce] ++ l).
    rewrite !fetches_app, (fetches_neutral _ Hn). simpl.
    constructor; [simpl; lia | constructor].
  - assert (0 ≤ cs / 2 ≤ cs).
    { split; [apply Z.div_pos; lia | apply Z.div_le_upper_bound; lia]. }
    change (EGetLogs cb ?ce :: ?l) with ([EGetLogs cb ce] ++ l).
    change (ESleep 2000 :: rest) with ([ESleep 2000] ++ rest).
    rewrite !fetches_app, (fetches_neutral _ Hn). simpl.
    constructor; [simpl; lia|].
    eapply Forall_impl; [apply IH; lia|]. simpl. lia.
Qed.

Lemma paced_no_logs evs : ∀ rested,
  Forall (λ e, no_logs e = true) evs → paced rested evs = true.
Proof.
  induction evs as [|e evs IH]; intros rested Hevs; [done|].
  apply Forall_cons in Hevs as [He Hevs].
  destruct e; try done; simpl; by apply IH.
Qed.

Lemma paced_after_sleep evs : ∀ rested ms rest,
  Forall (λ e, no_logs e = true) evs →
  500 ≤ ms →
  paced rested (evs ++ ESleep ms :: rest) = paced true rest.
Proof.
  induction evs as [|e evs IH]; intros rested ms rest Hevs Hms.
  { simpl. apply Z.leb_le in Hms. rewrite Hms. by rewrite orb_true_r. }
  apply Forall_cons in Hevs as [He Hevs].
  destruct e; try done; simpl; by apply IH.
Qed.

Lemma paced_true_prefix evs rest :
  Forall (λ e, no_logs e = true) evs →
  paced true (evs ++ rest) = paced true rest.
Proof.
  induction evs as [|e evs IH]; intros Hevs; [done|].
  apply Forall_cons in Hevs as [He Hevs].
  destruct e; try done; simpl; by apply IH.
Qed.

Lemma neutral_no_logs evs :
  Forall (λ e, neutral e = true) evs → Forall (λ e, no_logs e = true) evs.
Proof. intros H. eapply Forall_impl; [exact H|]. by intros []. Qed.

Lemma loop_events_paced end_block current_block chunk_size evs outcome :
  loop_events end_block current_block chunk_size evs outcome →
  paced true evs = true.
Proof.
  induction 1 as [cb cs Hge | cb cs | cb cs evs rows rest outcome
                    Hlt Hn Hloop IH | cb cs evs Hlt Hn Hsmall
                  | cb cs evs rest outcome Hlt Hn Hbig Hloop IH].
  - done.
  - done.
  - cbn [paced andb].
    replace (evs ++ [EAppendCsv rows; EWriteProgress _; ESleep 500] ++ rest)
      with ((evs ++ [EAppendCsv rows;
                     EWriteProgress
                       (mkProgress cb end_block
                          ((cb + cs) `min` end_block))])
            ++ ESleep 500 :: rest)
      by (by rewrite <- app_assoc).
    rewrite paced_after_sleep; [done| |lia].
    apply Forall_app. split; [by apply neutral_no_logs|].
    by repeat constructor.
  - cbn [paced andb]. by apply paced_no_logs, neutral_no_logs.
  - cbn [paced andb].
    rewrite paced_after_sleep; [done | by apply neutral_no_logs | lia].
Qed.

(** A run is the two searches, then, unless a bound is missing or a
    request for the height was refused, the first progress marker and the
    scan loop. *)
Lemma get_token_metrics_run
    (node : Node) (fromtimestamp : Z → option datetime)
    (start_timestamp end_timestamp chunk_size : Z) (w : World) r :
  get_token_metrics node fromtimestamp
    start_timestamp end_timestamp chunk_size w = r →
  (∃ evs, Forall (λ e, is_lookup e = true) evs ∧ quiet w r.2 evs)
  ∨ (∃ cb eb evs w3,
       Forall (λ e, is_lookup e = true) evs
       ∧ csv_file w3 = csv_file w
       ∧ progress_file w3 = Some (mkProgress cb eb cb)
       ∧ trace w3 = trace w ++ evs ++ [EWriteProgress (mkProgress cb eb cb)]
       ∧ r.2 = (scan_loop node fromtimestamp (scan_fuel cb eb chunk_size)
                  cb eb chunk_size w3).2).
Proof.
  unfold get_token_metrics. rewrite bind_run.
  destruct (find_block_by_timestamp_quiet node start_timestamp w)
    as (evs1 & (Hc1 & Hp1 & Ht1) & Hg1).
  destruct (find_block_by_timestamp node start_timestamp w)
    as [[current_block| |] w1]; simpl in Hc1, Hp1, Ht1;
    try (intros <-; left; by exists evs1).
  rewrite bind_run.
  destruct (find_block_by_timestamp_quiet node end_timestamp w1)
    as (evs2 & (Hc2 & Hp2 & Ht2) & Hg2).
  pose proof (proj2 (Forall_app _ evs1 evs2) (conj Hg1 Hg2)) as Hg.
  assert (Hq : ∀ w2, csv_file w2 = csv_file w1 →
            progress_file w2 = progress_file w1 →
            trace w2 = trace w1 ++ evs2 → quiet w w2 (evs1 ++ evs2)).
  { intros w2 Hc Hp Ht. unfold quiet.
    rewrite Hc, Hp, Ht, Hc1, Hp1, Ht1. repeat split. by rewrite app_assoc. }
  destruct (find_block_by_timestamp node end_timestamp w1)
    as [[end_block| |] w2]; simpl in Hc2, Hp2, Ht2;
    try (intros <-; left; exists (evs1 ++ evs2); split; [done|];
         by apply Hq).
  destruct (falsy current_block || falsy end_block).
  { intros <-. left. exists (evs1 ++ evs2). split; [done|]. by apply Hq. }
  set (cb := default 0 current_block). set (eb := default 0 end_block).
  rewrite bind_run. unfold write_progress at 1.
  set (w3 := emit _ _). rewrite bind_run.
  intros <-. right. exists cb, eb, (evs1 ++ evs2), w3.
  split; [done|]. split; [|split; [done|split]].
  - subst w3. simpl. by rewrite Hc2, Hc1.
  - subst w3. simpl. rewrite Ht2, Ht1. by rewrite <- !app_assoc.
  - by destruct (scan_loop _ _ _ _ _ _ w3) as [[exit| |] w4].
Qed.

(** What a run leaves in the two files is what its events say: the rows
    of its appends behind what the CSV file held, and the last progress
    marker it wrote. *)
Lemma get_token_metrics_files
    (node : Node) (fromtimestamp : Z → option datetime)
    (start_timestamp end_timestamp chunk_size : Z) (w : World) r :
  get_token_metrics node fromtimestamp
    start_timestamp end_timestamp chunk_size w = r →
  ∃ evs, trace r.2 = trace w ++ evs
    ∧ csv_file r.2 = csv_after (csv_file w) (appended evs)
    ∧ progress_file r.2 = progress_after (progress_file w) evs.
Proof.
  intros Hr.
  destruct (get_token_metrics_run node fromtimestamp start_timestamp
              end_timestamp chunk_size w r Hr)
    as [(evs & Hg & Hc & Hp & Ht)
       |(cb & eb & evs & w3 & Hg & Hc & Hp & Ht & Hw)].
  - exists evs. split; [done|].
    by rewrite (appended_lookups _ Hg), (progress_after_lookups _ _ Hg).
  - destruct (scan_loop_events node fromtimestamp
                (scan_fuel cb eb chunk_size) cb eb chunk_size w3)
      as (rest & Ht' & Hcsv & Hprog & _).
    exists ((evs ++ [EWriteProgress (mkProgress cb eb cb)]) ++ rest).
    rewrite Hw, Ht', Hcsv, Hprog, Ht, Hc, Hp.
    split; [by rewrite <- !app_assoc|]. split.
    + by rewrite !appended_app, (appended_lookups _ Hg).
    + rewrite <- !progress_after_app.
      by rewrite (progress_after_lookups _ _ Hg).
Qed.



(** X11. The CSV file is only ever appended to. After a run of
    [get_token_metrics], on whatever node and with whatever chunk size,
    the file holds what it held before followed by the rows of the run's
    appends, in their order; it is created by the first row written and
    stays absent when no row is written. A data frame that the function
    returns is the content of the file. *)
Theorem csv_file_is_append_only
    (node : Node) (fromtimestamp : Z → option datetime)
    (start_timestamp end_timestamp chunk_size : Z) (w : World) :
  let r := get_token_metrics node fromtimestamp
             start_timestamp end_timestamp chunk_size w in
  (∃ evs, trace r.2 = trace w ++ evs
     ∧ csv_file r.2 = csv_after (csv_file w) (appended evs))
  ∧ ∀ frame, r.1 = Ok (Some frame) → csv_file r.2 = Some frame.
Proof.
  intros r. split.
  - destruct (get_token_metrics_files node fromtimestamp start_timestamp
                end_timestamp chunk_size w r eq_refl)
      as (evs & Ht & Hcsv & _).
    by exists evs.
  - intros frame Hframe.
    destruct (get_token_metrics_result node fromtimestamp start_timestamp
                end_timestamp chunk_size w r eq_refl _ Hframe); done.
Qed.

(** X12. A run never hangs, and only a refused request for the height of
    the chain stops it with an exception. With a chunk size that is not
    negative, [get_token_metrics] comes back on every node, however it
    answers and whenever it fails: either it returns, a data frame or
    [None], or it raises, and then the node has refused a request for the
    height ([w3.eth.block_number] is read outside every [try]). On a node
    that answers every request for the height it returns. *)
Theorem get_token_metrics_terminates
    (node : Node) (fromtimestamp : Z → option datetime)
    (start_timestamp end_timestamp chunk_size : Z) (w : World) :
  0 ≤ chunk_size →
  let r := get_token_metrics node fromtimestamp
             start_timestamp end_timestamp chunk_size w in
  match r.1 with
  | Ok _ => True
  | Raised => ∃ i, (rpc_calls w ≤ i)%nat ∧ block_number node i = None
  | OutOfFuel => False
  end
  ∧ ((∀ i, is_Some (block_number node i)) → ∃ frame, r.1 = Ok frame).
Proof.
  intros Hcs r. subst r.
  pose proof (get_token_metrics_returns node fromtimestamp start_timestamp
                end_timestamp chunk_size w Hcs) as H.
  split; [exact H|]. intros Hheight.
  destruct (get_token_metrics _ _ _ _ _ w).1 as [frame| |];
    [by exists frame | | done].
  destruct H as (i & _ & Hnone).
  destruct (Hheight i) as [height Hsome]. congruence.
Qed.

Lemma get_token_metrics_terminates_witness :
  0 ≤ 1000
  ∧ let r := get_token_metrics dead_node utc_fromtimestamp 100 500 1000
               fresh_world in
    match r.1 with
    | Ok _ => True
    | Raised =>
        ∃ i, (rpc_calls fresh_world ≤ i)%nat
          ∧ block_number dead_node i = None
    | OutOfFuel => False
    end
    ∧ ((∀ i, is_Some (block_number dead_node i)) → ∃ frame, r.1 = Ok frame).
Proof.
  split; [lia|].
  apply (get_token_metrics_terminates dead_node utc_fromtimestamp
           100 500 1000 fresh_world). lia.
Defined.

(** X13. The chunks the loop marks as processed tile the range. When the
    scan loop runs with a chunk size that is not negative and ends with
    [current_block] at [b], on whatever node, every block from where the
    loop began up to [b - 1] lies in exactly one chunk that a progress
    marker of the loop reports (by its [start_block] and
    [last_processed]), and no other block lies in any. When the loop ends
    because the range is exhausted, [b] is [end_block] or [end_block + 1],
    or the block the loop began with when that is beyond; when it ends
    with the [break], [b] is below [end_block]. *)
Theorem scan_loop_commits_each_block_once
    (node : Node) (fromtimestamp : Z → option datetime) (fuel : nat)
    (current_block end_block chunk_size : Z) (w : World) :
  0 ≤ chunk_size →
  Z.max 0 (end_block - current_block) + chunk_size ≤ Z.of_nat fuel →
  let r :=
    scan_loop node fromtimestamp fuel current_block end_block chunk_size w in
  ∃ exit evs,
    r.1 = Ok exit
    ∧ trace r.2 = trace w ++ evs
    ∧ (∀ n, times_in n (committed evs) =
            if decide (current_block ≤ n < exit_current_block exit)
            then 1%nat else 0%nat)
    ∧ current_block ≤ exit_current_block exit
    ∧ exit_current_block exit ≤ Z.max current_block (end_block + 1)
    ∧ match exit with
      | Exhausted _ _ => end_block ≤ exit_current_block exit
      | Stopped _ _ => exit_current_block exit < end_block
      end.
Proof.
  intros Hcs Hfuel r. subst r.
  destruct (scan_loop_returns node fromtimestamp fuel current_block end_block
              chunk_size w Hcs Hfuel) as [exit Hexit].
  destruct (scan_loop_events node fromtimestamp fuel current_block end_block
              chunk_size w) as (evs & Ht & _ & _ & Hloop).
  cbv zeta in Hloop. rewrite Hexit in Hloop.
  destruct (loop_events_committed _ _ _ _ _ Hloop Hcs)
    as (Hlo & Hhi & Htimes & Hend).
  by exists exit, evs.
Qed.

Lemma scan_loop_commits_each_block_once_witness :
  0 ≤ 2
  ∧ Z.max 0 (5 - 1) + 2 ≤ Z.of_nat 6
  ∧ let r := scan_loop scenario_node utc_fromtimestamp 6 1 5 2 fresh_world in
    ∃ exit evs,
      r.1 = Ok exit
      ∧ trace r.2 = trace fresh_world ++ evs
      ∧ (∀ n, times_in n (committed evs) =
              if decide (1 ≤ n < exit_current_block exit)
              then 1%nat else 0%nat)
      ∧ 1 ≤ exit_current_block exit
      ∧ exit_current_block exit ≤ Z.max 1 (5 + 1)
      ∧ match exit with
        | Exhausted _ _ => 5 ≤ exit_current_block exit
        | Stopped _ _ => exit_current_block exit < 5
        end.
Proof.
  split; [lia|]. split; [lia|].
  apply (scan_loop_commits_each_block_once scenario_node utc_fromtimestamp
           6 1 5 2 fresh_world); lia.
Defined.

(** X14. The loop never asks for logs outside its range or beyond its
    chunk size. With a chunk size that is not negative, every request for
    logs [fromBlock..toBlock] of the scan loop, on whatever node, starts
    at or after the block where the loop began and below [end_block],
    ends at or before [end_block], is not empty, and spans at most
    [chunk_size + 1] blocks. *)
Theorem scan_loop_requests_within_range
    (node : Node) (fromtimestamp : Z → option datetime) (fuel : nat)
    (current_block end_block chunk_size : Z) (w : World) :
  0 ≤ chunk_size →
  let r :=
    scan_loop node fromtimestamp fuel current_block end_block chunk_size w in
  ∃ evs,
    trace r.2 = trace w ++ evs
    ∧ Forall (λ request,
                current_block ≤ request.1 ∧ request.1 < end_block
                ∧ request.1 ≤ request.2 ∧ request.2 ≤ end_block
                ∧ request.2 - request.1 ≤ chunk_size)
        (fetches evs).
Proof.
  intros Hcs r. subst r.
  destruct (scan_loop_events node fromtimestamp fuel current_block end_block
              chunk_size w) as (evs & Ht & _ & _ & Hloop).
  exists evs. split; [done|].
  by eapply loop_events_fetches.
Qed.

Lemma scan_loop_requests_within_range_witness :
  0 ≤ 2
  ∧ let r := scan_loop scenario_node utc_fromtimestamp 6 1 5 2 fresh_world in
    ∃ evs,
      trace r.2 = trace fresh_world ++ evs
      ∧ Forall (λ request,
                  1 ≤ request.1 ∧ request.1 < 5
                  ∧ request.1 ≤ request.2 ∧ request.2 ≤ 5
                  ∧ request.2 - request.1 ≤ 2)
          (fetches evs).
Proof.
  split; [lia|].
  apply (scan_loop_requests_within_range scenario_node utc_fromtimestamp 6 1 5 2
           fresh_world); lia.
Defined.

(** X15. A run never sends two requests for logs without a pause. In the
    events of every run of [get_token_metrics], on whatever node and with
    whatever chunk size, each request for logs after the first comes
    after a sleep of at least half a second since the request for logs
    before it. *)
Theorem get_token_metrics_paced
    (node : Node) (fromtimestamp : Z → option datetime)
    (start_timestamp end_timestamp chunk_size : Z) (w : World) :
  let r := get_token_metrics node fromtimestamp
             start_timestamp end_timestamp chunk_size w in
  ∃ evs, trace r.2 = trace w ++ evs ∧ paced true evs = true.
Proof.
  intros r.
  assert (Hgb : ∀ evs, Forall (λ e, is_lookup e = true) evs →
            Forall (λ e, no_logs e = true) evs).
  { intros evs H. eapply Forall_impl; [exact H|]. by intros []. }
  destruct (get_token_metrics_run node fromtimestamp start_timestamp
              end_timestamp chunk_size w r eq_refl)
    as [(evs & Hg & _ & _ & Ht)
       |(cb & eb & evs & w3 & Hg & _ & _ & Ht & Hr)].
  - exists evs. split; [done|]. by apply paced_no_logs, Hgb.
  - destruct (scan_loop_events node fromtimestamp
                (scan_fuel cb eb chunk_size) cb eb chunk_size w3)
      as (rest & Ht' & _ & _ & Hloop).
    exists ((evs ++ [EWriteProgress (mkProgress cb eb cb)]) ++ rest).
    rewrite Hr, Ht', Ht. split; [by rewrite <- !app_assoc|].
    rewrite paced_true_prefix; [by eapply loop_events_paced|].
    apply Forall_app. split; [by apply Hgb | by repeat constructor].
Qed.


(** ** The requests of an attempt *)

Section Requests.

Variable node : Node.
Variable fromtimestamp : Z → option datetime.

Lemma get_block_timestamp_calls n w :
  (rpc_calls w + 1
   ≤ rpc_calls (get_block_timestamp node fromtimestamp n w).2
   ≤ rpc_calls w + 3)%nat.
Proof.
  destruct (get_block_timestamp_run node fromtimestamp n w)
    as (r & w' & evs & -> & _ & _ & _ & Hcalls).
  exact Hcalls.
Qed.

Lemma for_events_calls events : ∀ cm w,
  match (for_events node fromtimestamp events cm w).1 with
  | Ok _ =>
      (rpc_calls w + length events
       ≤ rpc_calls (for_events node fromtimestamp events cm w).2
       ≤ rpc_calls w + 3 * length events)%nat
  | _ => True
  end.
Proof.
  induction events as [|event events IH]; intros cm w.
  { simpl. lia. }
  cbn [for_events]. rewrite bind_run.
  pose proof (get_block_timestamp_calls (blockNumber event) w) as Hcalls.
  destruct (get_block_timestamp node fromtimestamp (blockNumber event) w)
    as [[t| |] w1]; [|done|done].
  simpl in Hcalls.
  specialize (IH (process_event (date t) event cm) w1).
  destruct (for_events node fromtimestamp events _ w1) as [[cm'| |] w2];
    [|done|done].
  simpl in *. lia.
Qed.

End Requests.

(** X16. Every log costs a request of its own. A successful attempt at a
    chunk that fetched [n] logs has sent one request for the logs and
    between [n] and [3 n] requests for blocks: the timestamp of the block
    is asked for once per log, also when several logs lie in one block,
    and up to three times when the node refuses. *)
Theorem attempt_requests_per_log
    (node : Node) (fromtimestamp : Z → option datetime)
    (current_block chunk_end end_block : Z) (w : World) :
  let r := try_chunk node fromtimestamp current_block chunk_end end_block w in
  match r.1 with
  | Ok _ =>
      ∃ events,
        get_logs node (rpc_calls w) current_block chunk_end = Some events
        ∧ (rpc_calls w + 1 + length events ≤ rpc_calls r.2
           ≤ rpc_calls w + 1 + 3 * length events)%nat
  | _ => True
  end.
Proof.
  cbv zeta. unfold try_chunk. rewrite bind_run. unfold rpc_get_logs.
  destruct (get_logs node (rpc_calls w) current_block chunk_end)
    as [events|]; simpl; [|done].
  set (w0 := emit _ (next_call w)).
  assert (Hw0 : rpc_calls w0 = S (rpc_calls w)) by done.
  rewrite bind_run.
  pose proof (for_events_calls node fromtimestamp events [] w0) as Hcalls.
  destruct (for_events node fromtimestamp events [] w0) as [[cm| |] w1];
    [|done|done].
  simpl in Hcalls. rewrite !bind_run.
  unfold append_chunk_data, write_progress, sleep.
  destruct cm; simpl; (exists events; split; [done | lia]).
Qed.

Lemma find_block_by_timestamp_refused node target w height :
  block_number node (rpc_calls w) = Some height →
  1 ≤ height →
  get_block node (S (rpc_calls w)) ((1 + height) / 2) = None →
  find_block_by_timestamp node target w =
    (Ok None,
     emit (EGetBlock ((1 + height) / 2))
       (next_call (emit EBlockNumber (next_call w)))).
Proof.
  intros Hheight Hh Hrefused. unfold find_block_by_timestamp.
  rewrite bind_run. unfold rpc_block_number. rewrite Hheight. simpl.
  destruct (Z.to_nat height) as [|fuel] eqn:Hfuel; [lia|].
  cbn [bisect].
  assert (Hle : (1 <=? height) = true) by (apply Z.leb_le; lia).
  rewrite Hle. unfold try_except, rpc_get_block. simpl.
  by rewrite Hrefused.
Qed.

(** X17. The search for a block does not retry a refused request for a
    block. When the node reports a height of at least 1 and then refuses
    the first request for a block of a run, the one for the middle block
    of the chain, the first search gives [None]: [get_token_metrics] asks
    for no logs, leaves the CSV file and the progress file as they were,
    and returns [None], unless the node later refuses a request for the
    height, whose exception then leaves the function. *)
Theorem refused_search_aborts_run
    (node : Node) (fromtimestamp : Z → option datetime)
    (start_timestamp end_timestamp chunk_size : Z) (w : World)
    (height : Z) :
  block_number node (rpc_calls w) = Some height →
  1 ≤ height →
  get_block node (S (rpc_calls w)) ((1 + height) / 2) = None →
  let r := get_token_metrics node fromtimestamp
             start_timestamp end_timestamp chunk_size w in
  (r.1 = Ok None
   ∨ r.1 = Raised
     ∧ ∃ i, (rpc_calls w < i)%nat ∧ block_number node i = None)
  ∧ csv_file r.2 = csv_file w
  ∧ progress_file r.2 = progress_file w
  ∧ ∃ evs, trace r.2 = trace w ++ evs
      ∧ Forall (λ e, is_lookup e = true) evs.
Proof.
  intros Hheight Hh Hrefused. cbv zeta.
  unfold get_token_metrics. rewrite bind_run.
  rewrite (find_block_by_timestamp_refused node start_timestamp w height
             Hheight Hh Hrefused).
  set (w1 := emit _ (next_call (emit EBlockNumber (next_call w)))).
  assert (Hw1 : rpc_calls w1 = S (S (rpc_calls w))) by done.
  rewrite bind_run.
  destruct (find_block_by_timestamp_quiet node end_timestamp w1)
    as (evs & (Hc & Hp & Ht) & Hg).
  pose proof (find_block_by_timestamp_returns node end_timestamp w1)
    as Hend.
  assert (Hevs : Forall (λ e, is_lookup e = true)
                   (EBlockNumber :: EGetBlock ((1 + height) / 2) :: evs))
    by (by repeat constructor).
  assert (Htrace : trace w1 ++ evs =
            trace w ++ EBlockNumber :: EGetBlock ((1 + height) / 2) :: evs).
  { subst w1. simpl. by rewrite <- !app_assoc. }
  assert (Hc1 : csv_file w1 = csv_file w) by done.
  assert (Hp1 : progress_file w1 = progress_file w) by done.
  clearbody w1.
  destruct (find_block_by_timestamp node end_timestamp w1)
    as [[end_block| |] w2]; simpl in Hc, Hp, Ht, Hend; [| |done].
  - simpl. rewrite Hc, Hp, Ht, Htrace, Hc1, Hp1.
    split; [by left|]. do 2 (split; [done|]). by eexists.
  - simpl. rewrite Hc, Hp, Ht, Htrace, Hc1, Hp1.
    split; [|do 2 (split; [done|]); by eexists].
    right. split; [done|]. destruct Hend as (i & Hi & Hnone).
    exists i. split; [lia | done].
Qed.

Lemma refused_search_aborts_run_witness :
  block_number flaky_node (rpc_calls (next_call fresh_world)) = Some 5
  ∧ 1 ≤ 5
  ∧ get_block flaky_node (S (rpc_calls (next_call fresh_world)))
      ((1 + 5) / 2) = None
  ∧ let r := get_token_metrics flaky_node utc_fromtimestamp 100 500 1000
               (next_call fresh_world) in
    (r.1 = Ok None
     ∨ r.1 = Raised
       ∧ ∃ i, (rpc_calls (next_call fresh_world) < i)%nat
           ∧ block_number flaky_node i = None)
    ∧ csv_file r.2 = csv_file (next_call fresh_world)
    ∧ progress_file r.2 = progress_file (next_call fresh_world)
    ∧ ∃ evs, trace r.2 = trace (next_call fresh_world) ++ evs
        ∧ Forall (λ e, is_lookup e = true) evs.
Proof.
  split; [reflexivity|]. split; [lia|]. split; [reflexivity|].
  apply (refused_search_aborts_run flaky_node utc_fromtimestamp 100 500 1000
           (next_call fresh_world) 5); [reflexivity | lia | reflexivity].
Defined.

(** ** A scan on a node that answers *)

Lemma logs_between_empty logs a b : b < a → logs_between logs a b = [].
Proof.
  intros Hlt. unfold logs_between.
  induction logs as [|l logs IH]; [done|].
  rewrite filter_cons, decide_False by lia. exact IH.
Qed.

Lemma logs_between_Forall (P : RawLog → Prop) logs a b :
  Forall P logs → Forall P (logs_between logs a b).
Proof.
  intros H. unfold logs_between.
  induction H as [|l logs Hl _ IH]; [constructor|].
  rewrite filter_cons. destruct (decide _); [by constructor | done].
Qed.

Lemma logs_between_split {A} (f : RawLog → option A) logs a b c :
  a ≤ b + 1 → b ≤ c →
  length (omap f (logs_between logs a c)) =
    (length (omap f (logs_between logs a b))
     + length (omap f (logs_between logs (b + 1) c)))%nat.
Proof.
  intros Hab Hbc. unfold logs_between.
  induction logs as [|l logs IH]; [done|].
  rewrite !filter_cons.
  destruct (decide (a ≤ blockNumber l ∧ blockNumber l ≤ c)) as [Hac|Hac],
    (decide (a ≤ blockNumber l ∧ blockNumber l ≤ b)) as [Hb|Hb],
    (decide (b + 1 ≤ blockNumber l ∧ blockNumber l ≤ c)) as [Hc|Hc];
    try lia; simpl; destruct (f l); simpl; unfold omap in *; lia.
Qed.

Section Answering.

Variable node : Node.
Variable fromtimestamp : Z → option datetime.
Variable height : Z.
Variable logs : list RawLog.
Hypothesis Hblocks : never_thrice node fromtimestamp height.
Hypothesis Hlogs :
  ∀ i a b, get_logs node i a b = Some (logs_between logs a b).
Hypothesis Hchain : Forall (λ l, 1 ≤ blockNumber l ≤ height) logs.

Lemma scan_loop_counts fuel : ∀ current_block end_block chunk_size w,
  0 ≤ chunk_size →
  Z.max 0 (end_block - current_block) ≤ Z.of_nat fuel →
  let r :=
    scan_loop node fromtimestamp fuel current_block end_block chunk_size w in
  ∃ b,
    r.1 = Ok (Exhausted b chunk_size)
    ∧ current_block ≤ b
    ∧ end_block ≤ b ≤ Z.max current_block (end_block + 1)
    ∧ sum_transactions (default [] (csv_file r.2)) =
        sum_transactions (default [] (csv_file w))
          + Z.of_nat
              (length (omap decode_transfer_event
                         (logs_between logs current_block (b - 1)))).
Proof.
  induction fuel as [|fuel IH]; intros cb eb cs w Hcs Hfuel; simpl.
  { destruct (cb <? eb) eqn:Hlt; [apply Z.ltb_lt in Hlt; lia|].
    apply Z.ltb_ge in Hlt. exists cb. simpl.
    rewrite logs_between_empty by lia. simpl. repeat split; lia. }
  destruct (cb <? eb) eqn:Hlt.
  2: { apply Z.ltb_ge in Hlt. exists cb. simpl.
       rewrite logs_between_empty by lia. simpl. repeat split; lia. }
  apply Z.ltb_lt in Hlt.
  set (ce := (cb + cs) `min` eb).
  assert (Hce : cb ≤ ce ≤ eb) by (subst ce; lia).
  unfold try_except.
  pose proof (try_chunk_absorbs node fromtimestamp height cb ce eb w
                Hblocks) as Hok.
  rewrite Hlogs in Hok.
  specialize (Hok (logs_between_Forall _ logs cb ce Hchain)).
  destruct (try_chunk_spec node fromtimestamp cb ce eb w) as (evs & _ & H).
  destruct (try_chunk node fromtimestamp cb ce eb w) as [[[]| |] w1];
    simpl in Hok, H; try done.
  destruct H as (events & dates & Hev & Hlen & Hcsv & _).
  rewrite Hlogs in Hev. injection Hev as <-.
  assert (Hsum1 : sum_transactions (default [] (csv_file w1)) =
            sum_transactions (default [] (csv_file w))
              + Z.of_nat (length (omap decode_transfer_event
                                    (logs_between logs cb ce)))).
  { pose proof (sum_transactions_aggregate
                  (zip dates (logs_between logs cb ce))) as Hsum.
    rewrite omap_snd_zip in Hsum by done.
    rewrite Hcsv.
    destruct (aggregate (zip dates (logs_between logs cb ce)))
      as [|item cm].
    - change (sum_transactions (csv_row <$> [])) with 0 in Hsum. lia.
    - unfold csv_append. cbn [from_option id].
      rewrite sum_transactions_app. lia. }
  destruct (IH (ce + 1) eb cs w1 Hcs ltac:(lia))
    as (b & Hres & Hlo & Hhi & Hsum2).
  exists b. split; [exact Hres|]. split; [lia|]. split; [lia|].
  rewrite Hsum2, Hsum1.
  rewrite (logs_between_split decode_transfer_event logs cb ce (b - 1))
    by lia.
  lia.
Qed.

End Answering.

(** X18. On a node that answers, the scan counts every transfer once. Let
    the node serve the logs of a fixed list, all in blocks of a chain of
    [height] blocks, for every range asked; let, of any three requests
    in a row for a block of the chain, one at least be answered with a
    timestamp that [datetime.fromtimestamp] converts; and let the chunk
    size not be negative. Then the scan loop never backs off: it ends by
    exhausting the range, with the chunk size it began with and with
    [current_block] at some [b] that is [end_block] or [end_block + 1]
    (or the block it began with, when that is beyond), and it has raised
    the sum of the column [transactions] of the CSV file by the number of
    the logs in the blocks from where it began up to [b - 1] that
    decode. *)
Theorem scan_counts_every_transfer_once
    (node : Node) (fromtimestamp : Z → option datetime) (height : Z)
    (logs : list RawLog) (fuel : nat)
    (current_block end_block chunk_size : Z) (w : World) :
  never_thrice node fromtimestamp height →
  (∀ i a b, get_logs node i a b = Some (logs_between logs a b)) →
  Forall (λ l, 1 ≤ blockNumber l ≤ height) logs →
  0 ≤ chunk_size →
  Z.max 0 (end_block - current_block) ≤ Z.of_nat fuel →
  let r :=
    scan_loop node fromtimestamp fuel current_block end_block chunk_size w
  in
  ∃ b,
    r.1 = Ok (Exhausted b chunk_size)
    ∧ current_block ≤ b
    ∧ end_block ≤ b ≤ Z.max current_block (end_block + 1)
    ∧ sum_transactions (default [] (csv_file r.2)) =
        sum_transactions (default [] (csv_file w))
          + Z.of_nat
              (length (omap decode_transfer_event
                         (logs_between logs current_block (b - 1)))).
Proof.
  intros Hblocks Hlogs Hchain. by apply (scan_loop_counts _ _ height).
Qed.

Lemma scan_counts_every_transfer_once_witness :
  never_thrice flaky_node utc_fromtimestamp 5
  ∧ (∀ i a b,
       get_logs flaky_node i a b =
         Some (logs_between
                 [transfer_log 2 10 11 (10 ^ 18);
                  transfer_log 4 11 12 (2 * 10 ^ 18)] a b))
  ∧ Forall (λ l, 1 ≤ blockNumber l ≤ 5)
      [transfer_log 2 10 11 (10 ^ 18); transfer_log 4 11 12 (2 * 10 ^ 18)]
  ∧ 0 ≤ 2
  ∧ Z.max 0 (5 - 1) ≤ Z.of_nat 4
  ∧ let r := scan_loop flaky_node utc_fromtimestamp 4 1 5 2 fresh_world in
    ∃ b,
      r.1 = Ok (Exhausted b 2)
      ∧ 1 ≤ b
      ∧ 5 ≤ b ≤ Z.max 1 (5 + 1)
      ∧ sum_transactions (default [] (csv_file r.2)) =
          sum_transactions (default [] (csv_file fresh_world))
            + Z.of_nat
                (length (omap decode_transfer_event
                           (logs_between
                              [transfer_log 2 10 11 (10 ^ 18);
                               transfer_log 4 11 12 (2 * 10 ^ 18)]
                              1 (b - 1)))).
Proof.
  assert (Hchain : Forall (λ l, 1 ≤ blockNumber l ≤ 5)
            [transfer_log 2 10 11 (10 ^ 18);
             transfer_log 4 11 12 (2 * 10 ^ 18)]).
  { repeat constructor; simpl; lia. }
  split; [exact flaky_node_never_thrice|].
  split; [reflexivity|]. split; [exact Hchain|]. split; [lia|].
  split; [lia|].
  apply (scan_counts_every_transfer_once flaky_node utc_fromtimestamp 5
           [transfer_log 2 10 11 (10 ^ 18);
            transfer_log 4 11 12 (2 * 10 ^ 18)] 4 1 5 2 fresh_world);
    [exact flaky_node_never_thrice | reflexivity | exact Hchain
    | lia | lia].
Defined.

(** ** The progress file after the loop *)

Section ProgressFile.

Variable node : Node.
Variable fromtimestamp : Z → option datetime.

Lemma scan_loop_progress fuel : ∀ current_block end_block chunk_size w,
  0 ≤ chunk_size →
  let r :=
    scan_loop node fromtimestamp fuel current_block end_block chunk_size w in
  match r.1 with
  | Ok exit =>
      exit_current_block exit = current_block
      ∧ progress_file r.2 = progress_file w
      ∨ ∃ first,
          current_block ≤ first ≤ exit_current_block exit - 1
          ∧ progress_file r.2 =
              Some {| start_block := first;
                      end_block := end_block;
                      last_processed := exit_current_block exit - 1 |}
  | _ => True
  end.
Proof.
  induction fuel as [|fuel IH]; intros cb eb cs w Hcs; simpl.
  { destruct (cb <? eb); simpl; [done | by left]. }
  destruct (cb <? eb) eqn:Hlt; simpl; [|by left].
  apply Z.ltb_lt in Hlt.
  set (ce := (cb + cs) `min` eb).
  assert (Hce : cb ≤ ce ≤ eb) by (subst ce; lia).
  unfold try_except.
  destruct (try_chunk_spec node fromtimestamp cb ce eb w) as (evs & _ & H).
  destruct (try_chunk node fromtimestamp cb ce eb w) as [[[]| |] w1];
    simpl in H; [| |done].
  - destruct H as (events & dates & _ & _ & _ & Hprog & _).
    specialize (IH (ce + 1) eb cs w1 Hcs). cbv zeta in IH.
    destruct (scan_loop node fromtimestamp fuel (ce + 1) eb cs w1)
      as [[exit| |] w2]; simpl in *; [|done|done].
    right. destruct IH as [[Hb Hsame] | (first & Hfirst & Hfile)].
    + exists cb. rewrite Hb, Hsame, Hprog.
      split; [lia|]. do 2 f_equal. lia.
    + exists first. split; [lia | done].
  - destruct H as (_ & Hp & _).
    destruct (cs / 2 <? 100) eqn:Hsmall; simpl.
    { by left. }
    rewrite bind_run. simpl.
    assert (Hhalf : 0 ≤ cs / 2) by (apply Z.div_pos; lia).
    specialize (IH cb eb (cs / 2) (emit (ESleep 2000) w1) Hhalf).
    cbv zeta in IH.
    destruct (scan_loop node fromtimestamp fuel cb eb (cs / 2) _)
      as [[exit| |] w2]; simpl in *; [|done|done].
    destruct IH as [[Hb Hsame] | (first & Hfirst & Hfile)].
    + left. by rewrite Hsame.
    + right. by exists first.
Qed.

End ProgressFile.

(** X19. The progress file tells where the loop stopped. When the scan
    loop, run with a chunk size that is not negative, ends with
    [current_block] at [b], then either no chunk was processed, [b] is
    the block the loop began with and the progress file is as before, or
    the file holds [last_processed = b - 1] and the [end_block] of the
    scan, with a [start_block] between the block the loop began with and
    [b - 1]. *)
Theorem progress_file_after_loop
    (node : Node) (fromtimestamp : Z → option datetime) (fuel : nat)
    (current_block end_block chunk_size : Z) (w : World) :
  0 ≤ chunk_size →
  Z.max 0 (end_block - current_block) + chunk_size ≤ Z.of_nat fuel →
  let r :=
    scan_loop node fromtimestamp fuel current_block end_block chunk_size w in
  ∃ exit,
    r.1 = Ok exit
    ∧ (exit_current_block exit = current_block
       ∧ progress_file r.2 = progress_file w
       ∨ ∃ first,
           current_block ≤ first ≤ exit_current_block exit - 1
           ∧ progress_file r.2 =
               Some {| start_block := first;
                       end_block := end_block;
                       last_processed := exit_current_block exit - 1 |}).
Proof.
  intros Hcs Hfuel r. subst r.
  destruct (scan_loop_returns node fromtimestamp fuel current_block end_block
              chunk_size w Hcs Hfuel) as [exit Hexit].
  pose proof (scan_loop_progress node fromtimestamp fuel current_block
                end_block chunk_size w Hcs) as H.
  cbv zeta in H. rewrite Hexit in H. by exists exit.
Qed.

Lemma progress_file_after_loop_witness :
  0 ≤ 2
  ∧ Z.max 0 (5 - 1) + 2 ≤ Z.of_nat 6
  ∧ let r := scan_loop scenario_node utc_fromtimestamp 6 1 5 2 fresh_world in
    ∃ exit,
      r.1 = Ok exit
      ∧ (exit_current_block exit = 1
         ∧ progress_file r.2 = progress_file fresh_world
         ∨ ∃ first,
             1 ≤ first ≤ exit_current_block exit - 1
             ∧ progress_file r.2 =
                 Some {| start_block := first;
                         end_block := 5;
                         last_processed := exit_current_block exit - 1 |}).
Proof.
  split; [lia|]. split; [lia|].
  apply (progress_file_after_loop scenario_node utc_fromtimestamp 6 1 5 2
           fresh_world); lia.
Defined.
